(** * VocalTractVisualizer: the numeric core, embedded and verified

    A shallow embedding of the DSP core of the repository:
    - [src/audio/AudioBuffer.ts]      (CircularBuffer, AudioBufferProcessor)
    - [src/utils/fft.ts]              (Complex, FFT.fft, FFT.ifft, FFT.rfft,
                                      FFT.powerSpectrum, FFT.applyWindow,
                                      FFT.getFrequencyBins; the file
                                      imported as '../utils/fft')
    - [src/utils/lpc.ts]              (LPC.autocorrelation, LPC.levinsonDurbin,
                                      LPC.analyze, LPC.applyPreEmphasis,
                                      LPC.reflectionToArea, LPC.areaToLogArea,
                                      LPC.lpcFrequencyResponse,
                                      LPC.estimateFormants, LPC.synthesize,
                                      RealtimeLPCAnalyzer)
    - [src/audio/FeatureExtractor.ts] (FeatureExtractor.extractFeatures and
                                      the methods it calls)

    JavaScript numbers are IEEE-754 binary64 values; they are modelled
    exactly, with the Standard Library's executable specification of
    floating-point arithmetic ([SpecFloat]).  A [Float32Array] element is
    a binary64 value that went through the binary32 rounding ([fround]).
    Numbers the program uses as integers (indices, lengths, counters)
    are modelled in [Z]; the 32-bit coercions of the bit operators are
    written out. *)

From Stdlib Require Import ZArith List Bool Lia SpecFloat.
From stdpp Require Import base list.

Local Open Scope Z_scope.

(* ================================================================== *)
(** * JavaScript numbers *)
(* ================================================================== *)

Module JS.

(** A JS [number]: binary64, i.e. precision 53 and exponent bound 1024. *)
Definition number : Type := spec_float.

Definition prec64 : Z := 53.
Definition emax64 : Z := 1024.
Definition prec32 : Z := 24.
Definition emax32 : Z := 128.

Definition NaN : number := S754_nan.
Definition pzero : number := S754_zero false.
Definition nzero : number := S754_zero true.
Definition pinf : number := S754_infinity false.

(** The arithmetic operators [+ - * /], unary minus and [Math.sqrt]. *)
Definition add (x y : number) : number := SFadd prec64 emax64 x y.
Definition sub (x y : number) : number := SFsub prec64 emax64 x y.
Definition mul (x y : number) : number := SFmul prec64 emax64 x y.
Definition div (x y : number) : number := SFdiv prec64 emax64 x y.
Definition neg (x : number) : number := SFopp x.
Definition Math_sqrt (x : number) : number := SFsqrt prec64 emax64 x.

(** The comparisons [<], [<=], [>], [>=]: all are false on NaN. *)
Definition lt (x y : number) : bool := SFltb x y.
Definition le (x y : number) : bool := SFleb x y.
Definition gt (x y : number) : bool := SFltb y x.
Definition ge (x y : number) : bool := SFleb y x.

Definition is_nan (x : number) : bool :=
  match x with S754_nan => true | _ => false end.

(** An integer-valued number (exact below 2^53, like every index and
    length of the program). *)
Definition of_Z (z : Z) : number := binary_normalize prec64 emax64 z 0 false.

(** [Math.fround]: what a store into a [Float32Array] followed by a load
    does to a number.  Round to binary32, then write the result again
    with a binary64 mantissa. *)
Definition fround (x : number) : number :=
  match x with
  | S754_finite s m e =>
      match binary_round prec32 emax32 s m e with
      | S754_finite s' m' e' => binary_round prec64 emax64 s' m' e'
      | y => y
      end
  | _ => x
  end.

(** [Math.max] and [Math.min] of two arguments: NaN if either is NaN,
    and -0 is smaller than +0. *)
Definition Math_max (x y : number) : number :=
  if is_nan x || is_nan y then NaN
  else if lt x y then y
  else if lt y x then x
  else match x, y with
       | S754_zero true, S754_zero s => S754_zero s
       | _, _ => x
       end.

Definition Math_min (x y : number) : number :=
  if is_nan x || is_nan y then NaN
  else if lt x y then x
  else if lt y x then y
  else match x, y with
       | S754_zero false, S754_zero s => S754_zero s
       | _, _ => x
       end.

(** [Math.floor] of a number, as an integer of the model; [None] for
    NaN and the infinities (which [Math.floor] returns unchanged). *)
Definition Math_floor (x : number) : option Z :=
  match x with
  | S754_zero _ => Some 0
  | S754_finite s m e =>
      let v := if s then Z.neg m else Z.pos m in
      Some (if 0 <=? e then v * 2 ^ e else v / 2 ^ (- e))
  | _ => None
  end.

(** Literals of the source, as the binary64 values they denote. *)
Definition one : number := of_Z 1.
Definition lit_0_99 : number := S754_finite false 8917127262193582 (-53).
Definition lit_0_3 : number := S754_finite false 5404319552844595 (-54).
Definition Math_PI : number := S754_finite false 7074237752028440 (-51).

(** Reading an array element in a numeric context: an index out of
    range yields [undefined], which every arithmetic operator and every
    store into a typed array coerces to NaN. *)
Definition rd (l : list number) (i : Z) : number :=
  if i <? 0 then NaN else nth (Z.to_nat i) l NaN.

(** A store into a typed array: in range it replaces the element (the
    caller rounds the value), out of range it is ignored. *)
Definition wr {A : Type} (l : list A) (i : Z) (x : A) : list A :=
  if i <? 0 then l else <[Z.to_nat i := x]> l.

(** The strict equality [===] of two numbers: false on NaN, true on
    zeros of either sign. *)
Definition eqb (x y : number) : bool := SFeqb x y.

(** [Math.floor] as a number: NaN, the infinities and the zeros are
    returned as they are. *)
Definition Math_floor_num (x : number) : number :=
  match x with
  | S754_finite _ _ _ =>
      match Math_floor x with Some z => of_Z z | None => x end
  | _ => x
  end.

(** Whether [new Float32Array(n)] returns, for an integer [n].  A
    negative length and a length above 2^53 - 1 are a [RangeError];
    so is a length the platform cannot provide (every engine has a
    largest typed array, and memory can run out): [alloc n] says
    whether it can. *)
Definition allocates (alloc : Z -> bool) (n : Z) : bool :=
  (0 <=? n) && (n <=? 2 ^ 53 - 1) && alloc n.

(** The length [new Float32Array(x)] gives the array, for a number [x]
    that [Math.floor] returned: NaN counts as 0; a negative or infinite
    length, and a length that cannot be allocated, is a [RangeError]
    ([None]). *)
Definition array_length (alloc : Z -> bool) (x : number) : option Z :=
  match x with
  | S754_nan => if allocates alloc 0 then Some 0 else None
  | _ => match Math_floor x with
         | Some z => if allocates alloc z then Some z else None
         | None => None
         end
  end.

(** Reading an array at an index held in a number (the result of
    [Math.floor], possibly plus one). *)
Definition rd_at (l : list number) (i : number) : number :=
  match Math_floor i with
  | Some z => rd l z
  | None => NaN
  end.

(** More literals of the source. *)
Definition lit_1e_6 : number := S754_finite false 4722366482869645 (-72).
Definition lit_1e_12 : number := S754_finite false 4951760157141521 (-92).
Definition lit_0_02 : number := S754_finite false 5764607523034235 (-58).
Definition lit_0_03 : number := S754_finite false 8646911284551352 (-58).
Definition lit_0_08 : number := S754_finite false 5764607523034235 (-56).
Definition lit_0_42 : number := S754_finite false 7566047373982433 (-54).
Definition lit_0_46 : number := S754_finite false 8286623314361713 (-54).
Definition lit_0_5 : number := S754_finite false 4503599627370496 (-53).
Definition lit_0_54 : number := S754_finite false 4863887597560136 (-53).
Definition lit_0_85 : number := S754_finite false 7656119366529843 (-53).
Definition lit_0_97 : number := S754_finite false 8736983277098762 (-53).


(** A number that is not NaN and whose sign bit is clear: [+0], a
    positive number or [+Infinity]. *)
Definition nonneg (x : number) : bool :=
  match x with
  | S754_zero s | S754_infinity s | S754_finite s _ _ => negb s
  | S754_nan => false
  end.


End JS.

(** The 32-bit integer coercions of the bit operators. *)
Module Int32.

(** [ToInt32]: wrap an integer into [-2^31, 2^31). *)
Definition wrap (z : Z) : Z := (z + 2 ^ 31) mod 2 ^ 32 - 2 ^ 31.

Definition and (a b : Z) : Z := Z.land (wrap a) (wrap b).
Definition or (a b : Z) : Z := Z.lor (wrap a) (wrap b).
Definition shl (a n : Z) : Z := wrap (Z.shiftl (wrap a) (n mod 32)).
Definition sar (a n : Z) : Z := Z.shiftr (wrap a) (n mod 32).

End Int32.


(** Exceptions the modelled code can raise, and the outcome of a call.
    [NoFuel] is not a JavaScript outcome: it says that the loop budget
    given to the model ran out before the call returned. *)
Inductive error : Type := InvalidSize | TypeError | RangeError.

Inductive outcome (A : Type) : Type :=
| Ok (a : A)
| Throw (e : error)
| NoFuel.
Arguments Ok {A} a.
Arguments Throw {A} e.
Arguments NoFuel {A}.

Definition bind {A B : Type} (x : outcome A) (f : A -> outcome B) : outcome B :=
  match x with
  | Ok a => f a
  | Throw e => Throw e
  | NoFuel => NoFuel
  end.

Notation "'let*' x ':=' c1 'in' c2" := (bind c1 (fun x => c2))
  (at level 10, x name, c1 at level 100, c2 at level 200).

(** A counting loop [for (let i = start; i < start + n; i++) body]. *)
Fixpoint for_range {S : Type} (n : nat) (start : Z)
    (body : Z -> S -> outcome S) (s : S) : outcome S :=
  match n with
  | O => Ok s
  | Datatypes.S n' => let* s' := body start s in for_range n' (start + 1) body s'
  end.

(* ================================================================== *)
(** * src/audio/AudioBuffer.ts *)
(* ================================================================== *)

(** The element type of a [Float32Array], with the only operations the
    buffer code applies to it: the zero a fresh array is filled with,
    the NaN a store of [undefined] produces, and the product of two
    elements stored back into a [Float32Array]. *)
Class Float32 (T : Type) : Type := {
  f32_zero : T;
  f32_nan : T;
  f32_mul : T -> T -> T
}.

#[export] Instance number_Float32 : Float32 JS.number := {|
  f32_zero := JS.pzero;
  f32_nan := JS.NaN;
  f32_mul := fun x y => JS.fround (JS.mul x y)
|}.

(** [new Float32Array(n)] for an integer [n]: [n] zeros, or a
    [RangeError] when the array cannot be allocated. *)
Definition new_Float32Array {T : Type} `{Float32 T} (alloc : Z -> bool) (n : Z)
    : outcome (list T) :=
  if JS.allocates alloc n then Ok (replicate (Z.to_nat n) f32_zero)
  else Throw RangeError.

Module CircularBuffer.
Section WithSample.
Context {T : Type} `{Float32 T}.

(** The fields of the class.  [buffer] is never null once the
    constructor has returned, so the [if (!this.buffer)] guards of the
    methods are not taken. *)
Record t : Type := mk {
  buffer : list T;
  writeIndex : Z;
  readIndex : Z;
  size : Z;
  filled : bool
}.

(** The constructor.  The loop tries the candidate sizes in turn, the
    ones larger than the request being skipped, and catches the
    exception of an allocation that fails; [try_sizes] is the size it
    stops at, if any.  The allocation of the last resort, 256 samples,
    is outside of the [try]: when it fails too, the constructor
    throws. *)
Definition sizes (size : Z) : list Z := [size; 8192; 4096; 2048; 1024; 512].

Fixpoint try_sizes (alloc : Z -> bool) (size : Z) (cands : list Z) : option Z :=
  match cands with
  | [] => None
  | trySize :: rest =>
      if size <? trySize then try_sizes alloc size rest
      else if JS.allocates alloc trySize then Some trySize
      else try_sizes alloc size rest
  end.

Definition fresh (n : Z) : t := mk (replicate (Z.to_nat n) f32_zero) 0 0 n false.

Definition new (alloc : Z -> bool) (size : Z) : outcome t :=
  match try_sizes alloc size (sizes size) with
  | Some n => Ok (fresh n)
  | None =>
      let* buffer := new_Float32Array alloc 256 in
      Ok (mk buffer 0 0 256 false)
  end.

(** One iteration of the loop of [write].  The cursors are integers of
    the model: [%] is [Z.rem] on a positive capacity (on a capacity of
    0 JavaScript's [%] yields NaN, which no fact below depends on). *)
Definition write_step (st : t) (x : T) : t :=
  let buf := JS.wr (buffer st) (writeIndex st) x in
  let w := Z.rem (writeIndex st + 1) (size st) in
  if w =? readIndex st
  then mk buf w (Z.rem (readIndex st + 1) (size st)) (size st) true
  else mk buf w (readIndex st) (size st) (filled st).

Definition write (st : t) (data : list T) : t := fold_left write_step data st.

(** Reading a typed array at an index of the model. *)
Definition load (buf : list T) (i : Z) : T :=
  if i <? 0 then f32_nan else nth (Z.to_nat i) buf f32_nan.

(** One iteration of the loop of [read]: the new state and [result[i]]. *)
Definition read_step (st : t) : t * T :=
  if negb (filled st) && (readIndex st =? writeIndex st)
  then (st, f32_zero)
  else
    let x := load (buffer st) (readIndex st) in
    let r := Z.rem (readIndex st + 1) (size st) in
    (mk (buffer st) (writeIndex st) r (size st)
        (if r =? writeIndex st then false else filled st), x).

(** [read(length)]; [length] is a valid array length ([new
    Float32Array(length)] throws before the buffer is touched
    otherwise). *)
Fixpoint read (st : t) (length : nat) : t * list T :=
  match length with
  | O => (st, [])
  | S n =>
      let '(st1, x) := read_step st in
      let '(st2, xs) := read st1 n in
      (st2, x :: xs)
  end.

(** The loop of [peek], instrumented: each entry is the backing-store
    index the iteration computed and the value it read there. *)
Fixpoint peek_loop (buf : list T) (size : Z) (length : nat) (peekIndex : Z)
    : list (Z * T) :=
  match length with
  | O => []
  | S n => (peekIndex, load buf peekIndex)
           :: peek_loop buf size n (Z.rem (peekIndex + 1) size)
  end.

Definition peek_trace (st : t) (length : nat) (offset : Z) : list (Z * T) :=
  peek_loop (buffer st) (size st) length
    (Z.rem (writeIndex st - Z.of_nat length - offset + size st) (size st)).

Definition peek (st : t) (length : nat) (offset : Z) : list T :=
  map snd (peek_trace st length offset).

Definition peek_indices (st : t) (length : nat) (offset : Z) : list Z :=
  map fst (peek_trace st length offset).

Definition clear (st : t) : t :=
  mk (replicate (length (buffer st)) f32_zero) 0 0 (size st) false.

Definition getAvailableData (st : t) : Z :=
  if filled st then size st
  else if readIndex st <=? writeIndex st then writeIndex st - readIndex st
  else size st - readIndex st + writeIndex st.

Definition isFull (st : t) : bool := filled st.

(** Calls that change the state of a buffer, and a run of them. *)
Inductive op : Type :=
| Write (data : list T)
| Read (length : nat)
| Clear.

Definition step (st : t) (o : op) : t :=
  match o with
  | Write data => write st data
  | Read n => fst (read st n)
  | Clear => clear st
  end.

Definition run (st : t) (ops : list op) : t := fold_left step ops st.

Definition written (o : op) : Z :=
  match o with Write data => Z.of_nat (length data) | _ => 0 end.

Definition total_written (ops : list op) : Z :=
  fold_right (fun o acc => written o + acc) 0 ops.

(** The number of samples [write] can still store before the write
    cursor catches the read cursor. *)
Definition gap (st : t) : Z :=
  (readIndex st - writeIndex st - 1) mod size st.

(** The representation invariant of a buffer of capacity [S]. *)
Definition wf (S : Z) (st : t) : Prop :=
  size st = S /\ length (buffer st) = Z.to_nat S /\
  0 <= writeIndex st < S /\ 0 <= readIndex st < S.

End WithSample.
Arguments t T : clear implicits.
Arguments op T : clear implicits.
End CircularBuffer.

Module AudioBufferProcessor.
Section WithSample.
Context {T : Type} `{Float32 T}.

Record t : Type := mk {
  inputBuffer : CircularBuffer.t T;
  frameSize : Z;
  hopSize : Z;
  windowFunction : list T;
  overlapBuffer : list T
}.

(** The constructor.  [createWindow size] is the Blackman window table
    the private method fills (with [Math.cos], which is left to the
    platform) once it has allocated the array for it.  None of the
    allocations is guarded here: the constructor throws when the
    buffer's does, or the window's, or the overlap buffer's. *)
Definition new (alloc : Z -> bool) (createWindow : Z -> list T)
    (bufferSize frameSize hopSize : Z) : outcome t :=
  let validBufferSize := Z.max 2048 (Z.min bufferSize 65536) in
  let validFrameSize := Z.max 256 (Z.min frameSize 4096) in
  let validHopSize := Z.max 128 (Z.min hopSize validFrameSize) in
  let* inputBuffer := CircularBuffer.new alloc validBufferSize in
  let* window := @new_Float32Array T _ alloc validFrameSize in
  let windowFunction := createWindow validFrameSize in
  let* overlapBuffer := new_Float32Array alloc validFrameSize in
  Ok (mk inputBuffer validFrameSize validHopSize windowFunction overlapBuffer).

Definition addAudioData (p : t) (data : list T) : t :=
  mk (CircularBuffer.write (inputBuffer p) data) (frameSize p) (hopSize p)
     (windowFunction p) (overlapBuffer p).

Definition getFrames (p : t) : list (list T) :=
  let availableData := CircularBuffer.getAvailableData (inputBuffer p) in
  if frameSize p <=? availableData
  then [CircularBuffer.peek (inputBuffer p) (Z.to_nat (frameSize p)) 0]
  else [].

(** The body of the loop of [getWindowedFrames]: the windowed frame and
    the processor after [read(hopSize)]. *)
Definition windowed (p : t) : list T :=
  let frame := CircularBuffer.peek (inputBuffer p) (Z.to_nat (frameSize p)) 0 in
  map (fun i => f32_mul (nth i frame f32_nan) (nth i (windowFunction p) f32_nan))
      (seq 0 (Z.to_nat (frameSize p))).

Definition advance (p : t) : t :=
  mk (fst (CircularBuffer.read (inputBuffer p) (Z.to_nat (hopSize p))))
     (frameSize p) (hopSize p) (windowFunction p) (overlapBuffer p).

(** The [while] loop.  [availableData] is the constant the method read
    before the loop; each unit of fuel pays for one test of the loop
    condition. *)
Fixpoint getWindowedFrames_loop (fuel : nat) (availableData : Z) (p : t)
    (frames : list (list T)) : outcome (t * list (list T)) :=
  match fuel with
  | O => NoFuel
  | S fuel' =>
      if frameSize p <=? availableData
      then getWindowedFrames_loop fuel' availableData (advance p)
             (frames ++ [windowed p])
      else Ok (p, frames)
  end.

Definition getWindowedFrames (fuel : nat) (p : t) : outcome (t * list (list T)) :=
  let availableData := CircularBuffer.getAvailableData (inputBuffer p) in
  getWindowedFrames_loop fuel availableData p [].

Definition clear (p : t) : t :=
  mk (CircularBuffer.clear (inputBuffer p)) (frameSize p) (hopSize p)
     (windowFunction p) (replicate (length (overlapBuffer p)) f32_zero).

(** The calls that change the state of a processor and return, and a
    run of them.  ([getFrames] changes nothing; [getWindowedFrames]
    returns only when it found no frame, and then it changed nothing.) *)
Inductive op : Type :=
| AddAudioData (data : list T)
| Clear.

Definition step (p : t) (o : op) : t :=
  match o with
  | AddAudioData data => addAudioData p data
  | Clear => clear p
  end.

Definition run (p : t) (ops : list op) : t := fold_left step ops p.

(** What a call of the processor does to its input buffer. *)
Definition buffer_op (o : op) : CircularBuffer.op T :=
  match o with
  | AddAudioData data => CircularBuffer.Write data
  | Clear => CircularBuffer.Clear
  end.

End WithSample.
Arguments t T : clear implicits.
Arguments op T : clear implicits.
End AudioBufferProcessor.

(* ================================================================== *)
(** * src/utils/fft.ts *)
(* ================================================================== *)

Module Complex.

Record t : Type := mk { real : JS.number; imag : JS.number }.

Definition add (this other : t) : t :=
  mk (JS.add (real this) (real other)) (JS.add (imag this) (imag other)).

Definition subtract (this other : t) : t :=
  mk (JS.sub (real this) (real other)) (JS.sub (imag this) (imag other)).

Definition multiply (this other : t) : t :=
  mk (JS.sub (JS.mul (real this) (real other)) (JS.mul (imag this) (imag other)))
     (JS.add (JS.mul (real this) (imag other)) (JS.mul (imag this) (real other))).

Definition magnitude (this : t) : JS.number :=
  JS.Math_sqrt (JS.add (JS.mul (real this) (real this))
                       (JS.mul (imag this) (imag this))).

End Complex.

Module FFT.
Section WithLibm.

(** [Math.cos] and [Math.sin] are implementation-approximated in
    ECMAScript: the transform is defined for any pair of them. *)
Variables Math_cos Math_sin : JS.number -> JS.number.

(** One iteration of the loop of [bitReverse], on [(reversed, n)]. *)
Definition bitReverse_step (rn : Z * Z) : Z * Z :=
  let '(reversed, n) := rn in
  (Int32.or (Int32.shl reversed 1) (Int32.and n 1), Int32.sar n 1).

Definition bitReverse (n bits : Z) : Z :=
  fst (Nat.iter (Z.to_nat bits) bitReverse_step (0, n)).

Definition isPowerOfTwo (n : Z) : bool :=
  (0 <? n) && (Int32.and n (n - 1) =? 0).

(** The bit-reversal pass: the body of [for (let i = 0; i < N; i++)].
    With [bits] the exact logarithm of [N] the partner [j] is an index
    of the array; a partner outside it would put [undefined] in slot
    [i], on which the first butterfly stage throws a [TypeError]. *)
Definition swap_step (bits : Z) (i : Z) (complex : list Complex.t)
    : outcome (list Complex.t) :=
  let j := bitReverse i bits in
  if i <? j then
    match complex !! Z.to_nat i, complex !! Z.to_nat j with
    | Some ci, Some cj => Ok (JS.wr (JS.wr complex i cj) j ci)
    | _, _ => Throw TypeError
    end
  else Ok complex.

(** The butterfly: the body of [for (let j = 0; j < m2; j++)]. *)
Definition butterfly (theta : JS.number) (m2 k : Z) (j : Z)
    (complex : list Complex.t) : outcome (list Complex.t) :=
  let twiddle :=
    Complex.mk (Math_cos (JS.mul (JS.of_Z j) theta))
               (Math_sin (JS.mul (JS.of_Z j) theta)) in
  if (k + j + m2 <? 0) || (k + j <? 0) then Throw TypeError else
  match complex !! Z.to_nat (k + j + m2), complex !! Z.to_nat (k + j) with
  | Some x, Some u =>
      let t := Complex.multiply x twiddle in
      Ok (JS.wr (JS.wr complex (k + j) (Complex.add u t))
                (k + j + m2) (Complex.subtract u t))
  | _, _ => Throw TypeError
  end.

(** [for (let k = 0; k < N; k += m)]: the step [m] comes out of a 32-bit
    shift, so the loop is given fuel, one unit per test of [k < N]. *)
Fixpoint k_loop (fuel : nat) (N m m2 : Z) (theta : JS.number) (k : Z)
    (complex : list Complex.t) : outcome (list Complex.t) :=
  match fuel with
  | O => NoFuel
  | S fuel' =>
      if k <? N then
        let* complex' := for_range (Z.to_nat m2) 0 (butterfly theta m2 k) complex in
        k_loop fuel' N m m2 theta (k + m) complex'
      else Ok complex
  end.

(** The body of [for (let stage = 1; stage <= bits; stage++)]. *)
Definition stage_step (fuel : nat) (N : Z) (stage : Z)
    (complex : list Complex.t) : outcome (list Complex.t) :=
  let m := Int32.shl 1 stage in
  let m2 := Int32.sar m 1 in
  let theta := JS.div (JS.mul (JS.neg (JS.of_Z 2)) JS.Math_PI) (JS.of_Z m) in
  k_loop fuel N m m2 theta 0 complex.

(** Everything [fft] does to the array [complex] once it is filled:
    bit reversal, then the butterfly stages.  [bits] is [Math.log2(N)],
    which is exact on the powers of two the size check lets through. *)
Definition fft_inplace (fuel : nat) (complex : list Complex.t)
    : outcome (list Complex.t) :=
  let N := Z.of_nat (length complex) in
  let bits := Z.log2 N in
  let* complex1 := for_range (Z.to_nat N) 0 (swap_step bits) complex in
  for_range (Z.to_nat bits) 1 (stage_step fuel N) complex1.

(** [fft].  After the size check, [new Array(N)] throws a [RangeError]
    on a length that is not an unsigned 32-bit integer. *)
Definition fft (fuel : nat) (signal : list JS.number) : outcome (list Complex.t) :=
  let N := Z.of_nat (length signal) in
  if negb (isPowerOfTwo N) then Throw InvalidSize
  else if 2 ^ 32 - 1 <? N then Throw RangeError
  else fft_inplace fuel (map (fun x => Complex.mk x JS.pzero) signal).

(** [ifft]: the conjugated array is reduced to its real parts, rounded
    into a [Float32Array], before it is handed to [fft]. *)
Definition ifft (fuel : nat) (complex : list Complex.t) : outcome (list JS.number) :=
  let N := Z.of_nat (length complex) in
  let conjugated :=
    map (fun c => Complex.mk (Complex.real c) (JS.neg (Complex.imag c))) complex in
  let* result := fft fuel (map JS.fround (map Complex.real conjugated)) in
  Ok (map (fun c => JS.fround (JS.div (Complex.real c) (JS.of_Z N))) result).

(** The reference inverse transform, as the specification words it:
    conjugate every element, apply the forward transform to the
    conjugated complex sequence, scale by 1/N, keep the real parts. *)
Definition ifft_reference (fuel : nat) (complex : list Complex.t)
    : outcome (list JS.number) :=
  let N := Z.of_nat (length complex) in
  let conjugated :=
    map (fun c => Complex.mk (Complex.real c) (JS.neg (Complex.imag c))) complex in
  if negb (isPowerOfTwo N) then Throw InvalidSize else
  let* result := fft_inplace fuel conjugated in
  Ok (map (fun c => JS.fround (JS.div (Complex.real c) (JS.of_Z N))) result).

End WithLibm.

(** Two pairs of cosine and sine functions agree at the arguments the
    stages up to [bits] pass to them. *)
Definition agree_on_twiddles (cos1 sin1 cos2 sin2 : JS.number -> JS.number)
    (bits : Z) : Prop :=
  forall stage j : Z,
    1 <= stage <= bits -> 0 <= j < Int32.sar (Int32.shl 1 stage) 1 ->
    let x := JS.mul (JS.of_Z j)
               (JS.div (JS.mul (JS.neg (JS.of_Z 2)) JS.Math_PI)
                  (JS.of_Z (Int32.shl 1 stage))) in
    cos1 x = cos2 x /\ sin1 x = sin2 x.

(** The lengths the contract of [fft] accepts. *)
Definition is_pow2 (n : Z) : Prop := exists k : Z, 0 <= k /\ n = 2 ^ k.

Section Spectra.
Variables Math_cos Math_sin : JS.number -> JS.number.

(** [rfft]: the bins [0 .. N/2] of the transform. *)
Definition rfft (fuel : nat) (signal : list JS.number) : outcome (list Complex.t) :=
  let* fftResult := fft Math_cos Math_sin fuel signal in
  let N := Z.of_nat (length signal) in
  Ok (take (Z.to_nat (N / 2 + 1)) fftResult).

(** [powerSpectrum]: [spectrum[i] = mag * mag], stored in a
    [Float32Array]. *)
Definition powerSpectrum (fuel : nat) (signal : list JS.number)
    : outcome (list JS.number) :=
  let* fftResult := rfft fuel signal in
  Ok (map (fun c => let mag := Complex.magnitude c in JS.fround (JS.mul mag mag))
          fftResult).

(** The window types of [applyWindow], and the value of the window at
    index [i] of [N]: the expression each [case] computes. *)
Inductive windowType : Type := hamming | hann | blackman.

Definition window_value (type : windowType) (N i : Z) : JS.number :=
  let two_pi_i := JS.mul (JS.mul (JS.of_Z 2) JS.Math_PI) (JS.of_Z i) in
  match type with
  | hamming =>
      JS.sub JS.lit_0_54
        (JS.mul JS.lit_0_46 (Math_cos (JS.div two_pi_i (JS.of_Z (N - 1)))))
  | hann =>
      JS.mul JS.lit_0_5
        (JS.sub JS.one (Math_cos (JS.div two_pi_i (JS.of_Z (N - 1)))))
  | blackman =>
      let x := JS.div two_pi_i (JS.of_Z (N - 1)) in
      JS.add (JS.sub JS.lit_0_42 (JS.mul JS.lit_0_5 (Math_cos x)))
             (JS.mul JS.lit_0_08 (Math_cos (JS.mul (JS.of_Z 2) x)))
  end.

(** [applyWindow]: [windowed[i] = signal[i] * window] for every index
    of the signal. *)
Definition applyWindow (signal : list JS.number) (type : windowType)
    : list JS.number :=
  let N := Z.of_nat (length signal) in
  map (fun i => JS.fround (JS.mul (JS.rd signal i) (window_value type N i)))
      (seqZ 0 N).

(** [getFrequencyBins]; [fftSize] is an integer.  A negative number of
    bins, or one that cannot be allocated, is a [RangeError]. *)
Definition getFrequencyBins (alloc : Z -> bool) (fftSize : Z)
    (sampleRate : JS.number) : outcome (list JS.number) :=
  let numBins := fftSize / 2 + 1 in
  if JS.allocates alloc numBins
  then Ok (map (fun i => JS.fround (JS.div (JS.mul (JS.of_Z i) sampleRate)
                                            (JS.of_Z fftSize)))
               (seqZ 0 numBins))
  else Throw RangeError.

End Spectra.

End FFT.

(* ================================================================== *)
(** * src/utils/lpc.ts *)
(* ================================================================== *)

Module LPC.

Record LPCResult : Type := mkResult {
  coefficients : list JS.number;
  reflectionCoefficients : list JS.number;
  predictionError : JS.number;
  gain : JS.number
}.

(** The variables of [levinsonDurbin]: the three [Float32Array]s and
    the prediction error. *)
Record state : Type := mkState {
  a : list JS.number;
  k : list JS.number;
  atemp : list JS.number;
  E : JS.number
}.

(** [for (let j = 0; j < i; j++) sum += a[j + 1] * autocorr[i - j]]. *)
Definition sum_loop (a autocorr : list JS.number) (i : Z) : JS.number :=
  fold_left
    (fun sum j => JS.add sum (JS.mul (JS.rd a (j + 1)) (JS.rd autocorr (i - j))))
    (seqZ 0 i) JS.pzero.

(** [for (let j = 0; j < i; j++) atemp[j + 1] = a[j + 1] - k[i] * a[i - j]]. *)
Definition atemp_loop (a : list JS.number) (ki : JS.number) (i : Z)
    (atemp : list JS.number) : list JS.number :=
  fold_left
    (fun atemp j =>
       JS.wr atemp (j + 1)
         (JS.fround (JS.sub (JS.rd a (j + 1)) (JS.mul ki (JS.rd a (i - j))))))
    (seqZ 0 i) atemp.

(** [for (let j = 0; j < i; j++) a[j + 1] = atemp[j + 1]]. *)
Definition copy_loop (atemp : list JS.number) (i : Z) (a : list JS.number)
    : list JS.number :=
  fold_left (fun a j => JS.wr a (j + 1) (JS.rd atemp (j + 1))) (seqZ 0 i) a.

(** The body of the main loop, up to the stability check.  A store
    into [k] or [atemp] rounds to binary32; [a[i + 1] = k[i]] and the
    copy loop store values read from a [Float32Array], which the store
    leaves as they are. *)
Definition stage (autocorr : list JS.number) (i : Z) (st : state) : state :=
  let sum := sum_loop (a st) autocorr i in
  let k1 := JS.wr (k st) i
              (JS.fround (JS.div (JS.sub (JS.rd autocorr (i + 1)) sum) (E st))) in
  let ki := JS.rd k1 i in
  let a1 := JS.wr (a st) (i + 1) ki in
  let atemp1 := atemp_loop a1 ki i (atemp st) in
  let a2 := copy_loop atemp1 i a1 in
  let E1 := JS.mul (E st) (JS.sub JS.one (JS.mul ki ki)) in
  mkState a2 k1 atemp1 E1.

(** The main loop over the stages [i], [i + 1], ...; the boolean says
    whether it was left through [break]. *)
Fixpoint stages (autocorr : list JS.number) (n : nat) (i : Z) (st : state)
    : state * bool :=
  match n with
  | O => (st, false)
  | S n' =>
      let st' := stage autocorr i st in
      if JS.le (E st') JS.pzero then (st', true)
      else stages autocorr n' (i + 1) st'
  end.

(** [order] is a valid array length.  An empty [autocorr] makes [E]
    start as [undefined], which every later use reads as NaN. *)
Definition levinsonDurbin_loop (autocorr : list JS.number) (order : nat)
    : state * bool :=
  let zeros n := replicate n JS.pzero in
  stages autocorr order 0
    (mkState (zeros (S order)) (zeros order) (zeros (S order)) (JS.rd autocorr 0)).

Definition levinsonDurbin (autocorr : list JS.number) (order : nat) : LPCResult :=
  let st := fst (levinsonDurbin_loop autocorr order) in
  mkResult
    (map (fun i => JS.rd (a st) (i + 1)) (seqZ 0 (Z.of_nat order)))
    (k st)
    (E st)
    (JS.Math_sqrt (E st)).

(** The state in which the first [i] reflection coefficients and the
    coefficients [a[1..i]] are NaN, and the one in which the prediction
    error is NaN as well. *)
Definition nan_prefix (order : nat) (i : Z) (st : state) : Prop :=
  length (a st) = S order /\ length (k st) = order /\
  length (atemp st) = S order /\
  (forall j, 0 <= j < i -> JS.rd (k st) j = JS.NaN) /\
  (forall j, 1 <= j <= i -> JS.rd (a st) j = JS.NaN).

Definition poisoned (order : nat) (i : Z) (st : state) : Prop :=
  nan_prefix order i st /\ E st = JS.NaN.

(** [Math.max(-0.99, Math.min(0.99, x))]. *)
Definition clip (x : JS.number) : JS.number :=
  JS.Math_max (JS.neg JS.lit_0_99) (JS.Math_min JS.lit_0_99 x).

(** Clipping into [-0.99, 0.99], as the specification words it. *)
Definition clipped (x : JS.number) : JS.number :=
  if JS.lt x (JS.neg JS.lit_0_99) then JS.neg JS.lit_0_99
  else if JS.gt x JS.lit_0_99 then JS.lit_0_99
  else x.

(** One step of the area recurrence of the specification, in the
    arithmetic of the code: the product with the ratio, stored in a
    [Float32Array]. *)
Definition area_ratio (area k : JS.number) : JS.number :=
  JS.fround (JS.mul area (JS.div (JS.sub JS.one k) (JS.add JS.one k))).

(** The body of the loop of [reflectionToArea]. *)
Definition area_step (reflectionCoeffs : list JS.number)
    (areas : list JS.number) (i : Z) : list JS.number :=
  let k := clip (JS.rd reflectionCoeffs i) in
  JS.wr areas (i + 1)
    (JS.fround (JS.mul (JS.rd areas i)
                  (JS.div (JS.sub JS.one k) (JS.add JS.one k)))).

Definition reflectionToArea (reflectionCoeffs : list JS.number) : list JS.number :=
  let n := length reflectionCoeffs in
  let areas := JS.wr (replicate (S n) JS.pzero) 0 (JS.fround JS.one) in
  fold_left (area_step reflectionCoeffs) (seqZ 0 (Z.of_nat n)) areas.

(** [for (let n = 0; n < N - lag; n++) sum += signal[n] * signal[n + lag]]. *)
Definition lag_sum (signal : list JS.number) (lag : Z) : JS.number :=
  fold_left
    (fun sum n => JS.add sum (JS.mul (JS.rd signal n) (JS.rd signal (n + lag))))
    (seqZ 0 (Z.of_nat (length signal) - lag)) JS.pzero.

(** [autocorrelation]: [r[lag] = sum] for every index of [r]; [maxLag]
    is a valid array length. *)
Definition autocorrelation (signal : list JS.number) (maxLag : nat)
    : list JS.number :=
  map (fun lag => JS.fround (lag_sum signal lag)) (seqZ 0 (Z.of_nat maxLag)).

(** [applyPreEmphasis]: [output[0] = signal[0]], then
    [output[i] = signal[i] - alpha * signal[i - 1]] from index 1 on. *)
Definition applyPreEmphasis (signal : list JS.number) (alpha : JS.number)
    : list JS.number :=
  let output :=
    JS.wr (replicate (length signal) JS.pzero) 0 (JS.fround (JS.rd signal 0)) in
  fold_left
    (fun output i =>
       JS.wr output i
         (JS.fround (JS.sub (JS.rd signal i)
                            (JS.mul alpha (JS.rd signal (i - 1))))))
    (seqZ 1 (Z.of_nat (length signal) - 1)) output.

Definition analyze (signal : list JS.number) (order : nat)
    (preEmphasis : JS.number) : LPCResult :=
  let filtered := applyPreEmphasis signal preEmphasis in
  let autocorr := autocorrelation filtered (order + 1) in
  levinsonDurbin autocorr order.

(** [synthesize].  One pass of the inner loop: when [n - i - 1 >= 0],
    [output[n] -= coefficients[i] * output[n - i - 1]], the difference
    being stored in the [Float32Array]. *)
Definition synthesize_tap (coefficients : list JS.number) (n : Z)
    (output : list JS.number) (i : Z) : list JS.number :=
  if 0 <=? n - i - 1
  then JS.wr output n
         (JS.fround (JS.sub (JS.rd output n)
                       (JS.mul (JS.rd coefficients i) (JS.rd output (n - i - 1)))))
  else output.

(** The body of the outer loop: [output[n] = gain * excitation[n]],
    then the inner loop over the coefficients. *)
Definition synthesize_sample (excitation coefficients : list JS.number)
    (gain : JS.number) (output : list JS.number) (n : Z) : list JS.number :=
  fold_left (synthesize_tap coefficients n)
    (seqZ 0 (Z.of_nat (length coefficients)))
    (JS.wr output n (JS.fround (JS.mul gain (JS.rd excitation n)))).

Definition synthesize (excitation coefficients : list JS.number)
    (gain : JS.number) : list JS.number :=
  fold_left (synthesize_sample excitation coefficients gain)
    (seqZ 0 (Z.of_nat (length excitation)))
    (replicate (length excitation) JS.pzero).

Section WithLibm.

(** [Math.cos], [Math.sin], [Math.log] and [Math.log10] are
    implementation-approximated in ECMAScript: the functions below are
    defined for any choice of them. *)
Variables Math_cos Math_sin Math_log Math_log10 : JS.number -> JS.number.

(** [areaToLogArea]: [logAreas[i] = Math.log(Math.max(areas[i], 1e-6))]. *)
Definition areaToLogArea (areas : list JS.number) : list JS.number :=
  map (fun a => JS.fround (Math_log (JS.Math_max a JS.lit_1e_6))) areas.

(** The inner loop of [lpcFrequencyResponse], on [(real, imag)]. *)
Definition response_sum (coefficients : list JS.number) (omega : JS.number)
    : JS.number * JS.number :=
  fold_left
    (fun ri i =>
       let angle := JS.mul (JS.neg omega) (JS.of_Z (i + 1)) in
       (JS.add (fst ri) (JS.mul (JS.rd coefficients i) (Math_cos angle)),
        JS.add (snd ri) (JS.mul (JS.rd coefficients i) (Math_sin angle))))
    (seqZ 0 (Z.of_nat (length coefficients))) (JS.one, JS.pzero).

(** [response[k]] of [lpcFrequencyResponse]. *)
Definition response_at (coefficients : list JS.number) (nfft : Z) (k : Z)
    : JS.number :=
  let omega :=
    JS.div (JS.mul (JS.mul (JS.of_Z 2) JS.Math_PI) (JS.of_Z k)) (JS.of_Z nfft) in
  let '(real, imag) := response_sum coefficients omega in
  let magnitude := JS.Math_sqrt (JS.add (JS.mul real real) (JS.mul imag imag)) in
  JS.fround (JS.mul (JS.of_Z (-20)) (Math_log10 (JS.add magnitude JS.lit_1e_12))).

(** [lpcFrequencyResponse]; [nfft] is a non-negative integer, so the
    array has [floor(nfft / 2) + 1] elements and the loop
    [for (let k = 0; k <= nfft / 2; k++)] fills all of them. *)
Definition lpcFrequencyResponse (coefficients : list JS.number) (nfft : nat)
    : list JS.number :=
  map (response_at coefficients (Z.of_nat nfft))
      (seqZ 0 (Z.of_nat nfft / 2 + 1)).

(** The peak search of [estimateFormants] over the indices [indices]:
    [numFormants] is an integer, and the loop is left as soon as a
    push makes the list that long. *)
Fixpoint formants_loop (response : list JS.number) (sampleRate : JS.number)
    (numFormants : Z) (indices : list Z) (formants : list JS.number)
    : list JS.number :=
  match indices with
  | [] => formants
  | i :: rest =>
      if JS.gt (JS.rd response i) (JS.rd response (i - 1))
         && JS.gt (JS.rd response i) (JS.rd response (i + 1))
      then
        let freq :=
          JS.div (JS.mul (JS.of_Z i) sampleRate)
            (JS.mul (JS.of_Z 2) (JS.of_Z (Z.of_nat (length response) - 1))) in
        if JS.gt freq (JS.of_Z 90)
           && JS.lt freq (JS.div sampleRate (JS.of_Z 2))
        then
          let formants' := formants ++ [freq] in
          if numFormants <=? Z.of_nat (length formants') then formants'
          else formants_loop response sampleRate numFormants rest formants'
        else formants_loop response sampleRate numFormants rest formants
      else formants_loop response sampleRate numFormants rest formants
  end.

Definition estimateFormants (coefficients : list JS.number)
    (sampleRate : JS.number) (numFormants : Z) : list JS.number :=
  let response := lpcFrequencyResponse coefficients (Z.to_nat 4096) in
  formants_loop response sampleRate numFormants
    (seqZ 1 (Z.of_nat (length response) - 2)) [].

End WithLibm.

End LPC.

(** [RealtimeLPCAnalyzer]. *)
Module RealtimeLPCAnalyzer.

Record t : Type := mk {
  order : nat;
  preEmphasis : JS.number;
  frameSize : Z;
  sampleRate : JS.number
}.

(** The object [analyzeFrame] returns. *)
Record analysis : Type := mkAnalysis {
  lpc : LPC.LPCResult;
  areas : list JS.number;
  logAreas : list JS.number;
  formants : list JS.number
}.

Section WithLibm.
Variables Math_cos Math_sin Math_log Math_log10 : JS.number -> JS.number.

Definition analyzeFrame (this : t) (frame : list JS.number) : analysis :=
  let lpc := LPC.analyze frame (order this) (preEmphasis this) in
  let areas := LPC.reflectionToArea (LPC.reflectionCoefficients lpc) in
  let logAreas := LPC.areaToLogArea Math_log areas in
  let formants :=
    LPC.estimateFormants Math_cos Math_sin Math_log10
      (LPC.coefficients lpc) (sampleRate this) 5 in
  mkAnalysis lpc areas logAreas formants.

End WithLibm.

(** [updateParameters]: the fields given replace the stored ones. *)
Definition updateParameters (this : t) (order' : option nat)
    (preEmphasis' : option JS.number) (frameSize' : option Z)
    (sampleRate' : option JS.number) : t :=
  mk (default (order this) order')
     (default (preEmphasis this) preEmphasis')
     (default (frameSize this) frameSize')
     (default (sampleRate this) sampleRate').

End RealtimeLPCAnalyzer.

(* ================================================================== *)
(** * src/audio/FeatureExtractor.ts *)
(* ================================================================== *)

Module FeatureExtractor.

(** [for (let i = 0; i < frame.length - lag; i++) sum += frame[i] * frame[i + lag]]. *)
Definition lag_sum (frame : list JS.number) (lag : Z) : JS.number :=
  fold_left
    (fun sum i => JS.add sum (JS.mul (JS.rd frame i) (JS.rd frame (i + lag))))
    (seqZ 0 (Z.of_nat (length frame) - lag)) JS.pzero.

(** The first loop: [autocorr[lag] = sum] for the lags of the range. *)
Definition autocorr_loop (frame : list JS.number) (minPeriod maxPeriod : Z)
    (autocorr : list JS.number) : list JS.number :=
  fold_left (fun autocorr lag => JS.wr autocorr lag (JS.fround (lag_sum frame lag)))
    (seqZ minPeriod (maxPeriod - minPeriod)) autocorr.

(** The peak search, on [(maxValue, maxIndex)]. *)
Definition peak_step (autocorr : list JS.number) (acc : JS.number * Z) (i : Z)
    : JS.number * Z :=
  if JS.gt (JS.rd autocorr i) (fst acc) then (JS.rd autocorr i, i) else acc.

Definition peak_loop (autocorr : list JS.number) (minPeriod maxPeriod : Z)
    : JS.number * Z :=
  fold_left (peak_step autocorr) (seqZ minPeriod (maxPeriod - minPeriod))
    (JS.pzero, 0).

(** [estimatePitch] with the periods already computed.  The result is
    [None] for [null]. *)
Definition estimatePitch_periods (sampleRate : JS.number)
    (frame : list JS.number) (minPeriod maxPeriod : Z) : option JS.number :=
  let autocorr :=
    autocorr_loop frame minPeriod maxPeriod
      (replicate (Z.to_nat maxPeriod) JS.pzero) in
  let '(maxValue, maxIndex) := peak_loop autocorr minPeriod maxPeriod in
  let threshold := JS.mul (JS.rd autocorr 0) JS.lit_0_3 in
  if JS.lt maxValue threshold then None
  else Some (JS.div sampleRate (JS.of_Z maxIndex)).

(** [estimatePitch].  [new Float32Array(maxPeriod)] throws a
    [RangeError] when [maxPeriod] is negative, infinite, or more than
    can be allocated ([alloc], see [JS.allocates]).  [Math.floor]
    leaves NaN and the infinities as they are: [new Float32Array(NaN)]
    is an empty array, over which neither loop runs and whose element 0
    is [undefined]. *)
Definition estimatePitch (alloc : Z -> bool) (sampleRate : JS.number)
    (frame : list JS.number) : outcome (option JS.number) :=
  let lit_500 := JS.of_Z 500 in
  let lit_50 := JS.of_Z 50 in
  match JS.Math_floor (JS.div sampleRate lit_500),
        JS.Math_floor (JS.div sampleRate lit_50) with
  | Some minPeriod, Some maxPeriod =>
      if JS.allocates alloc maxPeriod
      then Ok (estimatePitch_periods sampleRate frame minPeriod maxPeriod)
      else Throw RangeError
  | _, _ =>
      if JS.is_nan (JS.div sampleRate lit_50) && JS.allocates alloc 0
      then Ok (Some (JS.div sampleRate (JS.of_Z 0)))
      else Throw RangeError
  end.

(** The zero-lag autocorrelation of the frame, i.e. its energy: the
    quantity the specification compares the peak with. *)
Definition energy (frame : list JS.number) : JS.number :=
  JS.fround (lag_sum frame 0).

(** The fields of the class.  [previousSpectrum] is [None] for [null]. *)
Record t : Type := mk {
  sampleRate : JS.number;
  frameSize : Z;
  lpcAnalyzer : RealtimeLPCAnalyzer.t;
  previousSpectrum : option (list JS.number)
}.

Definition new (sampleRate : JS.number) (frameSize : Z) (lpcOrder : nat) : t :=
  mk sampleRate frameSize
     (RealtimeLPCAnalyzer.mk lpcOrder JS.lit_0_97 frameSize (JS.of_Z 8000))
     None.

Inductive VoiceQuality : Type := voiced | unvoiced | silent.

(** The object [extractFeatures] returns.  [None] stands for [null] in
    [fundamentalFrequency] and for [undefined] in [spectralRolloff]. *)
Record AudioFeatures : Type := mkFeatures {
  fundamentalFrequency : option JS.number;
  intensity : JS.number;
  voiceQuality : VoiceQuality;
  spectralCentroid : JS.number;
  spectralSpread : JS.number;
  spectralFlux : JS.number;
  spectralRolloff : option JS.number;
  formants : list JS.number;
  zeroCrossingRate : JS.number;
  lpcCoefficients : list JS.number;
  reflectionCoefficients : list JS.number;
  vocalTractAreas : list JS.number;
  logVocalTractAreas : list JS.number
}.

Definition calculateIntensity (frame : list JS.number) : JS.number :=
  let sum := fold_left (fun sum x => JS.add sum (JS.mul x x)) frame JS.pzero in
  JS.Math_sqrt (JS.div sum (JS.of_Z (Z.of_nat (length frame)))).

(** The counter of [calculateZeroCrossingRate] after its loop. *)
Definition crossings (frame : list JS.number) : Z :=
  fold_left
    (fun crossings i =>
       if negb (Bool.eqb (JS.ge (JS.rd frame i) JS.pzero)
                         (JS.ge (JS.rd frame (i - 1)) JS.pzero))
       then crossings + 1 else crossings)
    (seqZ 1 (Z.of_nat (length frame) - 1)) 0.

Definition calculateZeroCrossingRate (frame : list JS.number) : JS.number :=
  JS.div (JS.of_Z (crossings frame)) (JS.of_Z (Z.of_nat (length frame) - 1)).

Definition calculateSpectralCentroid (spectrum frequencies : list JS.number)
    : JS.number :=
  let '(weightedSum, magnitudeSum) :=
    fold_left
      (fun acc i =>
         (JS.add (fst acc) (JS.mul (JS.rd frequencies i) (JS.rd spectrum i)),
          JS.add (snd acc) (JS.rd spectrum i)))
      (seqZ 0 (Z.of_nat (length spectrum))) (JS.pzero, JS.pzero) in
  if JS.gt magnitudeSum JS.pzero then JS.div weightedSum magnitudeSum
  else JS.pzero.

Definition calculateSpectralSpread (spectrum frequencies : list JS.number)
    (centroid : JS.number) : JS.number :=
  let '(weightedVariance, magnitudeSum) :=
    fold_left
      (fun acc i =>
         let deviation := JS.sub (JS.rd frequencies i) centroid in
         (JS.add (fst acc)
                 (JS.mul (JS.mul deviation deviation) (JS.rd spectrum i)),
          JS.add (snd acc) (JS.rd spectrum i)))
      (seqZ 0 (Z.of_nat (length spectrum))) (JS.pzero, JS.pzero) in
  if JS.gt magnitudeSum JS.pzero
  then JS.Math_sqrt (JS.div weightedVariance magnitudeSum)
  else JS.pzero.

(** The loop of [calculateSpectralFlux]: the sum of the positive
    differences to the stored spectrum. *)
Definition flux_sum (spectrum previous : list JS.number) : JS.number :=
  fold_left
    (fun flux i =>
       let diff := JS.sub (JS.rd spectrum i) (JS.rd previous i) in
       if JS.gt diff JS.pzero then JS.add flux diff else flux)
    (seqZ 0 (Z.of_nat (length spectrum))) JS.pzero.

(** [calculateSpectralFlux], on the field [previousSpectrum]: the
    result of the call and the field after it.  [set] throws a
    [RangeError], before it copies anything, when the source is longer
    than the array it is copied into. *)
Definition calculateSpectralFlux (previousSpectrum : option (list JS.number))
    (spectrum : list JS.number)
    : outcome JS.number * option (list JS.number) :=
  match previousSpectrum with
  | None => (Ok JS.pzero, Some spectrum)
  | Some previous =>
      let flux := flux_sum spectrum previous in
      if (length previous <? length spectrum)%nat
      then (Throw RangeError, Some previous)
      else (Ok flux, Some (spectrum ++ drop (length spectrum) previous))
  end.

(** The search loop of [calculateSpectralRolloff] over the indices
    [indices]; [None] when it ends without a [return]. *)
Fixpoint rolloff_loop (spectrum : list JS.number) (targetEnergy : JS.number)
    (indices : list Z) (cumulativeEnergy : JS.number) : option Z :=
  match indices with
  | [] => None
  | i :: rest =>
      let cumulativeEnergy' := JS.add cumulativeEnergy (JS.rd spectrum i) in
      if JS.ge cumulativeEnergy' targetEnergy then Some i
      else rolloff_loop spectrum targetEnergy rest cumulativeEnergy'
  end.

(** [calculateSpectralRolloff] with the default threshold 0.85: an
    element of [frequencies], or [undefined] ([None]) when the index is
    outside of it. *)
Definition calculateSpectralRolloff (spectrum frequencies : list JS.number)
    : option JS.number :=
  let totalEnergy := fold_left JS.add spectrum JS.pzero in
  let targetEnergy := JS.mul totalEnergy JS.lit_0_85 in
  match rolloff_loop spectrum targetEnergy
          (seqZ 0 (Z.of_nat (length spectrum))) JS.pzero with
  | Some i => frequencies !! Z.to_nat i
  | None => last frequencies
  end.

Definition detectVoiceQuality (intensity zcr : JS.number)
    (f0 : option JS.number) : VoiceQuality :=
  if JS.lt intensity JS.lit_0_02 then silent
  else if match f0 with
          | Some f0 => JS.gt f0 (JS.of_Z 50) && JS.lt f0 (JS.of_Z 500)
          | None => false
          end
          && JS.lt zcr JS.lit_0_3 && JS.gt intensity JS.lit_0_03
       then voiced
       else unvoiced.

(** [downsample]: linear interpolation at the positions [i * ratio]. *)
Definition downsample (alloc : Z -> bool) (signal : list JS.number)
    (fromRate toRate : JS.number) : outcome (list JS.number) :=
  if JS.eqb fromRate toRate then Ok signal else
  let ratio := JS.div fromRate toRate in
  let length_signal := Z.of_nat (length signal) in
  match JS.array_length alloc
          (JS.Math_floor_num (JS.div (JS.of_Z length_signal) ratio)) with
  | None => Throw RangeError
  | Some newLength =>
      Ok (map
            (fun i =>
               let srcIndex := JS.mul (JS.of_Z i) ratio in
               let srcIndexInt := JS.Math_floor_num srcIndex in
               let fraction := JS.sub srcIndex srcIndexInt in
               if JS.lt srcIndexInt (JS.of_Z (length_signal - 1))
               then JS.fround
                      (JS.add
                         (JS.mul (JS.rd_at signal srcIndexInt)
                                 (JS.sub JS.one fraction))
                         (JS.mul (JS.rd_at signal (JS.add srcIndexInt JS.one))
                                 fraction))
               else JS.fround (JS.rd signal (length_signal - 1)))
            (seqZ 0 newLength))
  end.

Section WithLibm.
Variables Math_cos Math_sin Math_log Math_log10 : JS.number -> JS.number.

(** Which typed arrays the platform can allocate (see [JS.allocates]). *)
Variable alloc : Z -> bool.

(** [extractFeatures]: the result of the call and the object after
    it.  The only field a call changes is [previousSpectrum], inside
    [calculateSpectralFlux]; an exception raised later leaves the
    change in place.  [fuel] is the loop budget of the transform. *)
Definition extractFeatures (fuel : nat) (this : t) (frame : list JS.number)
    : outcome AudioFeatures * t :=
  let intensity := calculateIntensity frame in
  let zcr := calculateZeroCrossingRate frame in
  let windowedFrame := FFT.applyWindow Math_cos frame FFT.hamming in
  match FFT.powerSpectrum Math_cos Math_sin fuel windowedFrame with
  | Throw e => (Throw e, this)
  | NoFuel => (NoFuel, this)
  | Ok spectrum =>
  match FFT.getFrequencyBins alloc (frameSize this) (sampleRate this) with
  | Throw e => (Throw e, this)
  | NoFuel => (NoFuel, this)
  | Ok frequencies =>
  let spectralCentroid := calculateSpectralCentroid spectrum frequencies in
  let spectralSpread :=
    calculateSpectralSpread spectrum frequencies spectralCentroid in
  let '(flux, previousSpectrum') :=
    calculateSpectralFlux (previousSpectrum this) spectrum in
  let this' :=
    mk (sampleRate this) (frameSize this) (lpcAnalyzer this) previousSpectrum' in
  match flux with
  | Throw e => (Throw e, this')
  | NoFuel => (NoFuel, this')
  | Ok spectralFlux =>
  let spectralRolloff := calculateSpectralRolloff spectrum frequencies in
  match estimatePitch alloc (sampleRate this) frame with
  | Throw e => (Throw e, this')
  | NoFuel => (NoFuel, this')
  | Ok f0 =>
  let voiceQuality := detectVoiceQuality intensity zcr f0 in
  match downsample alloc frame (sampleRate this) (JS.of_Z 8000) with
  | Throw e => (Throw e, this')
  | NoFuel => (NoFuel, this')
  | Ok downsampled =>
  let lpcResult :=
    RealtimeLPCAnalyzer.analyzeFrame Math_cos Math_sin Math_log Math_log10
      (lpcAnalyzer this) downsampled in
  (Ok (mkFeatures f0 intensity voiceQuality spectralCentroid spectralSpread
         spectralFlux spectralRolloff
         (RealtimeLPCAnalyzer.formants lpcResult) zcr
         (LPC.coefficients (RealtimeLPCAnalyzer.lpc lpcResult))
         (LPC.reflectionCoefficients (RealtimeLPCAnalyzer.lpc lpcResult))
         (RealtimeLPCAnalyzer.areas lpcResult)
         (RealtimeLPCAnalyzer.logAreas lpcResult)),
   this')
  end end end end end.

End WithLibm.

(** [reset()]. *)
Definition reset (this : t) : t :=
  mk (sampleRate this) (frameSize this) (lpcAnalyzer this) None.

(** [updateParameters]: the fields given replace the stored ones. *)
Definition updateParameters (this : t) (sampleRate' : option JS.number)
    (frameSize' : option Z) (lpcOrder' : option nat) : t :=
  mk (default (sampleRate this) sampleRate')
     (default (frameSize this) frameSize')
     (match lpcOrder' with
      | Some order =>
          RealtimeLPCAnalyzer.updateParameters (lpcAnalyzer this)
            (Some order) None None None
      | None => lpcAnalyzer this
      end)
     (previousSpectrum this).

End FeatureExtractor.

(* ================================================================== *)
(** * Concrete inputs *)
(* ================================================================== *)

Module Inputs.

(** Integer-valued samples. *)
Definition samples (l : list Z) : list JS.number := map JS.of_Z l.

(** An allocator that never fails, and a window table of ones. *)
Definition alloc_ok (_ : Z) : bool := true.
Definition flat_window (n : Z) : list JS.number := replicate (Z.to_nat n) JS.one.

(** The processor the constructor builds for the sizes (2048, 256,
    128), and that processor after one block of 256 samples has been
    added. *)
Definition processor_new : AudioBufferProcessor.t JS.number :=
  AudioBufferProcessor.mk (CircularBuffer.fresh 2048) 256 128
    (flat_window 256) (replicate 256 JS.pzero).

Definition processor_256 : AudioBufferProcessor.t JS.number :=
  AudioBufferProcessor.addAudioData processor_new (replicate 256 JS.one).

(** Write three samples, read them, write three more: six samples
    written to a buffer of capacity 4. *)
Definition write_read_write : list (CircularBuffer.op JS.number) :=
  [CircularBuffer.Write (samples [1; 2; 3]);
   CircularBuffer.Read 3;
   CircularBuffer.Write (samples [4; 5; 6])].

(** The arguments at which a 4-point transform calls [Math.cos] and
    [Math.sin]: [0 * theta = -0] in both stages, and [1 * (-2 * PI / 4)]
    in the second; the value of [Math.cos] at the latter is the
    positive number 6.123233995736766e-17. *)
Definition quarter_turn : JS.number :=
  JS.mul (JS.of_Z 1) (JS.div (JS.mul (JS.neg (JS.of_Z 2)) JS.Math_PI) (JS.of_Z 4)).
Definition cos_quarter_turn : JS.number := S754_finite false 4967757600021511 (-106).

(** A pair of functions that agree with [Math.cos] and [Math.sin] at
    these arguments (and only there). *)
Definition cos_table (x : JS.number) : JS.number :=
  if SFeqb x quarter_turn then cos_quarter_turn else JS.one.
Definition sin_table (x : JS.number) : JS.number :=
  if SFeqb x quarter_turn then JS.of_Z (-1) else x.

(** The spectrum [0, i, 0, 0]. *)
Definition spectrum_i : list Complex.t :=
  [Complex.mk JS.pzero JS.pzero; Complex.mk JS.pzero JS.one;
   Complex.mk JS.pzero JS.pzero; Complex.mk JS.pzero JS.pzero].

(** The numbers 1/4 and -1/4. *)
Definition quarter : JS.number := JS.div JS.one (JS.of_Z 4).

(** A frame of 32 samples, all zero but [frame[0] = 1] and
    [frame[20] = 0.25]: its energy is 1.0625 and its autocorrelation at
    lag 20 is 0.25, below 0.3 times the energy. *)
Definition click_frame : list JS.number :=
  <[20%nat := quarter]> (<[0%nat := JS.one]> (replicate 32 JS.pzero)).

(** Write three samples and read two of them: one sample is left. *)
Definition write_read_some : list (CircularBuffer.op JS.number) :=
  [CircularBuffer.Write (samples [1; 2; 3]); CircularBuffer.Read 2].

(** Functions that can stand for [Math.cos], [Math.sin], [Math.log]
    and [Math.log10] where only their value on NaN matters: NaN on
    NaN, as ECMAScript requires, and the value of the table (or the
    argument itself) elsewhere. *)
Definition cos_or_nan (x : JS.number) : JS.number :=
  if JS.is_nan x then JS.NaN else cos_table x.
Definition sin_or_nan (x : JS.number) : JS.number :=
  if JS.is_nan x then JS.NaN else sin_table x.
Definition log_or_nan (x : JS.number) : JS.number := x.

Definition extractor_8k : FeatureExtractor.t :=
  FeatureExtractor.new (JS.of_Z 8000) 1 1.

(** A platform that cannot allocate more than 1000 samples at once, and
    one that cannot allocate anything. *)
Definition alloc_small (n : Z) : bool := n <=? 1000.
Definition alloc_none (_ : Z) : bool := false.

End Inputs.

(* ================================================================== *)
(** * Facts: the circular buffer *)
(* ================================================================== *)

Section BufferFacts.
Context {T : Type} `{Float32 T}.
Import CircularBuffer.

(** ** Index arithmetic: [%] on the indices the buffer computes *)

Lemma rem_index_range (a S : Z) : 0 <= a -> 0 < S -> 0 <= Z.rem a S < S.
Proof. intros Ha HS. apply Z.rem_bound_pos; lia. Qed.

Lemma rem_succ_small (i S : Z) : 0 <= i -> i + 1 < S -> Z.rem (i + 1) S = i + 1.
Proof. intros Hi HS. apply Z.rem_small. lia. Qed.

Lemma rem_succ_wrap (i S : Z) : 0 < S -> i + 1 = S -> Z.rem (i + 1) S = 0.
Proof. intros HS ->. apply Z.rem_same. lia. Qed.

Lemma rem_is_mod (a S : Z) : 0 <= a -> 0 < S -> Z.rem a S = a mod S.
Proof. intros Ha HS. apply Z.rem_mod_nonneg; lia. Qed.

Lemma mod_one_turn (a S : Z) :
  0 < S -> - S <= a < S -> a mod S = if a <? 0 then a + S else a.
Proof.
  intros HS Ha. destruct (Z.ltb_spec a 0) as [Hneg | Hpos].
  - rewrite <- (Z.mod_add a 1 S) by lia. rewrite Z.mod_small by lia. lia.
  - apply Z.mod_small. lia.
Qed.

(** ** The representation invariant *)

Lemma wr_length {A : Type} (l : list A) (i : Z) (x : A) :
  length (JS.wr l i x) = length l.
Proof. unfold JS.wr. destruct (i <? 0); [reflexivity | apply length_insert]. Qed.

Lemma wf_fresh (S : Z) : 0 < S -> wf S (fresh S).
Proof.
  intros HS. unfold wf, fresh; simpl. rewrite length_replicate. lia.
Qed.

Lemma wf_write_step (S : Z) (st : CircularBuffer.t T) (x : T) :
  0 < S -> wf S st -> wf S (write_step st x).
Proof.
  intros HS (Hsz & Hlen & Hw & Hr). unfold write_step.
  pose proof (rem_index_range (writeIndex st + 1) (size st)) as Hw'.
  pose proof (rem_index_range (readIndex st + 1) (size st)) as Hr'.
  destruct (_ =? _); unfold wf; simpl; rewrite wr_length; lia.
Qed.

Lemma wf_write (S : Z) (data : list T) (st : CircularBuffer.t T) :
  0 < S -> wf S st -> wf S (write st data).
Proof.
  intros HS. revert st. unfold write.
  induction data as [| x data IH]; intros st Hwf; simpl; [assumption |].
  apply IH. now apply wf_write_step.
Qed.

Lemma wf_read_step (S : Z) (st : CircularBuffer.t T) :
  0 < S -> wf S st -> wf S (fst (read_step st)).
Proof.
  intros HS (Hsz & Hlen & Hw & Hr). unfold read_step.
  pose proof (rem_index_range (readIndex st + 1) (size st)) as Hr'.
  destruct (_ && _); unfold wf; simpl; lia.
Qed.

Lemma wf_read (S : Z) (n : nat) (st : CircularBuffer.t T) :
  0 < S -> wf S st -> wf S (fst (read st n)).
Proof.
  intros HS. revert st.
  induction n as [| n IH]; intros st Hwf; simpl; [assumption |].
  pose proof (wf_read_step S st HS Hwf) as Hstep.
  destruct (read_step st) as [st1 x]. simpl in Hstep.
  specialize (IH st1 Hstep). destruct (read st1 n) as [st2 xs]. exact IH.
Qed.

Lemma wf_clear (S : Z) (st : CircularBuffer.t T) :
  0 < S -> wf S st -> wf S (clear st).
Proof.
  intros HS (Hsz & Hlen & _ & _). unfold wf, clear; simpl.
  rewrite length_replicate. lia.
Qed.

Lemma wf_run (S : Z) (ops : list (op T)) (st : CircularBuffer.t T) :
  0 < S -> wf S st -> wf S (run st ops).
Proof.
  intros HS. revert st. unfold run.
  induction ops as [| o ops IH]; intros st Hwf; simpl; [assumption |].
  apply IH. destruct o; simpl.
  - now apply wf_write.
  - now apply wf_read.
  - now apply wf_clear.
Qed.

Lemma getAvailableData_le (S : Z) (st : CircularBuffer.t T) :
  wf S st -> 0 <= getAvailableData st <= S.
Proof.
  intros (Hsz & _ & Hw & Hr). unfold getAvailableData.
  destruct (filled st); [lia |].
  destruct (Z.leb_spec (readIndex st) (writeIndex st)); lia.
Qed.

(** ** The indices of [peek] *)

Lemma peek_loop_indices (buf : list T) (S : Z) (n : nat) (i : Z) :
  0 < S -> 0 <= i < S ->
  Forall (fun j => 0 <= j < S) (map fst (peek_loop buf S n i)).
Proof.
  intros HS. revert i.
  induction n as [| n IH]; intros i Hi; simpl; constructor; [exact Hi |].
  apply IH. apply rem_index_range; lia.
Qed.

(** C10.  On a buffer of capacity [S], in any state a run of calls
    leaves it in, [peek(length, offset)] with [offset >= 0] and
    [length + offset <= S] computes only backing-store indices in
    [0, S).  The bound on the arguments is needed and [peek] does not
    check it: on a buffer of capacity at least 2, asking for
    [writeIndex + S + 1] samples makes the first index [-1]. *)
Theorem peek_indices_in_bounds (S : Z) (ops : list (op T))
    (length : nat) (offset : Z) :
  0 <= S -> 0 <= offset -> Z.of_nat length + offset <= S ->
  let st := run (fresh S) ops in
  Forall (fun i => 0 <= i < S) (peek_indices st length offset) /\
  (2 <= S ->
   head (peek_indices st (Z.to_nat (writeIndex st + S + 1)) 0) = Some (-1)).
Proof.
  intros HS0 Hoff Hlen st.
  destruct (Z.eq_dec S 0) as [-> | Hne].
  { split; [| lia]. destruct length; [constructor | lia]. }
  assert (HS : 0 < S) by lia.
  assert (Hwf : wf S st) by (apply wf_run; [exact HS | now apply wf_fresh]).
  destruct Hwf as (Hsz & Hbuf & Hw & Hr).
  split.
  - unfold peek_indices, peek_trace. rewrite Hsz.
    apply peek_loop_indices; [exact HS |].
    apply rem_index_range; lia.
  - intros HS2. unfold peek_indices, peek_trace. rewrite Hsz.
    destruct (Z.to_nat (writeIndex st + S + 1)) as [| n] eqn:Hn; [lia |].
    simpl. f_equal.
    replace (writeIndex st - Z.of_nat (Datatypes.S n) - 0 + S) with (- (1)) by lia.
    rewrite Z.rem_opp_l by lia. rewrite Z.rem_small by lia. reflexivity.
Qed.

(** ** What [write] leaves in the backing store *)

Lemma rem_succ_cases (w S : Z) :
  0 < S -> 0 <= w < S -> Z.rem (w + 1) S = if w + 1 =? S then 0 else w + 1.
Proof.
  intros HS Hw. destruct (Z.eqb_spec (w + 1) S) as [Heq | Hne].
  - now apply rem_succ_wrap.
  - apply rem_succ_small; lia.
Qed.

Lemma write_snoc (st : CircularBuffer.t T) (data : list T) (x : T) :
  write st (data ++ [x]) = write_step (write st data) x.
Proof. unfold write. now rewrite fold_left_app. Qed.

Lemma write_step_buffer (st : CircularBuffer.t T) (x : T) :
  buffer (write_step st x) = JS.wr (buffer st) (writeIndex st) x.
Proof. unfold write_step. now destruct (_ =? _). Qed.

Lemma write_step_writeIndex (st : CircularBuffer.t T) (x : T) :
  writeIndex (write_step st x) = Z.rem (writeIndex st + 1) (size st).
Proof. unfold write_step. now destruct (_ =? _). Qed.

Lemma load_wr_same (l : list T) (i : Z) (x : T) :
  0 <= i -> (Z.to_nat i < length l)%nat -> load (JS.wr l i x) i = x.
Proof.
  intros Hi Hlt. unfold load, JS.wr.
  destruct (Z.ltb_spec i 0); [lia |].
  rewrite nth_lookup, list_lookup_insert_eq by exact Hlt. reflexivity.
Qed.

Lemma load_wr_other (l : list T) (i j : Z) (x : T) :
  0 <= i -> 0 <= j -> i <> j -> load (JS.wr l i x) j = load l j.
Proof.
  intros Hi Hj Hne. unfold load, JS.wr.
  destruct (Z.ltb_spec i 0); [lia |]. destruct (Z.ltb_spec j 0); [lia |].
  rewrite !nth_lookup, list_lookup_insert_ne by lia. reflexivity.
Qed.

(** After [data] has been written, the [j]-th most recent sample sits
    [j + 1] slots behind the write cursor. *)
Lemma write_recent (S : Z) (data : list T) (st0 : CircularBuffer.t T) :
  0 < S -> wf S st0 ->
  forall j : nat, (j < length data)%nat -> Z.of_nat j < S ->
  load (buffer (write st0 data))
       ((writeIndex (write st0 data) - 1 - Z.of_nat j) mod S)
  = nth j (rev data) f32_nan.
Proof.
  intros HS Hwf0.
  induction data as [| x data IH] using rev_ind; intros j Hj HjS;
    [simpl in Hj; lia |].
  rewrite write_snoc, write_step_buffer, write_step_writeIndex.
  pose proof (wf_write S data st0 HS Hwf0) as (Hsz & Hlen & Hw & _).
  set (st1 := write st0 data) in *.
  rewrite Hsz, rem_succ_cases by lia.
  rewrite rev_app_distr. simpl rev. simpl app.
  rewrite length_app in Hj. simpl in Hj.
  destruct j as [| j'].
  - simpl nth.
    replace ((if writeIndex st1 + 1 =? S then 0 else writeIndex st1 + 1)
               - 1 - Z.of_nat 0) with
      (if writeIndex st1 + 1 =? S then -1 else writeIndex st1)
      by (destruct (Z.eqb_spec (writeIndex st1 + 1) S); lia).
    rewrite mod_one_turn
      by (destruct (Z.eqb_spec (writeIndex st1 + 1) S); lia).
    replace (if (if writeIndex st1 + 1 =? S then -1 else writeIndex st1) <? 0
             then (if writeIndex st1 + 1 =? S then -1 else writeIndex st1) + S
             else if writeIndex st1 + 1 =? S then -1 else writeIndex st1)
      with (writeIndex st1)
      by (destruct (Z.eqb_spec (writeIndex st1 + 1) S);
          [destruct (Z.ltb_spec (-1) 0) | destruct (Z.ltb_spec (writeIndex st1) 0)];
          lia).
    apply load_wr_same; lia.
  - simpl nth.
    assert (Hidx :
      ((if writeIndex st1 + 1 =? S then 0 else writeIndex st1 + 1)
         - 1 - Z.of_nat (Datatypes.S j')) mod S
      = (writeIndex st1 - 1 - Z.of_nat j') mod S).
    { destruct (Z.eqb_spec (writeIndex st1 + 1) S) as [Heq | Hne].
      - rewrite <- (Z.mod_add _ 1 S) by lia. f_equal. lia.
      - f_equal. lia. }
    rewrite Hidx.
    assert (Hrange : - S <= writeIndex st1 - 1 - Z.of_nat j' < S) by lia.
    pose proof (mod_one_turn _ S HS Hrange) as Hmod.
    rewrite load_wr_other.
    + apply IH; lia.
    + lia.
    + apply Z.mod_pos_bound; lia.
    + rewrite Hmod. destruct (Z.ltb_spec (writeIndex st1 - 1 - Z.of_nat j') 0); lia.
Qed.

(** ** When [write] fills the buffer *)

Lemma write_step_filled_mono (st : CircularBuffer.t T) (x : T) :
  filled st = true -> filled (write_step st x) = true.
Proof. intros Hf. unfold write_step. now destruct (_ =? _). Qed.

Lemma write_filled_mono (data : list T) (st : CircularBuffer.t T) :
  filled st = true -> filled (write st data) = true.
Proof.
  revert st. unfold write.
  induction data as [| x data IH]; intros st Hf; simpl; [exact Hf |].
  apply IH. now apply write_step_filled_mono.
Qed.

Lemma write_step_gap (S : Z) (st : CircularBuffer.t T) (x : T) :
  0 < S -> wf S st ->
  (gap st = 0 /\ filled (write_step st x) = true) \/
  (0 < gap st /\ gap (write_step st x) = gap st - 1).
Proof.
  intros HS (Hsz & _ & Hw & Hr). unfold gap, write_step.
  rewrite Hsz, rem_succ_cases by lia.
  assert (Hrange : - S <= readIndex st - writeIndex st - 1 < S) by lia.
  rewrite (mod_one_turn _ S HS Hrange).
  destruct (Z.eqb_spec (writeIndex st + 1) S) as [Hwrap | Hnowrap];
    destruct (Z.ltb_spec (readIndex st - writeIndex st - 1) 0) as [Hneg | Hpos].
  - destruct (Z.eqb_spec 0 (readIndex st)) as [Hhit | Hmiss]; simpl.
    + left. lia.
    + right. split; [lia |]. rewrite Z.mod_small; lia.
  - lia.
  - destruct (Z.eqb_spec (writeIndex st + 1) (readIndex st)) as [Hhit | Hmiss];
      simpl; [lia |].
    right. split; [lia |].
    rewrite mod_one_turn by lia.
    destruct (Z.ltb_spec (readIndex st - (writeIndex st + 1) - 1) 0); lia.
  - destruct (Z.eqb_spec (writeIndex st + 1) (readIndex st)) as [Hhit | Hmiss];
      simpl.
    + left. lia.
    + right. split; [lia |]. rewrite Z.mod_small; lia.
Qed.

Lemma gap_range (S : Z) (st : CircularBuffer.t T) :
  0 < S -> wf S st -> 0 <= gap st < S.
Proof.
  intros HS (Hsz & _). unfold gap. rewrite Hsz. apply Z.mod_pos_bound. lia.
Qed.

Lemma write_fills (S : Z) (data : list T) (st : CircularBuffer.t T) :
  0 < S -> wf S st -> gap st < Z.of_nat (length data) ->
  filled (write st data) = true.
Proof.
  intros HS. revert st.
  induction data as [| x data IH]; intros st Hwf Hgap.
  - pose proof (gap_range S st HS Hwf). simpl in Hgap. lia.
  - change (write st (x :: data)) with (write (write_step st x) data).
    destruct (write_step_gap S st x HS Hwf) as [[_ Hfull] | [Hpos Hdec]].
    + now apply write_filled_mono.
    + apply IH; [now apply wf_write_step |].
      rewrite Hdec. simpl length in Hgap. lia.
Qed.

(** ** What [peek] returns *)

Lemma peek_loop_values (buf : list T) (S : Z) (n : nat) (i : Z) :
  0 < S -> 0 <= i < S ->
  map snd (peek_loop buf S n i)
  = map (fun t => load buf ((i + Z.of_nat t) mod S)) (seq 0 n).
Proof.
  intros HS. revert i.
  induction n as [| n IH]; intros i Hi; [reflexivity |].
  simpl. f_equal.
  - rewrite Z.add_0_r, Z.mod_small by lia. reflexivity.
  - rewrite IH by (apply rem_index_range; lia).
    rewrite <- seq_shift, map_map. apply map_ext. intros t.
    rewrite rem_is_mod by lia. f_equal.
    rewrite Zplus_mod_idemp_l. f_equal. lia.
Qed.

Lemma peek_after_write (S : Z) (data : list T) (st0 : CircularBuffer.t T) :
  0 < S -> wf S st0 -> S <= Z.of_nat (length data) ->
  peek (write st0 data) (Z.to_nat S) 0
  = drop (length data - Z.to_nat S) data.
Proof.
  intros HS Hwf0 Hlong.
  pose proof (wf_write S data st0 HS Hwf0) as (Hsz & Hlen & Hw & _).
  unfold peek, peek_trace. rewrite Hsz, Z2Nat.id by lia.
  replace (writeIndex (write st0 data) - S - 0 + S)
    with (writeIndex (write st0 data)) by lia.
  rewrite Z.rem_small by lia.
  rewrite peek_loop_values by lia.
  apply nth_ext with (d := f32_nan) (d' := f32_nan).
  - rewrite length_map, length_seq, length_drop. lia.
  - rewrite length_map, length_seq. intros t Ht.
    rewrite nth_indep with (d' := load (buffer (write st0 data))
                                    ((writeIndex (write st0 data) + Z.of_nat 0) mod S))
      by (rewrite length_map, length_seq; exact Ht).
    rewrite (map_nth (fun t => load (buffer (write st0 data))
                                 ((writeIndex (write st0 data) + Z.of_nat t) mod S))).
    rewrite seq_nth by exact Ht. simpl Nat.add.
    replace ((writeIndex (write st0 data) + Z.of_nat t) mod S)
      with ((writeIndex (write st0 data) - 1
               - Z.of_nat (Z.to_nat S - 1 - t)) mod S).
    + rewrite (write_recent S data st0 HS Hwf0) by lia.
      rewrite rev_nth by lia.
      rewrite !nth_lookup, lookup_drop. do 2 f_equal. lia.
    + rewrite <- (Z.mod_add _ 1 S) by lia. f_equal. lia.
Qed.

(** The constructor builds the fresh buffer of the requested capacity
    whenever the allocation of that capacity succeeds. *)
Lemma new_is_fresh (alloc : Z -> bool) (S : Z) :
  JS.allocates alloc S = true -> CircularBuffer.new alloc S = Ok (fresh S).
Proof.
  intros Halloc. unfold CircularBuffer.new, sizes. cbn [try_sizes].
  rewrite Z.ltb_irrefl, Halloc. reflexivity.
Qed.

(** C9.  On a buffer of capacity [S], whatever calls of [write], [read]
    and [clear] were made, [getAvailableData()] is at most [S]; and
    once [S] or more samples are written in a row (no [read] or
    [clear] in between), the buffer is full, reports [S] available
    samples, and its store holds exactly the [S] most recent samples:
    the older ones were overwritten. *)
Theorem available_data_bounded_full_after_capacity (S : Z)
    (ops : list (op T)) :
  0 < S ->
  let st := run (fresh S) ops in
  getAvailableData st <= S /\
  forall data : list T,
    S <= Z.of_nat (length data) ->
    isFull (write st data) = true /\
    getAvailableData (write st data) = S /\
    peek (write st data) (Z.to_nat S) 0 = drop (length data - Z.to_nat S) data.
Proof.
  intros HS st.
  assert (Hwf : wf S st) by (apply wf_run; [exact HS | now apply wf_fresh]).
  split; [apply (getAvailableData_le S st Hwf) |].
  intros data Hlong.
  assert (Hfull : filled (write st data) = true).
  { apply (write_fills S); [exact HS | exact Hwf |].
    pose proof (gap_range S st HS Hwf). lia. }
  split; [exact Hfull |].
  split.
  - unfold getAvailableData. rewrite Hfull.
    apply (wf_write S data st HS Hwf).
  - now apply peek_after_write.
Qed.

(** ** Filling a fresh buffer to its capacity, then reading it *)

Lemma write_fresh_partial (S : Z) (data : list T) :
  Z.of_nat (length data) < S ->
  write (fresh S) data
  = CircularBuffer.mk
      (data ++ replicate (Z.to_nat S - length data) f32_zero)
      (Z.of_nat (length data)) 0 S false.
Proof.
  induction data as [| x data IH] using rev_ind; intros Hlen.
  - unfold fresh. simpl. now rewrite Nat.sub_0_r.
  - rewrite length_app in *. simpl length in *.
    rewrite write_snoc, IH by lia. unfold write_step. simpl.
    rewrite rem_succ_small by lia.
    destruct (Z.eqb_spec (Z.of_nat (length data) + 1) 0) as [Hz | _]; [lia |].
    f_equal; [| lia].
    unfold JS.wr. destruct (Z.ltb_spec (Z.of_nat (length data)) 0); [lia |].
    rewrite Nat2Z.id, insert_app_r_alt, Nat.sub_diag by lia.
    destruct (Z.to_nat S - length data)%nat as [| n] eqn:Hn; [lia |].
    simpl. rewrite <- app_assoc. simpl. do 3 f_equal. lia.
Qed.

Lemma write_fresh_full (S : Z) (data : list T) :
  2 <= S -> Z.of_nat (length data) = S ->
  write (fresh S) data = CircularBuffer.mk data 0 1 S true.
Proof.
  intros HS Hlen.
  destruct data as [| x data] using rev_ind; [simpl in Hlen; lia |].
  clear IHdata. rewrite length_app in Hlen. simpl length in Hlen.
  rewrite write_snoc, write_fresh_partial by lia. unfold write_step. simpl.
  rewrite rem_succ_wrap, Z.rem_small by lia. simpl.
  f_equal.
  unfold JS.wr. destruct (Z.ltb_spec (Z.of_nat (length data)) 0); [lia |].
  rewrite Nat2Z.id, insert_app_r_alt, Nat.sub_diag by lia.
  replace (Z.to_nat S - length data)%nat with 1%nat by lia. reflexivity.
Qed.

Lemma drop_load (l : list T) (r : nat) :
  (r < length l)%nat -> drop r l = load l (Z.of_nat r) :: drop (Datatypes.S r) l.
Proof.
  intros Hr. destruct (lookup_lt_is_Some_2 l r Hr) as [x Hx].
  rewrite (drop_S l x r Hx). f_equal.
  unfold load. destruct (Z.ltb_spec (Z.of_nat r) 0); [lia |].
  rewrite Nat2Z.id, nth_lookup, Hx. reflexivity.
Qed.

(** Reading from cursor [r >= 1] up to the end of the store, with the
    write cursor at 0: the samples [r ..] come out and the buffer ends
    up empty. *)
Lemma read_to_end (S : Z) (data : list T) (n : nat) :
  Z.of_nat (length data) = S ->
  forall (r : nat) (f : bool),
  (1 <= r)%nat -> (r + Datatypes.S n = length data)%nat ->
  read (CircularBuffer.mk data 0 (Z.of_nat r) S f) (Datatypes.S n)
  = (CircularBuffer.mk data 0 0 S false, drop r data).
Proof.
  intros Hlen.
  induction n as [| n IH]; intros r f Hr Hend.
  - simpl. unfold read_step. simpl.
    destruct (Z.eqb_spec (Z.of_nat r) 0) as [Hz | _]; [lia |].
    rewrite andb_false_r.
    rewrite rem_succ_wrap by lia. simpl.
    rewrite (drop_load data r) by lia.
    rewrite drop_ge by lia. reflexivity.
  - change (read ?st (Datatypes.S (Datatypes.S n)))
      with (let '(st1, x) := read_step st in
            let '(st2, xs) := read st1 (Datatypes.S n) in (st2, x :: xs)).
    unfold read_step at 1. simpl CircularBuffer.filled.
    simpl CircularBuffer.readIndex. simpl CircularBuffer.writeIndex.
    simpl CircularBuffer.size. simpl CircularBuffer.buffer.
    destruct (Z.eqb_spec (Z.of_nat r) 0) as [Hz | _]; [lia |].
    rewrite andb_false_r.
    rewrite rem_succ_small by lia.
    destruct (Z.eqb_spec (Z.of_nat r + 1) 0) as [Hz | _]; [lia |].
    replace (Z.of_nat r + 1) with (Z.of_nat (Datatypes.S r)) by lia.
    rewrite IH by lia.
    rewrite (drop_load data r) by lia. reflexivity.
Qed.

Lemma read_app (st : CircularBuffer.t T) (n m : nat) :
  read st (n + m)
  = (fst (read (fst (read st n)) m),
     snd (read st n) ++ snd (read (fst (read st n)) m)).
Proof.
  revert st. induction n as [| n IH]; intros st.
  - simpl. now destruct (read st m).
  - simpl. destruct (read_step st) as [st1 x]. rewrite IH.
    destruct (read st1 n) as [st2 xs]. simpl.
    destruct (read st2 m) as [st3 ys]. reflexivity.
Qed.

(** Capacity 1 is the one positive capacity on which the sample comes
    back. *)
Lemma read_after_write_capacity_one (x : T) :
  snd (read (write (fresh 1) [x]) 1) = [x].
Proof. reflexivity. Qed.

(** C1.  Writing [S] samples into a fresh buffer of capacity [S >= 2]
    and reading [S] samples back does not return the written sequence:
    it returns the samples from the second one on, followed by one
    zero.  The [S]-th write makes the write cursor meet the read cursor,
    and [write] then drops the first sample. *)
Theorem read_after_full_write (S : Z) (data : list T) :
  2 <= S -> Z.of_nat (length data) = S ->
  snd (read (write (fresh S) data) (Z.to_nat S)) = tail data ++ [f32_zero].
Proof.
  intros HS Hlen.
  rewrite write_fresh_full by assumption.
  replace (Z.to_nat S) with (Datatypes.S (Z.to_nat S - 2) + 1)%nat by lia.
  rewrite read_app.
  change 1 with (Z.of_nat 1).
  rewrite (read_to_end S data (Z.to_nat S - 2) Hlen 1 true) by lia.
  simpl. destruct data; reflexivity.
Qed.

End BufferFacts.

(** ** The frame producer *)

Section ProcessorFacts.
Context {T : Type} `{Float32 T}.
Import AudioBufferProcessor.

Lemma getWindowedFrames_loop_no_exit (fuel : nat) (availableData : Z) :
  forall (p : AudioBufferProcessor.t T) (frames : list (list T)),
  frameSize p <= availableData ->
  getWindowedFrames_loop fuel availableData p frames = NoFuel.
Proof.
  induction fuel as [| fuel IH]; intros p frames Hge; [reflexivity |].
  simpl. destruct (Z.leb_spec (frameSize p) availableData); [| lia].
  apply IH. exact Hge.
Qed.

Lemma getWindowedFrames_no_data (fuel : nat) (p : AudioBufferProcessor.t T) :
  CircularBuffer.getAvailableData (inputBuffer p) < frameSize p ->
  getWindowedFrames (S fuel) p = Ok (p, []).
Proof.
  intros Hlt. unfold getWindowedFrames. simpl.
  destruct (Z.leb_spec (frameSize p)
              (CircularBuffer.getAvailableData (inputBuffer p))); [lia |].
  reflexivity.
Qed.

(** C2.  When the buffer holds at least [frameSize] samples on entry,
    [getWindowedFrames()] does not return: the loop tests the number
    of samples read before the loop, which the [read(hopSize)] of the
    body does not change, so no amount of fuel reaches the [return]. *)
Theorem getWindowedFrames_never_returns (p : AudioBufferProcessor.t T) :
  frameSize p <= CircularBuffer.getAvailableData (inputBuffer p) ->
  forall fuel : nat, getWindowedFrames fuel p = NoFuel.
Proof.
  intros Hge fuel. unfold getWindowedFrames.
  now apply getWindowedFrames_loop_no_exit.
Qed.

End ProcessorFacts.

(* ================================================================== *)
(** * More facts: the circular buffer and the processor *)
(* ================================================================== *)

Section MoreBufferFacts.
Context {T : Type} `{Float32 T}.
Import CircularBuffer.

(** ** How many samples [write] makes available *)

Lemma write_step_available (S : Z) (st : CircularBuffer.t T) (x : T) :
  0 < S -> wf S st ->
  getAvailableData (write_step st x) = Z.min (getAvailableData st + 1) S.
Proof.
  intros HS (Hsz & _ & Hw & Hr). unfold getAvailableData, write_step.
  rewrite Hsz, rem_succ_cases by lia.
  destruct (filled st) eqn:Hf.
  - destruct (_ =? readIndex st); simpl; rewrite ?Hf; lia.
  - destruct (Z.eqb_spec (writeIndex st + 1) S) as [Hwrap | Hnowrap].
    + destruct (Z.eqb_spec 0 (readIndex st)) as [Hhit | Hmiss]; simpl.
      * destruct (Z.leb_spec (readIndex st) (writeIndex st)); lia.
      * destruct (Z.leb_spec (readIndex st) 0);
          destruct (Z.leb_spec (readIndex st) (writeIndex st)); lia.
    + destruct (Z.eqb_spec (writeIndex st + 1) (readIndex st)) as [Hhit | Hmiss];
        simpl.
      * destruct (Z.leb_spec (readIndex st) (writeIndex st)); lia.
      * destruct (Z.leb_spec (readIndex st) (writeIndex st + 1));
          destruct (Z.leb_spec (readIndex st) (writeIndex st)); lia.
Qed.

Lemma write_available (S : Z) (data : list T) (st : CircularBuffer.t T) :
  0 < S -> wf S st ->
  getAvailableData (write st data)
  = Z.min (getAvailableData st + Z.of_nat (length data)) S.
Proof.
  intros HS. revert st.
  induction data as [| x data IH]; intros st Hwf.
  - pose proof (getAvailableData_le S st Hwf). simpl. lia.
  - change (write st (x :: data)) with (write (write_step st x) data).
    rewrite IH by now apply wf_write_step.
    rewrite (write_step_available S) by assumption.
    pose proof (getAvailableData_le S st Hwf). simpl length. lia.
Qed.


(** ** What [peek] and [read] return, by position in the store *)

Lemma peek_values (S : Z) (st : CircularBuffer.t T) (n : nat) (offset : Z) :
  0 < S -> wf S st -> 0 <= offset -> Z.of_nat n + offset <= S ->
  peek st n offset
  = map (fun t => load (buffer st)
                    ((writeIndex st - Z.of_nat n - offset + Z.of_nat t) mod S))
        (seq 0 n).
Proof.
  intros HS (Hsz & _ & Hw & _) Hoff Hn. unfold peek, peek_trace.
  rewrite Hsz, rem_is_mod by lia.
  rewrite peek_loop_values by (try apply Z.mod_pos_bound; lia).
  apply map_ext. intros t. f_equal.
  rewrite Zplus_mod_idemp_l.
  rewrite <- (Z.mod_add (writeIndex st - Z.of_nat n - offset + Z.of_nat t) 1 S)
    by lia.
  f_equal. lia.
Qed.

(** The samples [read] can deliver before it meets the write cursor. *)
Lemma read_prefix (S : Z) (n : nat) :
  0 < S ->
  forall st : CircularBuffer.t T,
  wf S st ->
  Z.of_nat n <= (writeIndex st - readIndex st) mod S ->
  (filled st = true -> Z.of_nat n < (writeIndex st - readIndex st) mod S) ->
  read st n
  = (CircularBuffer.mk (buffer st) (writeIndex st)
       ((readIndex st + Z.of_nat n) mod S) S (filled st),
     map (fun t => load (buffer st) ((readIndex st + Z.of_nat t) mod S))
         (seq 0 n)).
Proof.
  intros HS. induction n as [| n IH]; intros st Hwf Hle Hfull.
  - destruct Hwf as (Hsz & _ & _ & Hr). simpl.
    rewrite Z.add_0_r, Z.mod_small by lia. destruct st; simpl in *.
    now subst.
  - pose proof Hwf as (Hsz & Hlen & Hw & Hr).
    assert (Hne : readIndex st <> writeIndex st).
    { intros Heq. rewrite Heq, Z.sub_diag, Z.mod_0_l in Hle by lia. lia. }
    assert (Hdist : (writeIndex st - readIndex st) mod S
                    = if writeIndex st <? readIndex st
                      then writeIndex st - readIndex st + S
                      else writeIndex st - readIndex st).
    { rewrite mod_one_turn by lia.
      destruct (Z.ltb_spec (writeIndex st - readIndex st) 0);
        destruct (Z.ltb_spec (writeIndex st) (readIndex st)); lia. }
    cbn [read]. unfold read_step.
    destruct (Z.eqb_spec (readIndex st) (writeIndex st)) as [Heq | _];
      [contradiction |].
    rewrite andb_false_r, Hsz, rem_succ_cases by lia.
    set (r1 := if readIndex st + 1 =? S then 0 else readIndex st + 1).
    assert (Hr1 : 0 <= r1 < S)
      by (subst r1; destruct (Z.eqb_spec (readIndex st + 1) S); lia).
    assert (Hfilled : (if r1 =? writeIndex st then false else filled st)
                      = filled st).
    { destruct (Z.eqb_spec r1 (writeIndex st)) as [Hhit | _]; [| reflexivity].
      destruct (filled st) eqn:Hf; [| reflexivity].
      specialize (Hfull eq_refl). exfalso. subst r1.
      destruct (Z.eqb_spec (readIndex st + 1) S);
        destruct (Z.ltb_spec (writeIndex st) (readIndex st)); lia. }
    rewrite Hfilled.
    assert (Hdist1 : (writeIndex st - r1) mod S
                     = (writeIndex st - readIndex st) mod S - 1).
    { rewrite Hdist. subst r1.
      destruct (Z.eqb_spec (readIndex st + 1) S) as [Hwrap | Hnowrap].
      - rewrite Z.sub_0_r, Z.mod_small by lia.
        destruct (Z.ltb_spec (writeIndex st) (readIndex st)); lia.
      - rewrite mod_one_turn by lia.
        destruct (Z.ltb_spec (writeIndex st) (readIndex st));
          destruct (Z.ltb_spec (writeIndex st - (readIndex st + 1)) 0); lia. }
    rewrite (IH (CircularBuffer.mk (buffer st) (writeIndex st) r1 S (filled st))).
    + cbn [buffer writeIndex readIndex filled size].
      f_equal.
      * f_equal. subst r1.
        destruct (Z.eqb_spec (readIndex st + 1) S) as [Hwrap | Hnowrap].
        -- rewrite <- (Z.mod_add (0 + Z.of_nat n) 1 S) by lia. f_equal. lia.
        -- f_equal. lia.
      * cbn [seq map]. f_equal.
        -- rewrite Z.add_0_r, Z.mod_small by lia. reflexivity.
        -- rewrite <- seq_shift, map_map. apply map_ext. intros t. f_equal.
           subst r1.
           destruct (Z.eqb_spec (readIndex st + 1) S) as [Hwrap | Hnowrap].
           ++ rewrite <- (Z.mod_add (0 + Z.of_nat t) 1 S) by lia. f_equal. lia.
           ++ f_equal. lia.
    + unfold wf. cbn [buffer writeIndex readIndex filled size]. lia.
    + cbn [writeIndex readIndex]. lia.
    + cbn [writeIndex readIndex filled]. intros Hf. specialize (Hfull Hf). lia.
Qed.

(** An empty buffer delivers zeros and stays as it is. *)
Lemma read_empty (st : CircularBuffer.t T) (n : nat) :
  filled st = false -> readIndex st = writeIndex st ->
  read st n = (st, replicate n f32_zero).
Proof.
  intros Hf Heq. induction n as [| n IH]; [reflexivity |].
  cbn [read]. unfold read_step. rewrite Hf, Heq, Z.eqb_refl. simpl andb.
  cbv iota. rewrite IH. reflexivity.
Qed.


Lemma available_nonfull (S : Z) (st : CircularBuffer.t T) :
  0 < S -> wf S st -> filled st = false ->
  getAvailableData st = (writeIndex st - readIndex st) mod S.
Proof.
  intros HS (Hsz & _ & Hw & Hr) Hf. unfold getAvailableData.
  rewrite Hf, Hsz, mod_one_turn by lia.
  destruct (Z.leb_spec (readIndex st) (writeIndex st));
    destruct (Z.ltb_spec (writeIndex st - readIndex st) 0); lia.
Qed.

Lemma take_map_seq {A : Type} (f : nat -> A) (n m : nat) :
  (n <= m)%nat -> take n (map f (seq 0 m)) = map f (seq 0 n).
Proof.
  intros Hle. rewrite firstn_map, take_seq. f_equal. f_equal. lia.
Qed.

(** On a buffer that is not full, [read] delivers the samples
    [peek] shows between the cursors, then zeros. *)
Lemma read_nonfull (S : Z) (st : CircularBuffer.t T) (n : nat) :
  0 < S -> wf S st -> filled st = false ->
  let a := Z.to_nat (getAvailableData st) in
  snd (read st n) = take n (peek st a 0) ++ replicate (n - a) f32_zero /\
  getAvailableData (fst (read st n))
  = Z.max (getAvailableData st - Z.of_nat n) 0 /\
  filled (fst (read st n)) = false.
Proof.
  intros HS Hwf Hf a.
  pose proof Hwf as (Hsz & Hlen & Hw & Hr).
  pose proof (available_nonfull S st HS Hwf Hf) as Ha.
  pose proof (Z.mod_pos_bound (writeIndex st - readIndex st) S HS) as Hc.
  assert (Hpeek : peek st a 0
                  = map (fun t => load (buffer st)
                                    ((readIndex st + Z.of_nat t) mod S))
                        (seq 0 a)).
  { rewrite (peek_values S) by (try assumption; subst a; lia).
    apply map_ext. intros t. f_equal.
    replace (writeIndex st - Z.of_nat a - 0 + Z.of_nat t)
      with (readIndex st + Z.of_nat t
            + ((writeIndex st - readIndex st) - Z.of_nat a)) by lia.
    subst a. rewrite Z2Nat.id, Ha by lia.
    rewrite <- Zplus_mod_idemp_r, Zminus_mod_idemp_r, Z.sub_diag, Z.mod_0_l,
      Z.add_0_r by lia.
    reflexivity. }
  destruct (Nat.le_gt_cases n a) as [Hle | Hgt].
  - rewrite (read_prefix S n HS st Hwf) by (rewrite ?Hf; subst a; lia || discriminate).
    cbn [fst snd]. replace (n - a)%nat with 0%nat by lia.
    rewrite Hpeek, take_map_seq, app_nil_r by exact Hle.
    rewrite Hf.
    split; [reflexivity |]. split; [| reflexivity].
    unfold getAvailableData at 1.
    cbn [filled readIndex writeIndex size].
    pose proof (Z.mod_pos_bound (readIndex st + Z.of_nat n) S HS) as Hr'.
    transitivity ((writeIndex st - (readIndex st + Z.of_nat n) mod S) mod S).
    { set (r' := (readIndex st + Z.of_nat n) mod S) in *.
      rewrite (mod_one_turn (writeIndex st - r')) by lia.
      destruct (Z.leb_spec r' (writeIndex st));
        destruct (Z.ltb_spec (writeIndex st - r') 0); lia. }
    rewrite Zminus_mod_idemp_r.
    replace (writeIndex st - (readIndex st + Z.of_nat n))
      with ((writeIndex st - readIndex st) - Z.of_nat n) by lia.
    rewrite <- Zminus_mod_idemp_l, <- Ha.
    rewrite Z.mod_small by (subst a; lia). subst a. lia.
  - assert (Hn : exists m, n = (a + m)%nat) by (exists (n - a)%nat; lia).
    destruct Hn as [m ->]. replace (a + m - a)%nat with m by lia.
    rewrite read_app.
    rewrite (read_prefix S a HS st Hwf) by (rewrite ?Hf; subst a; lia || discriminate).
    cbn [fst snd].
    assert (Hmeet : (readIndex st + Z.of_nat a) mod S = writeIndex st).
    { subst a. rewrite Z2Nat.id, Ha by lia.
      rewrite Zplus_mod_idemp_r.
      replace (readIndex st + (writeIndex st - readIndex st))
        with (writeIndex st) by lia.
      apply Z.mod_small. lia. }
    rewrite Hmeet, Hf.
    rewrite read_empty by reflexivity. cbn [fst snd].
    rewrite firstn_all2 by (rewrite Hpeek, length_map, length_seq; lia).
    rewrite Hpeek. split; [reflexivity |]. split; [| reflexivity].
    unfold getAvailableData at 1. cbn [filled readIndex writeIndex size].
    rewrite Z.leb_refl. lia.
Qed.


(** ** [peek] after [write] *)

Lemma peek_write_step (S : Z) (st : CircularBuffer.t T) (x : T) (n : nat) :
  0 < S -> wf S st -> Z.of_nat n + 1 <= S ->
  peek (write_step st x) (Datatypes.S n) 0 = peek st n 0 ++ [x].
Proof.
  intros HS Hwf Hn.
  pose proof Hwf as (Hsz & Hlen & Hw & Hr).
  rewrite (peek_values S) by (try apply wf_write_step; try assumption; lia).
  rewrite (peek_values S) by (try assumption; lia).
  rewrite seq_S, map_app, write_step_buffer, write_step_writeIndex, Hsz.
  rewrite rem_is_mod by lia.
  assert (Hidx : forall t : nat,
    ((writeIndex st + 1) mod S - Z.of_nat (Datatypes.S n) - 0 + Z.of_nat t) mod S
    = (writeIndex st - Z.of_nat n - 0 + Z.of_nat t) mod S).
  { intros t.
    replace ((writeIndex st + 1) mod S - Z.of_nat (Datatypes.S n) - 0 + Z.of_nat t)
      with ((writeIndex st + 1) mod S + (Z.of_nat t - Z.of_nat n - 1)) by lia.
    rewrite Zplus_mod_idemp_l. f_equal. lia. }
  f_equal.
  - apply map_ext_in. intros t Ht. apply in_seq in Ht. rewrite Hidx.
    apply load_wr_other; [lia | apply Z.mod_pos_bound; lia |].
    rewrite mod_one_turn by lia.
    destruct (Z.ltb_spec (writeIndex st - Z.of_nat n - 0 + Z.of_nat t) 0); lia.
  - cbn [map]. f_equal. rewrite Hidx.
    replace (writeIndex st - Z.of_nat n - 0 + Z.of_nat (0 + n))
      with (writeIndex st) by lia.
    rewrite Z.mod_small by lia. apply load_wr_same; lia.
Qed.

Lemma peek_write_app (S : Z) (data : list T) :
  0 < S ->
  forall (st : CircularBuffer.t T) (n : nat),
  wf S st -> Z.of_nat n + Z.of_nat (length data) <= S ->
  peek (write st data) (n + length data) 0 = peek st n 0 ++ data.
Proof.
  intros HS. induction data as [| x data IH]; intros st n Hwf Hn.
  - cbn [length]. rewrite Nat.add_0_r, app_nil_r. reflexivity.
  - change (write st (x :: data)) with (write (write_step st x) data).
    cbn [length] in *.
    replace (n + Datatypes.S (length data))%nat
      with (Datatypes.S n + length data)%nat by lia.
    rewrite IH by (try apply wf_write_step; try assumption; lia).
    rewrite (peek_write_step S) by (try assumption; lia).
    rewrite <- app_assoc. reflexivity.
Qed.

Lemma peek_offset_take (S : Z) (st : CircularBuffer.t T) (n : nat) (offset : Z) :
  0 < S -> wf S st -> 0 <= offset -> Z.of_nat n + offset <= S ->
  peek st n offset = take n (peek st (n + Z.to_nat offset) 0).
Proof.
  intros HS Hwf Hoff Hn.
  rewrite !(peek_values S) by (try assumption; lia).
  rewrite take_map_seq by lia. apply map_ext. intros t. do 2 f_equal. lia.
Qed.

Lemma peek_nothing (st : CircularBuffer.t T) (offset : Z) : peek st 0 offset = [].
Proof. reflexivity. Qed.

Lemma write_app (st : CircularBuffer.t T) (d1 d2 : list T) :
  write st (d1 ++ d2) = write (write st d1) d2.
Proof. unfold write. apply fold_left_app. Qed.

(** The most recent samples, whatever the state before the write. *)
Lemma peek_latest (S : Z) (st : CircularBuffer.t T) (data : list T)
    (n : nat) (offset : Z) :
  0 < S -> wf S st -> 0 <= offset ->
  Z.of_nat n + offset <= S -> Z.of_nat n + offset <= Z.of_nat (length data) ->
  peek (write st data) n offset
  = take n (drop (length data - n - Z.to_nat offset) data).
Proof.
  intros HS Hwf Hoff HnS Hnd.
  set (k := (length data - n - Z.to_nat offset)%nat).
  rewrite <- (take_drop k data) at 1. rewrite write_app.
  rewrite (peek_offset_take S)
    by (try apply wf_write; try apply wf_write; try assumption; lia).
  replace (n + Z.to_nat offset)%nat with (0 + length (drop k data))%nat
    by (rewrite length_drop; subst k; lia).
  rewrite (peek_write_app S)
    by (try apply wf_write; try assumption; rewrite ?length_drop; subst k; lia).
  reflexivity.
Qed.

(** ** First in, first out *)

Lemma write_nonfull (S : Z) (st : CircularBuffer.t T) (data : list T) :
  0 < S -> wf S st ->
  getAvailableData st + Z.of_nat (length data) < S ->
  filled (write st data) = false /\ filled st = false.
Proof.
  intros HS Hwf Hroom.
  pose proof (write_available S data st HS Hwf) as Hav.
  pose proof (getAvailableData_le S st Hwf) as Hle.
  pose proof (wf_write S data st HS Hwf) as (Hsz & _).
  split.
  - destruct (filled (write st data)) eqn:Hf; [| reflexivity].
    unfold getAvailableData at 1 in Hav. rewrite Hf in Hav. lia.
  - destruct (filled st) eqn:Hf; [| reflexivity].
    unfold getAvailableData in Hroom. rewrite Hf in Hroom.
    destruct Hwf as (Hsz0 & _). lia.
Qed.


(** ** A buffer that overflowed *)

Lemma write_step_gap_zero (S : Z) (st : CircularBuffer.t T) (x : T) :
  0 < S -> wf S st -> gap st = 0 ->
  gap (write_step st x) = 0 /\ filled (write_step st x) = true.
Proof.
  intros HS (Hsz & _ & Hw & Hr) Hgap. unfold gap in *. rewrite Hsz in Hgap.
  rewrite mod_one_turn in Hgap by lia.
  unfold write_step. rewrite Hsz, !rem_succ_cases by lia.
  destruct (Z.ltb_spec (readIndex st - writeIndex st - 1) 0).
  - destruct (Z.eqb_spec (writeIndex st + 1) S); [| lia].
    destruct (Z.eqb_spec 0 (readIndex st)); [| lia].
    cbn [readIndex writeIndex size filled]. split; [| reflexivity].
    destruct (Z.eqb_spec (readIndex st + 1) S).
    + replace S with 1 by lia. reflexivity.
    + replace (readIndex st + 1 - 0 - 1) with 0 by lia. apply Z.mod_0_l. lia.
  - destruct (Z.eqb_spec (writeIndex st + 1) S); [lia |].
    destruct (Z.eqb_spec (writeIndex st + 1) (readIndex st)); [| lia].
    cbn [readIndex writeIndex size filled]. split; [| reflexivity].
    destruct (Z.eqb_spec (readIndex st + 1) S).
    + replace (0 - (writeIndex st + 1) - 1) with (- 1 * S) by lia.
      apply Z.mod_mul. lia.
    + replace (readIndex st + 1 - (writeIndex st + 1) - 1) with 0 by lia.
      apply Z.mod_0_l. lia.
Qed.

Lemma write_gap_zero (S : Z) (data : list T) :
  0 < S ->
  forall st : CircularBuffer.t T,
  wf S st -> gap st < Z.of_nat (length data) ->
  gap (write st data) = 0 /\ filled (write st data) = true.
Proof.
  intros HS. induction data as [| x data IH]; intros st Hwf Hgap.
  - pose proof (gap_range S st HS Hwf). simpl in Hgap. lia.
  - change (write st (x :: data)) with (write (write_step st x) data).
    pose proof (wf_write_step S st x HS Hwf) as Hwf1.
    destruct (write_step_gap S st x HS Hwf) as [[Hzero _] | [Hpos Hdec]].
    + destruct (write_step_gap_zero S st x HS Hwf Hzero) as [Hg1 Hf1].
      clear IH Hgap. revert Hwf1 Hg1 Hf1. generalize (write_step st x).
      induction data as [| y data IHd]; intros st1 Hwf1 Hg1 Hf1.
      * split; assumption.
      * change (write st1 (y :: data)) with (write (write_step st1 y) data).
        destruct (write_step_gap_zero S st1 y HS Hwf1 Hg1) as [Hg2 Hf2].
        apply IHd; [now apply wf_write_step | assumption | assumption].
    + apply IH; [exact Hwf1 |]. rewrite Hdec. cbn [length] in Hgap. lia.
Qed.


(** X1.  In any state a run of calls leaves a buffer of capacity [S]
    in, [write(data)] raises [getAvailableData()] by the number of
    samples written, up to [S] and no further. *)
Theorem write_adds_available_up_to_capacity (S : Z) (ops : list (op T))
    (data : list T) :
  0 < S ->
  let st := run (fresh S) ops in
  getAvailableData (write st data)
  = Z.min (getAvailableData st + Z.of_nat (length data)) S.
Proof.
  intros HS st. apply write_available; [exact HS |].
  apply wf_run; [exact HS | now apply wf_fresh].
Qed.


(** X3.  First in, first out: when [data] fits beside the samples
    already stored (strictly below the capacity), reading everything
    after [write(data)] returns what a read before the write would
    have returned, followed by [data], and leaves the buffer empty. *)
Theorem write_then_read_is_fifo (S : Z) (ops : list (op T)) (data : list T) :
  0 < S ->
  let st := run (fresh S) ops in
  let a := Z.to_nat (getAvailableData st) in
  getAvailableData st + Z.of_nat (length data) < S ->
  snd (read (write st data) (a + length data)) = snd (read st a) ++ data /\
  getAvailableData (fst (read (write st data) (a + length data))) = 0.
Proof.
  intros HS st a Hroom.
  assert (Hwf : wf S st) by (apply wf_run; [exact HS | now apply wf_fresh]).
  pose proof (wf_write S data st HS Hwf) as Hwf'.
  pose proof (getAvailableData_le S st Hwf) as Hle.
  destruct (write_nonfull S st data HS Hwf Hroom) as [Hf' Hf].
  pose proof (write_available S data st HS Hwf) as Hav.
  rewrite Z.min_l in Hav by lia.
  destruct (read_nonfull S (write st data) (a + length data) HS Hwf' Hf')
    as (Hval' & Hleft' & _).
  destruct (read_nonfull S st a HS Hwf Hf) as (Hval & _).
  fold a in Hval. rewrite Hav in Hval', Hleft'.
  replace (Z.to_nat (getAvailableData st + Z.of_nat (length data)))
    with (a + length data)%nat in Hval' by (subst a; lia).
  rewrite Nat.sub_diag, app_nil_r in Hval', Hval.
  split.
  - rewrite Hval', Hval.
    rewrite (peek_write_app S) by (try assumption; subst a; lia).
    rewrite !firstn_all2; [reflexivity | |].
    + rewrite (peek_values S), length_map, length_seq
        by (try assumption; subst a; lia).
      lia.
    + rewrite length_app, (peek_values S), length_map, length_seq
        by (try assumption; subst a; lia).
      lia.
  - rewrite Hleft'. subst a. lia.
Qed.

(** X4.  Once [S] or more samples were written in a row, the oldest
    sample [read] returns is the second oldest of the [S] most recent
    ones; and as long as at most [S - 2] samples are read, the buffer
    keeps saying that it is full and that [S] samples are available. *)
Theorem full_buffer_keeps_reporting_capacity (S : Z) (ops : list (op T))
    (data : list T) (n : nat) :
  0 < S -> S <= Z.of_nat (length data) -> Z.of_nat n + 2 <= S ->
  let st := write (run (fresh S) ops) data in
  snd (read st n) = take n (drop (length data + 1 - Z.to_nat S) data) /\
  getAvailableData (fst (read st n)) = S /\
  isFull (fst (read st n)) = true.
Proof.
  intros HS Hlong Hn st.
  assert (Hwf0 : wf S (run (fresh S) ops))
    by (apply wf_run; [exact HS | now apply wf_fresh]).
  pose proof (wf_write S data _ HS Hwf0) as Hwf. fold st in Hwf.
  pose proof (gap_range S _ HS Hwf0) as Hgap0.
  destruct (write_gap_zero S data HS _ Hwf0 ltac:(lia)) as [Hgap Hf].
  fold st in Hgap, Hf.
  pose proof Hwf as (Hsz & Hlen & Hw & Hr).
  unfold gap in Hgap. rewrite Hsz, mod_one_turn in Hgap by lia.
  assert (Hdist : (writeIndex st - readIndex st) mod S = S - 1).
  { rewrite mod_one_turn by lia.
    destruct (Z.ltb_spec (readIndex st - writeIndex st - 1) 0);
      destruct (Z.ltb_spec (writeIndex st - readIndex st) 0); lia. }
  rewrite (read_prefix S n HS st Hwf) by lia.
  cbn [fst snd]. unfold isFull, getAvailableData.
  cbn [filled size]. rewrite Hf.
  split; [| split; reflexivity].
  assert (Hpeek : peek st (Z.to_nat S - 1) 0
                  = take (Z.to_nat S - 1)
                      (drop (length data + 1 - Z.to_nat S) data)).
  { subst st. rewrite (peek_latest S) by (try assumption; lia).
    do 2 f_equal. lia. }
  rewrite (peek_values S) in Hpeek by (try assumption; lia).
  assert (Htake : take n (drop (length data + 1 - Z.to_nat S) data)
                  = take n (take (Z.to_nat S - 1)
                              (drop (length data + 1 - Z.to_nat S) data))).
  { rewrite take_take. f_equal. lia. }
  rewrite Htake, <- Hpeek, take_map_seq by lia.
  apply map_ext. intros t. f_equal.
  replace (writeIndex st - Z.of_nat (Z.to_nat S - 1) - 0 + Z.of_nat t)
    with (readIndex st + Z.of_nat t + ((writeIndex st - readIndex st) - (S - 1)))
    by lia.
  assert (Hzero : (writeIndex st - readIndex st - (S - 1)) mod S = 0).
  { rewrite <- Zminus_mod_idemp_l, Hdist, Z.sub_diag. apply Z.mod_0_l. lia. }
  rewrite <- (Zplus_mod_idemp_r (writeIndex st - readIndex st - (S - 1))).
  rewrite Hzero, Z.add_0_r. reflexivity.
Qed.

(** X5.  [peek(n, offset)] after [write(data)] returns samples of
    [data] alone when [data] is long enough: the [n] samples that end
    [offset] samples before the last one written, whatever was
    written or read before. *)
Theorem peek_returns_latest_samples (S : Z) (ops : list (op T))
    (data : list T) (n : nat) (offset : Z) :
  0 < S -> 0 <= offset ->
  Z.of_nat n + offset <= S -> Z.of_nat n + offset <= Z.of_nat (length data) ->
  peek (write (run (fresh S) ops) data) n offset
  = take n (drop (length data - n - Z.to_nat offset) data).
Proof.
  intros HS Hoff HnS Hnd. apply (peek_latest S); try assumption.
  apply wf_run; [exact HS | now apply wf_fresh].
Qed.

Lemma run_shape (S : Z) (ops : list (op T)) :
  size (run (fresh S) ops) = S /\
  length (buffer (run (fresh S) ops)) = Z.to_nat S.
Proof.
  unfold run.
  assert (Hgen : forall st : CircularBuffer.t T,
            size st = S /\ length (buffer st) = Z.to_nat S ->
            size (fold_left step ops st) = S /\
            length (buffer (fold_left step ops st)) = Z.to_nat S).
  { induction ops as [| o ops IH]; intros st Hst; [exact Hst |].
    cbn [fold_left]. apply IH. destruct Hst as [Hsz Hlen].
    destruct o as [data | n |]; cbn [step].
    - clear IH. revert st Hsz Hlen. unfold write.
      induction data as [| x data IHd]; intros st Hsz Hlen; [now split |].
      cbn [fold_left]. apply IHd.
      + unfold write_step. now destruct (_ =? _).
      + rewrite write_step_buffer, wr_length. exact Hlen.
    - clear IH. revert st Hsz Hlen.
      induction n as [| n IHn]; intros st Hsz Hlen; [now split |].
      cbn [read].
      destruct (read_step st) as [st1 x] eqn:Hstep.
      assert (Hst1 : size st1 = S /\ length (buffer st1) = Z.to_nat S).
      { unfold read_step in Hstep.
        destruct (_ && _); injection Hstep as <- _; now split. }
      specialize (IHn st1 (proj1 Hst1) (proj2 Hst1)).
      destruct (read st1 n) as [st2 xs]. exact IHn.
    - unfold clear. cbn [size buffer]. now rewrite length_replicate. }
  apply Hgen. unfold fresh. cbn [size buffer]. now rewrite length_replicate.
Qed.

(** X6.  [clear()] puts the buffer back into the state the
    constructor left it in: what was written and read before a
    [clear()] has no effect on anything that follows. *)
Theorem clear_forgets_history (S : Z) (before after : list (op T)) :
  0 < S ->
  run (fresh S) (before ++ Clear :: after) = run (fresh S) after.
Proof.
  intros _. unfold run. rewrite fold_left_app. cbn [fold_left step].
  destruct (run_shape S before) as [Hsz Hlen]. unfold run in Hsz, Hlen.
  replace (clear (fold_left step before (fresh S))) with (@fresh T _ S);
    [reflexivity |].
  unfold clear. rewrite Hsz, Hlen. reflexivity.
Qed.

End MoreBufferFacts.

(** ** The processor: its sizes and the frames it hands out *)

Section MoreProcessorFacts.
Context {T : Type} `{Float32 T}.
Import AudioBufferProcessor.

Lemma try_sizes_range (alloc : Z -> bool) (size : Z) :
  2048 <= size ->
  match CircularBuffer.try_sizes alloc size (CircularBuffer.sizes size) with
  | Some n => 512 <= n <= size
  | None => True
  end.
Proof.
  intros Hsize. unfold CircularBuffer.sizes, CircularBuffer.try_sizes.
  repeat match goal with
         | |- context [?a <? ?b] => destruct (Z.ltb_spec a b)
         | |- context [JS.allocates alloc ?n] => destruct (JS.allocates alloc n)
         end; lia || exact I.
Qed.

(** What the constructor of the buffer does, for a request of 2048
    samples or more: it returns a fresh buffer of one of the sizes it
    tried or of 256 samples, or the allocation of 256 samples failed
    and it throws. *)
Lemma buffer_new_cases (alloc : Z -> bool) (size : Z) :
  2048 <= size ->
  (exists capacity : Z,
     CircularBuffer.new (T := T) alloc size = Ok (CircularBuffer.fresh capacity) /\
     256 <= capacity <= size) \/
  (CircularBuffer.new (T := T) alloc size = Throw RangeError /\
   JS.allocates alloc 256 = false).
Proof.
  intros Hsize. unfold CircularBuffer.new.
  pose proof (try_sizes_range alloc size Hsize) as Hrange.
  destruct (CircularBuffer.try_sizes _ _ _) as [n |].
  - left. exists n. split; [reflexivity | lia].
  - unfold new_Float32Array.
    destruct (JS.allocates alloc 256) eqn:H256; cbn [bind].
    + left. exists 256. split; [reflexivity | lia].
    + right. now split.
Qed.

(** The processor the constructor returns, when it returns. *)
Lemma new_returned (alloc : Z -> bool) (createWindow : Z -> list T)
    (bufferSize frameSize hopSize : Z) (p : AudioBufferProcessor.t T) :
  AudioBufferProcessor.new alloc createWindow bufferSize frameSize hopSize = Ok p ->
  AudioBufferProcessor.frameSize p = Z.max 256 (Z.min frameSize 4096) /\
  AudioBufferProcessor.hopSize p
  = Z.max 128 (Z.min hopSize (Z.max 256 (Z.min frameSize 4096))) /\
  exists capacity : Z,
    inputBuffer p = CircularBuffer.fresh capacity /\
    256 <= capacity <= Z.max 2048 (Z.min bufferSize 65536).
Proof.
  unfold AudioBufferProcessor.new. cbv zeta.
  destruct (buffer_new_cases alloc (Z.max 2048 (Z.min bufferSize 65536))
              ltac:(lia)) as [(capacity & -> & Hcap) | [-> _]];
    cbn [bind]; [| discriminate].
  unfold new_Float32Array.
  destruct (JS.allocates alloc _); cbn [bind]; [| discriminate].
  intros [= <-]. cbn [AudioBufferProcessor.frameSize AudioBufferProcessor.hopSize
                      inputBuffer].
  split; [reflexivity |]. split; [reflexivity |].
  exists capacity. now split.
Qed.

(** X7.  Whatever sizes the constructor is given, and whichever of
    the allocations it guards fail, the processor it returns has a
    frame size in [256, 4096], a hop size in [128, frameSize], and an
    empty input buffer whose capacity lies between 256 and the
    requested size clamped to [2048, 65536].  The constructor does not
    return when the last resort of the buffer, 256 samples, or the
    window of [frameSize] samples cannot be allocated: it throws the
    [RangeError] of that allocation, and nothing else. *)
Theorem processor_sizes_are_clamped (alloc : Z -> bool)
    (createWindow : Z -> list T) (bufferSize frameSize hopSize : Z) :
  match AudioBufferProcessor.new alloc createWindow bufferSize frameSize
          hopSize with
  | Ok p =>
      256 <= AudioBufferProcessor.frameSize p <= 4096 /\
      128 <= AudioBufferProcessor.hopSize p <= AudioBufferProcessor.frameSize p /\
      exists capacity : Z,
        inputBuffer p = CircularBuffer.fresh capacity /\
        256 <= capacity <= Z.max 2048 (Z.min bufferSize 65536) /\
        capacity <= 65536
  | Throw e =>
      e = RangeError /\
      (JS.allocates alloc 256 = false \/
       JS.allocates alloc (Z.max 256 (Z.min frameSize 4096)) = false)
  | NoFuel => False
  end.
Proof.
  destruct (AudioBufferProcessor.new alloc createWindow bufferSize frameSize
              hopSize) as [p | e |] eqn:Hnew.
  - destruct (new_returned _ _ _ _ _ _ Hnew)
      as (Hframe & Hhop & capacity & Hbuf & Hcap).
    rewrite Hframe, Hhop.
    split; [lia |]. split; [lia |].
    exists capacity. split; [exact Hbuf | lia].
  - revert Hnew. unfold AudioBufferProcessor.new. cbv zeta.
    destruct (buffer_new_cases alloc (Z.max 2048 (Z.min bufferSize 65536))
                ltac:(lia)) as [(capacity & -> & Hcap) | [-> H256]];
      cbn [bind].
    + unfold new_Float32Array.
      destruct (JS.allocates alloc _) eqn:Hwindow; cbn [bind];
        [discriminate |].
      intros [= <-]. split; [reflexivity | now right].
    + intros [= <-]. split; [reflexivity | now left].
  - revert Hnew. unfold AudioBufferProcessor.new. cbv zeta.
    destruct (buffer_new_cases alloc (Z.max 2048 (Z.min bufferSize 65536))
                ltac:(lia)) as [(capacity & -> & Hcap) | [-> H256]];
      cbn [bind]; [| discriminate].
    unfold new_Float32Array.
    destruct (JS.allocates alloc _); cbn [bind]; discriminate.
Qed.

Lemma run_inputBuffer (ops : list (AudioBufferProcessor.op T)) :
  forall p : AudioBufferProcessor.t T,
  inputBuffer (run p ops)
  = CircularBuffer.run (inputBuffer p) (map buffer_op ops) /\
  AudioBufferProcessor.frameSize (run p ops) = AudioBufferProcessor.frameSize p.
Proof.
  unfold run, CircularBuffer.run.
  induction ops as [| o ops IH]; intros p; [now split |].
  cbn [fold_left map]. destruct (IH (step p o)) as [Hbuf Hframe].
  rewrite Hbuf, Hframe. destruct o; now split.
Qed.

(** The input buffer of a processor, after any run of calls, is in a
    state its capacity admits. *)
Lemma processor_buffer_wf (alloc : Z -> bool) (createWindow : Z -> list T)
    (bufferSize frameSize hopSize : Z) (p0 : AudioBufferProcessor.t T)
    (ops : list (AudioBufferProcessor.op T)) :
  AudioBufferProcessor.new alloc createWindow bufferSize frameSize hopSize
  = Ok p0 ->
  0 < CircularBuffer.size (inputBuffer p0) /\
  CircularBuffer.size (inputBuffer (run p0 ops))
  = CircularBuffer.size (inputBuffer p0) /\
  CircularBuffer.wf (CircularBuffer.size (inputBuffer p0))
    (inputBuffer (run p0 ops)).
Proof.
  intros Hnew.
  destruct (new_returned _ _ _ _ _ _ Hnew)
    as (_ & _ & capacity & Hbuf & Hcap).
  destruct (run_inputBuffer ops p0) as [Hrun _]. rewrite Hrun, Hbuf.
  cbn [CircularBuffer.fresh CircularBuffer.size].
  assert (Hwf : CircularBuffer.wf capacity
                  (CircularBuffer.run (CircularBuffer.fresh capacity)
                     (map buffer_op ops)))
    by (apply wf_run; [lia | apply wf_fresh; lia]).
  split; [lia |]. split; [apply Hwf | exact Hwf].
Qed.

(** X8.  The display path: on a processor the constructor returned,
    when the frame size does not exceed the capacity of the input
    buffer, [getFrames()] right after [addAudioData(data)] with at
    least [frameSize] samples returns exactly one frame, the last
    [frameSize] samples of [data]. *)
Theorem getFrames_returns_latest_frame (alloc : Z -> bool)
    (createWindow : Z -> list T) (bufferSize frameSize hopSize : Z)
    (p0 : AudioBufferProcessor.t T)
    (ops : list (AudioBufferProcessor.op T)) (data : list T) :
  AudioBufferProcessor.new alloc createWindow bufferSize frameSize hopSize
  = Ok p0 ->
  let p := run p0 ops in
  AudioBufferProcessor.frameSize p <= CircularBuffer.size (inputBuffer p) ->
  AudioBufferProcessor.frameSize p <= Z.of_nat (length data) ->
  getFrames (addAudioData p data)
  = [drop (length data - Z.to_nat (AudioBufferProcessor.frameSize p)) data].
Proof.
  intros Hnew p Hfits Hlong.
  destruct (processor_buffer_wf alloc createWindow bufferSize frameSize
              hopSize p0 ops Hnew) as (Hpos & Hsize & Hwf).
  fold p in Hsize, Hwf. rewrite <- Hsize in Hwf, Hpos.
  set (S := CircularBuffer.size (inputBuffer p)) in *.
  destruct (run_inputBuffer ops p0) as [_ Hframe].
  fold p in Hframe.
  assert (Hf : 256 <= AudioBufferProcessor.frameSize p).
  { rewrite Hframe.
    destruct (new_returned _ _ _ _ _ _ Hnew) as (-> & _). lia. }
  unfold getFrames, addAudioData.
  cbn [inputBuffer AudioBufferProcessor.frameSize].
  rewrite (write_available S) by assumption.
  pose proof (getAvailableData_le S _ Hwf) as Hav.
  destruct (Z.leb_spec (AudioBufferProcessor.frameSize p)
              (Z.min (CircularBuffer.getAvailableData (inputBuffer p)
                      + Z.of_nat (length data)) S)); [| lia].
  rewrite (peek_latest S) by (try assumption; lia).
  rewrite Nat.sub_0_r, firstn_all2 by (rewrite length_drop; lia).
  reflexivity.
Qed.

(** X9.  The constructor clamps the buffer size and the frame size
    independently.  When the capacity of the processor it returned is
    smaller than the frame size, [getFrames()] never returns a frame,
    whatever is added to the processor. *)
Theorem getFrames_empty_when_frame_exceeds_capacity (alloc : Z -> bool)
    (createWindow : Z -> list T) (bufferSize frameSize hopSize : Z)
    (p0 : AudioBufferProcessor.t T)
    (ops : list (AudioBufferProcessor.op T)) :
  AudioBufferProcessor.new alloc createWindow bufferSize frameSize hopSize
  = Ok p0 ->
  CircularBuffer.size (inputBuffer p0) < AudioBufferProcessor.frameSize p0 ->
  getFrames (run p0 ops) = [].
Proof.
  intros Hnew Hsmall.
  destruct (processor_buffer_wf alloc createWindow bufferSize frameSize
              hopSize p0 ops Hnew) as (Hpos & Hsize & Hwf).
  destruct (run_inputBuffer ops p0) as [_ Hframe].
  pose proof (getAvailableData_le _ _ Hwf) as Hav.
  unfold getFrames. rewrite Hframe.
  destruct (Z.leb_spec (AudioBufferProcessor.frameSize p0)
              (CircularBuffer.getAvailableData (inputBuffer (run p0 ops))));
    [lia | reflexivity].
Qed.

End MoreProcessorFacts.

(* ================================================================== *)
(** * Facts: the transform *)
(* ================================================================== *)

(** ** The 32-bit operators on the integers the transform computes *)

Lemma wrap_small (z : Z) : - 2 ^ 31 <= z < 2 ^ 31 -> Int32.wrap z = z.
Proof.
  intros Hz. unfold Int32.wrap. rewrite Z.mod_small; lia.
Qed.

Lemma pow2_pos (k : Z) : 0 <= k -> 0 < 2 ^ k.
Proof. intros Hk. apply Z.pow_pos_nonneg; lia. Qed.

Lemma pow2_le_mono (a b : Z) : 0 <= a <= b -> 2 ^ a <= 2 ^ b.
Proof. intros Hab. apply Z.pow_le_mono_r; lia. Qed.

Lemma shl_one (stage : Z) : 0 <= stage <= 30 -> Int32.shl 1 stage = 2 ^ stage.
Proof.
  intros Hs. unfold Int32.shl.
  rewrite (wrap_small 1) by lia.
  rewrite Z.mod_small by lia.
  rewrite Z.shiftl_1_l.
  pose proof (pow2_pos stage ltac:(lia)).
  pose proof (pow2_le_mono stage 30 ltac:(lia)).
  apply wrap_small. lia.
Qed.

Lemma shl_double (r : Z) : 0 <= r < 2 ^ 30 -> Int32.shl r 1 = 2 * r.
Proof.
  intros Hr. unfold Int32.shl.
  rewrite (wrap_small r) by lia.
  change (1 mod 32) with 1.
  rewrite Z.shiftl_mul_pow2 by lia. change (2 ^ 1) with 2.
  rewrite wrap_small; lia.
Qed.

Lemma sar_half (n : Z) : - 2 ^ 31 <= n < 2 ^ 31 -> Int32.sar n 1 = n / 2.
Proof.
  intros Hn. unfold Int32.sar. rewrite wrap_small by lia.
  change (1 mod 32) with 1.
  rewrite Z.shiftr_div_pow2 by lia. reflexivity.
Qed.

Lemma and_low_bit (n : Z) : 0 <= n < 2 ^ 31 -> Int32.and n 1 = n mod 2.
Proof.
  intros Hn. unfold Int32.and. rewrite !wrap_small by lia.
  change 1 with (Z.ones 1) at 1. rewrite Z.land_ones by lia. reflexivity.
Qed.

Lemma or_double_bit (r b : Z) :
  0 <= r < 2 ^ 30 -> 0 <= b < 2 -> Int32.or (2 * r) b = 2 * r + b.
Proof.
  intros Hr Hb. unfold Int32.or. rewrite !wrap_small by lia.
  pose proof (Z.add_lor_land (2 * r) b) as Hadd.
  assert (Hland : Z.land (2 * r) b = 0).
  { assert (Hcase : b = 0 \/ b = 1) by lia. destruct Hcase as [-> | ->].
    - apply Z.land_0_r.
    - change 1 with (Z.ones 1). rewrite Z.land_ones by lia.
      change (2 ^ 1) with 2. rewrite Z.mul_comm. apply Z_mod_mult. }
  lia.
Qed.

(** ** The size check *)

Lemma isPowerOfTwo_pow2 (k : Z) :
  0 <= k <= 30 -> FFT.isPowerOfTwo (2 ^ k) = true.
Proof.
  intros Hk. unfold FFT.isPowerOfTwo.
  pose proof (pow2_pos k ltac:(lia)) as Hpos.
  pose proof (pow2_le_mono k 30 ltac:(lia)) as Hle.
  apply andb_true_intro. split; [apply Z.ltb_lt; lia |].
  apply Z.eqb_eq. unfold Int32.and. rewrite !wrap_small by lia.
  replace (2 ^ k - 1) with (Z.ones k) by (rewrite Z.ones_equiv; lia).
  rewrite Z.land_ones by lia. apply Z_mod_same_full.
Qed.

Lemma isPowerOfTwo_sound (n : Z) :
  n < 2 ^ 31 -> FFT.isPowerOfTwo n = true -> FFT.is_pow2 n.
Proof.
  intros Hn Hcheck. unfold FFT.isPowerOfTwo in Hcheck.
  apply andb_prop in Hcheck as [Hpos Hand].
  apply Z.ltb_lt in Hpos. apply Z.eqb_eq in Hand.
  unfold Int32.and in Hand. rewrite !wrap_small in Hand by lia.
  pose proof (Z.log2_spec n Hpos) as [Hlo Hhi].
  pose proof (Z.log2_nonneg n) as Hk.
  exists (Z.log2 n). split; [exact Hk |].
  destruct (Z.eq_dec n (2 ^ Z.log2 n)) as [Heq | Hne]; [exact Heq |].
  exfalso.
  assert (Hbit1 : Z.testbit n (Z.log2 n) = true) by (apply Z.bit_log2; lia).
  assert (Hlog : Z.log2 (n - 1) = Z.log2 n).
  { apply Z.log2_unique; lia. }
  assert (Hbit2 : Z.testbit (n - 1) (Z.log2 n) = true).
  { rewrite <- Hlog. apply Z.bit_log2.
    pose proof (pow2_pos (Z.log2 n) Hk). lia. }
  assert (Hbit : Z.testbit (Z.land n (n - 1)) (Z.log2 n) = true).
  { rewrite Z.land_spec, Hbit1, Hbit2. reflexivity. }
  rewrite Hand, Z.bits_0 in Hbit. discriminate.
Qed.

Lemma is_pow2_bound (n : Z) :
  FFT.is_pow2 n -> n < 2 ^ 31 -> exists k : Z, 0 <= k <= 30 /\ n = 2 ^ k.
Proof.
  intros (k & Hk & ->) Hlt. exists k. split; [| reflexivity].
  destruct (Z_le_gt_dec k 30) as [Hle | Hgt]; [lia |].
  pose proof (pow2_le_mono 31 k ltac:(lia)). lia.
Qed.

(** An integer of 32 bits whose top bit is set is read as a negative
    number by the bit operators. *)
Lemma wrap_high (z : Z) : 2 ^ 31 <= z < 2 ^ 32 -> Int32.wrap z = z - 2 ^ 32.
Proof.
  intros Hz. unfold Int32.wrap.
  replace (z + 2 ^ 31) with (z - 2 ^ 31 + 1 * 2 ^ 32) by lia.
  rewrite Z.mod_add by lia. rewrite Z.mod_small by lia. lia.
Qed.

(** Below 2^32 the size check lets powers of two through only: above
    2^31 both operands of [&] are negative, and so is the result. *)
Lemma isPowerOfTwo_sound_32 (n : Z) :
  n < 2 ^ 32 -> FFT.isPowerOfTwo n = true -> FFT.is_pow2 n.
Proof.
  intros Hn Hcheck.
  destruct (Z_lt_ge_dec n (2 ^ 31)) as [Hlow | Hhigh];
    [now apply isPowerOfTwo_sound |].
  destruct (Z.eq_dec n (2 ^ 31)) as [-> | Hne];
    [exists 31; split; [lia | reflexivity] |].
  exfalso. unfold FFT.isPowerOfTwo in Hcheck.
  apply andb_prop in Hcheck as [_ Hand]. apply Z.eqb_eq in Hand.
  unfold Int32.and in Hand. rewrite !wrap_high in Hand by lia.
  assert (Hneg : Z.land (n - 2 ^ 32) (n - 1 - 2 ^ 32) < 0)
    by (apply Z.land_neg; lia).
  lia.
Qed.

(** ** [bitReverse] stays inside the array *)

Lemma bitReverse_iter_range (n : Z) (t : nat) :
  0 <= n < 2 ^ 31 -> (t <= 30)%nat ->
  let rn := Nat.iter t FFT.bitReverse_step (0, n) in
  0 <= fst rn < 2 ^ Z.of_nat t /\ 0 <= snd rn < 2 ^ 31.
Proof.
  intros Hn. induction t as [| t IH]; intros Ht; simpl.
  - lia.
  - specialize (IH ltac:(lia)). simpl in IH.
    destruct (Nat.iter t FFT.bitReverse_step (0, n)) as [r n'].
    simpl in IH. destruct IH as [Hr Hn']. unfold FFT.bitReverse_step.
    cbv zeta. simpl fst. simpl snd.
    pose proof (pow2_le_mono (Z.of_nat t) 29 ltac:(lia)) as Hpow.
    change (2 ^ 29) with 536870912 in Hpow.
    rewrite shl_double by lia.
    rewrite and_low_bit by lia.
    pose proof (Z.mod_pos_bound n' 2 ltac:(lia)) as Hbit.
    rewrite or_double_bit by lia.
    rewrite sar_half by lia.
    replace (Z.of_nat (S t)) with (Z.of_nat t + 1) by lia.
    rewrite Z.pow_add_r by lia. change (2 ^ 1) with 2.
    pose proof (Z.div_pos n' 2 ltac:(lia) ltac:(lia)).
    pose proof (Z.div_le_upper_bound n' 2 (2 ^ 31) ltac:(lia) ltac:(lia)).
    assert (n' / 2 <= n') by (apply Z.div_le_upper_bound; lia).
    lia.
Qed.

Lemma bitReverse_range (i bits : Z) :
  0 <= bits <= 30 -> 0 <= i < 2 ^ 31 -> 0 <= FFT.bitReverse i bits < 2 ^ bits.
Proof.
  intros Hbits Hi. unfold FFT.bitReverse.
  pose proof (bitReverse_iter_range i (Z.to_nat bits) Hi ltac:(lia)) as [Hr _].
  rewrite Z2Nat.id in Hr by lia. exact Hr.
Qed.

(** ** The loops of [fft] on an array of [2 ^ bits] elements *)

Lemma for_range_inv {S : Type} (P : S -> Prop) (body : Z -> S -> outcome S)
    (n : nat) :
  forall (start : Z) (s : S),
  P s ->
  (forall i s0, start <= i < start + Z.of_nat n -> P s0 ->
     exists s1, body i s0 = Ok s1 /\ P s1) ->
  exists s', for_range n start body s = Ok s' /\ P s'.
Proof.
  induction n as [| n IH]; intros start s Hs Hbody; simpl.
  - exists s. split; [reflexivity | exact Hs].
  - destruct (Hbody start s ltac:(lia) Hs) as (s1 & -> & Hs1). simpl.
    apply IH; [exact Hs1 |].
    intros i s0 Hi Hs0. apply Hbody; [lia | exact Hs0].
Qed.

Section TransformFacts.
Variables Math_cos Math_sin : JS.number -> JS.number.

Lemma swap_step_ok (bits : Z) (i : Z) (complex : list Complex.t) :
  0 <= bits <= 30 -> Z.of_nat (length complex) = 2 ^ bits ->
  0 <= i < 2 ^ bits ->
  exists complex',
    FFT.swap_step bits i complex = Ok complex' /\
    length complex' = length complex.
Proof.
  intros Hbits Hlen Hi. unfold FFT.swap_step.
  pose proof (pow2_le_mono bits 30 ltac:(lia)) as Hpow.
  pose proof (bitReverse_range i bits Hbits ltac:(lia)) as Hj.
  destruct (i <? FFT.bitReverse i bits).
  - destruct (lookup_lt_is_Some_2 complex (Z.to_nat i) ltac:(lia)) as [ci ->].
    destruct (lookup_lt_is_Some_2 complex (Z.to_nat (FFT.bitReverse i bits))
                ltac:(lia)) as [cj ->].
    eexists. split; [reflexivity |]. now rewrite !wr_length.
  - exists complex. split; reflexivity.
Qed.

Lemma butterfly_ok (theta : JS.number) (m2 k j : Z) (complex : list Complex.t) :
  0 <= k -> 0 <= j -> 0 <= m2 ->
  k + j + m2 < Z.of_nat (length complex) ->
  exists complex',
    FFT.butterfly Math_cos Math_sin theta m2 k j complex = Ok complex' /\
    length complex' = length complex.
Proof.
  intros Hk Hj Hm2 Hin. unfold FFT.butterfly.
  destruct (Z.ltb_spec (k + j + m2) 0); [lia |].
  destruct (Z.ltb_spec (k + j) 0); [lia |]. simpl orb. cbv iota.
  destruct (lookup_lt_is_Some_2 complex (Z.to_nat (k + j + m2)) ltac:(lia))
    as [x ->].
  destruct (lookup_lt_is_Some_2 complex (Z.to_nat (k + j)) ltac:(lia))
    as [u ->].
  eexists. split; [reflexivity |]. now rewrite !wr_length.
Qed.

(** The loop over the blocks: [q] blocks of [m = 2 * m2] elements, the
    first [c] of them done. *)
Lemma k_loop_ok (N m m2 q : Z) (theta : JS.number) (fuel : nat) :
  0 < m2 -> m = 2 * m2 -> N = q * m ->
  forall (c : Z) (complex : list Complex.t),
  0 <= c <= q -> q - c < Z.of_nat fuel ->
  Z.of_nat (length complex) = N ->
  exists complex',
    FFT.k_loop Math_cos Math_sin fuel N m m2 theta (c * m) complex = Ok complex' /\
    length complex' = length complex.
Proof.
  intros Hm2 Hm HN.
  induction fuel as [| fuel IH]; intros c complex Hc Hfuel Hlen; [lia |].
  simpl. destruct (Z.ltb_spec (c * m) N) as [Hlt | Hge].
  - assert (Hcq : c < q) by nia.
    destruct (for_range_inv
                (fun a => length a = length complex)
                (FFT.butterfly Math_cos Math_sin theta m2 (c * m))
                (Z.to_nat m2) 0 complex eq_refl)
      as (complex1 & -> & Hlen1).
    { intros j a Hj Ha.
      destruct (butterfly_ok theta m2 (c * m) j a) as (a' & Ha' & Hl');
        [nia | lia | lia | rewrite Ha; nia |].
      exists a'. split; [exact Ha' | congruence]. }
    simpl.
    replace (c * m + m) with ((c + 1) * m) by lia.
    destruct (IH (c + 1) complex1) as (complex2 & Hrun & Hlen2);
      [lia | lia | lia |].
    exists complex2. split; [exact Hrun | congruence].
  - exists complex. split; reflexivity.
Qed.

Lemma stage_step_ok (bits stage : Z) (fuel : nat) (complex : list Complex.t) :
  0 <= bits <= 30 -> 1 <= stage <= bits ->
  Z.of_nat (length complex) = 2 ^ bits -> 2 ^ bits < Z.of_nat fuel ->
  exists complex',
    FFT.stage_step Math_cos Math_sin fuel (2 ^ bits) stage complex = Ok complex' /\
    length complex' = length complex.
Proof.
  intros Hbits Hstage Hlen Hfuel. unfold FFT.stage_step.
  rewrite shl_one by lia.
  pose proof (pow2_pos stage ltac:(lia)) as Hmpos.
  pose proof (pow2_le_mono stage 30 ltac:(lia)) as Hmle.
  rewrite sar_half by lia.
  assert (Hm : 2 ^ stage = 2 * 2 ^ (stage - 1)).
  { replace stage with (1 + (stage - 1)) at 1 by lia.
    rewrite Z.pow_add_r by lia. reflexivity. }
  assert (Hhalf : 2 ^ stage / 2 = 2 ^ (stage - 1)).
  { rewrite Hm, Z.mul_comm. apply Z_div_mult. lia. }
  rewrite Hhalf.
  assert (Hq : 2 ^ bits = 2 ^ (bits - stage) * 2 ^ stage).
  { rewrite <- Z.pow_add_r by lia. f_equal. lia. }
  pose proof (pow2_pos (bits - stage) ltac:(lia)) as Hqpos.
  pose proof (pow2_pos (stage - 1) ltac:(lia)) as Hm2pos.
  apply (k_loop_ok (2 ^ bits) (2 ^ stage) (2 ^ (stage - 1)) (2 ^ (bits - stage))
           _ fuel Hm2pos Hm Hq 0 complex); [lia | nia | exact Hlen].
Qed.

Lemma fft_inplace_ok (bits : Z) (fuel : nat) (complex : list Complex.t) :
  0 <= bits <= 30 ->
  Z.of_nat (length complex) = 2 ^ bits -> 2 ^ bits < Z.of_nat fuel ->
  exists complex',
    FFT.fft_inplace Math_cos Math_sin fuel complex = Ok complex' /\
    length complex' = length complex.
Proof.
  intros Hbits Hlen Hfuel. unfold FFT.fft_inplace.
  rewrite Hlen, Z.log2_pow2 by lia.
  destruct (for_range_inv (fun a => length a = length complex)
              (FFT.swap_step bits) (Z.to_nat (2 ^ bits)) 0 complex eq_refl)
    as (complex1 & -> & Hlen1).
  { intros i a Hi Ha.
    pose proof (pow2_pos bits ltac:(lia)).
    destruct (swap_step_ok bits i a Hbits) as (a' & Ha' & Hl');
      [rewrite Ha; exact Hlen | lia |].
    exists a'. split; [exact Ha' | congruence]. }
  simpl.
  destruct (for_range_inv (fun a => length a = length complex)
              (FFT.stage_step Math_cos Math_sin fuel (2 ^ bits))
              (Z.to_nat bits) 1 complex1 Hlen1)
    as (complex2 & -> & Hlen2).
  { intros stage a Hs Ha.
    destruct (stage_step_ok bits stage fuel a Hbits) as (a' & Ha' & Hl');
      [lia | rewrite Ha; exact Hlen | exact Hfuel |].
    exists a'. split; [exact Ha' | congruence]. }
  exists complex2. split; [reflexivity | exact Hlen2].
Qed.

(** C8.  What [fft] does with the length of its input.  On a length
    below 2^32 that is not a power of two it throws the size error.
    On a power of two [N] below 2^31 it returns (given more than [N]
    units of fuel) a complex array of length [N].  On a length of 2^32
    or more it throws: the size error, or the [RangeError] of
    [new Array(N)]. *)
Theorem fft_size_contract (signal : list JS.number) :
  (Z.of_nat (length signal) < 2 ^ 32 ->
   ~ FFT.is_pow2 (Z.of_nat (length signal)) ->
   forall fuel : nat,
     FFT.fft Math_cos Math_sin fuel signal = Throw InvalidSize) /\
  (Z.of_nat (length signal) < 2 ^ 31 ->
   FFT.is_pow2 (Z.of_nat (length signal)) ->
   forall fuel : nat,
     Z.of_nat (length signal) < Z.of_nat fuel ->
     exists out : list Complex.t,
       FFT.fft Math_cos Math_sin fuel signal = Ok out /\
       length out = length signal) /\
  (2 ^ 32 <= Z.of_nat (length signal) ->
   forall fuel : nat,
     FFT.fft Math_cos Math_sin fuel signal = Throw InvalidSize \/
     FFT.fft Math_cos Math_sin fuel signal = Throw RangeError).
Proof.
  split; [| split].
  - intros Hlt Hnot fuel. unfold FFT.fft.
    destruct (FFT.isPowerOfTwo (Z.of_nat (length signal))) eqn:Hcheck;
      [| reflexivity].
    exfalso. apply Hnot. now apply isPowerOfTwo_sound_32.
  - intros Hlt Hpow fuel Hfuel.
    destruct (is_pow2_bound _ Hpow Hlt) as (bits & Hbits & HN).
    unfold FFT.fft. rewrite HN, isPowerOfTwo_pow2 by exact Hbits. simpl negb.
    cbv iota.
    destruct (Z.ltb_spec (2 ^ 32 - 1) (2 ^ bits)) as [Hbig | _]; [lia |].
    destruct (fft_inplace_ok bits fuel
                (map (fun x => Complex.mk x JS.pzero) signal) ltac:(lia))
      as (out & Hrun & Hlen).
    + rewrite length_map. exact HN.
    + lia.
    + exists out. split; [exact Hrun |]. now rewrite Hlen, length_map.
  - intros Hbig fuel. unfold FFT.fft.
    destruct (FFT.isPowerOfTwo (Z.of_nat (length signal))); cbn [negb];
      [| now left].
    destruct (Z.ltb_spec (2 ^ 32 - 1) (Z.of_nat (length signal))); [| lia].
    now right.
Qed.

(** ** Past the size check nothing throws the size error *)

Lemma for_range_no_size_error {S : Type} (body : Z -> S -> outcome S) (n : nat) :
  (forall i s, body i s <> Throw InvalidSize) ->
  forall (start : Z) (s : S), for_range n start body s <> Throw InvalidSize.
Proof.
  intros Hbody. induction n as [| n IH]; intros start s; simpl; [discriminate |].
  destruct (body start s) as [s1 | e |] eqn:Hstep; simpl.
  - apply IH.
  - intros Heq. apply (Hbody start s). congruence.
  - discriminate.
Qed.

Lemma swap_step_no_size_error (bits i : Z) (complex : list Complex.t) :
  FFT.swap_step bits i complex <> Throw InvalidSize.
Proof.
  unfold FFT.swap_step. destruct (_ <? _); [| discriminate].
  destruct (_ !! _); [| discriminate]. destruct (_ !! _); discriminate.
Qed.

Lemma butterfly_no_size_error (theta : JS.number) (m2 k j : Z)
    (complex : list Complex.t) :
  FFT.butterfly Math_cos Math_sin theta m2 k j complex <> Throw InvalidSize.
Proof.
  unfold FFT.butterfly. destruct (_ || _); [discriminate |].
  destruct (_ !! _); [| discriminate]. destruct (_ !! _); discriminate.
Qed.

Lemma k_loop_no_size_error (N m m2 : Z) (theta : JS.number) (fuel : nat) :
  forall (k : Z) (complex : list Complex.t),
  FFT.k_loop Math_cos Math_sin fuel N m m2 theta k complex <> Throw InvalidSize.
Proof.
  induction fuel as [| fuel IH]; intros k complex; simpl; [discriminate |].
  destruct (_ <? _); [| discriminate].
  destruct (for_range _ _ _ _) as [c1 | e |] eqn:Hj; simpl.
  - apply IH.
  - intros Heq. injection Heq as ->.
    revert Hj. apply for_range_no_size_error. intros j a.
    apply butterfly_no_size_error.
  - discriminate.
Qed.

Lemma fft_inplace_no_size_error (fuel : nat) (complex : list Complex.t) :
  FFT.fft_inplace Math_cos Math_sin fuel complex <> Throw InvalidSize.
Proof.
  unfold FFT.fft_inplace.
  destruct (for_range _ _ _ _) as [c1 | e |] eqn:Hswap; simpl.
  - apply for_range_no_size_error. intros stage a.
    apply k_loop_no_size_error.
  - intros Heq. injection Heq as ->.
    revert Hswap. apply for_range_no_size_error. intros i a.
    apply swap_step_no_size_error.
  - discriminate.
Qed.

Lemma fft_size_error_iff (fuel : nat) (signal : list JS.number) :
  FFT.fft Math_cos Math_sin fuel signal = Throw InvalidSize <->
  FFT.isPowerOfTwo (Z.of_nat (length signal)) = false.
Proof.
  unfold FFT.fft.
  destruct (FFT.isPowerOfTwo (Z.of_nat (length signal))); cbn [negb]; split;
    intros Hx; try reflexivity; try discriminate.
  exfalso. revert Hx. destruct (_ <? _); [discriminate |].
  apply fft_inplace_no_size_error.
Qed.

End TransformFacts.

(** The length [2^32 + 1] is not a power of two, yet it passes the size
    check: [&] works on the operands modulo 2^32, where it is 1. *)
Lemma not_pow2_above_2_32 : ~ FFT.is_pow2 4294967297.
Proof.
  intros (k & Hk & Heq).
  destruct (Z_le_gt_dec k 32) as [Hle | Hgt].
  - pose proof (pow2_le_mono k 32 ltac:(lia)) as Hb.
    change (2 ^ 32) with 4294967296 in Hb. lia.
  - pose proof (pow2_le_mono 33 k ltac:(lia)) as Hb.
    change (2 ^ 33) with 8589934592 in Hb. lia.
Qed.

(** ** The transform uses [Math.cos] and [Math.sin] at the twiddle
       arguments only *)

Lemma for_range_ext {S : Type} (body body' : Z -> S -> outcome S) (n : nat) :
  forall (start : Z) (s : S),
  (forall i s0, start <= i < start + Z.of_nat n -> body i s0 = body' i s0) ->
  for_range n start body s = for_range n start body' s.
Proof.
  induction n as [| n IH]; intros start s Hext; simpl; [reflexivity |].
  rewrite <- (Hext start s) by lia.
  destruct (body start s) as [s1 | e |]; simpl; try reflexivity.
  apply IH. intros i s0 Hi. apply Hext. lia.
Qed.

Section TwoLibms.
Variables cos1 sin1 cos2 sin2 : JS.number -> JS.number.

Lemma k_loop_ext (N m m2 : Z) (theta : JS.number) (fuel : nat) :
  (forall j, 0 <= j < m2 ->
     cos1 (JS.mul (JS.of_Z j) theta) = cos2 (JS.mul (JS.of_Z j) theta) /\
     sin1 (JS.mul (JS.of_Z j) theta) = sin2 (JS.mul (JS.of_Z j) theta)) ->
  forall (k : Z) (complex : list Complex.t),
  FFT.k_loop cos1 sin1 fuel N m m2 theta k complex
  = FFT.k_loop cos2 sin2 fuel N m m2 theta k complex.
Proof.
  intros Hagree. induction fuel as [| fuel IH]; intros k complex; simpl;
    [reflexivity |].
  destruct (k <? N); [| reflexivity].
  rewrite (for_range_ext (FFT.butterfly cos1 sin1 theta m2 k)
             (FFT.butterfly cos2 sin2 theta m2 k)).
  - destruct (for_range _ _ _ _); simpl; try reflexivity. apply IH.
  - intros j a Hj. unfold FFT.butterfly.
    destruct (Hagree j ltac:(lia)) as [-> ->]. reflexivity.
Qed.

Lemma fft_inplace_ext (fuel : nat) (complex : list Complex.t) :
  FFT.agree_on_twiddles cos1 sin1 cos2 sin2 (Z.log2 (Z.of_nat (length complex))) ->
  FFT.fft_inplace cos1 sin1 fuel complex = FFT.fft_inplace cos2 sin2 fuel complex.
Proof.
  intros Hagree. unfold FFT.fft_inplace.
  destruct (for_range _ _ (FFT.swap_step _) _) as [c1 | e |]; simpl;
    try reflexivity.
  apply for_range_ext. intros stage a Hstage. unfold FFT.stage_step.
  apply k_loop_ext. intros j Hj. apply Hagree; lia.
Qed.

Lemma ifft_ext (fuel : nat) (complex : list Complex.t) :
  FFT.agree_on_twiddles cos1 sin1 cos2 sin2 (Z.log2 (Z.of_nat (length complex))) ->
  FFT.ifft cos1 sin1 fuel complex = FFT.ifft cos2 sin2 fuel complex.
Proof.
  intros Hagree. unfold FFT.ifft, FFT.fft.
  destruct (negb _); [reflexivity |].
  destruct (_ <? _); [reflexivity |].
  rewrite fft_inplace_ext; [reflexivity |].
  now rewrite !length_map.
Qed.

Lemma ifft_reference_ext (fuel : nat) (complex : list Complex.t) :
  FFT.agree_on_twiddles cos1 sin1 cos2 sin2 (Z.log2 (Z.of_nat (length complex))) ->
  FFT.ifft_reference cos1 sin1 fuel complex
  = FFT.ifft_reference cos2 sin2 fuel complex.
Proof.
  intros Hagree. unfold FFT.ifft_reference.
  destruct (negb _); [reflexivity |].
  rewrite fft_inplace_ext; [reflexivity |].
  now rewrite !length_map.
Qed.

End TwoLibms.

(** [ifft] reads the real parts of its argument only. *)
Lemma ifft_real_parts_only (Math_cos Math_sin : JS.number -> JS.number)
    (fuel : nat) (c c' : list Complex.t) :
  map Complex.real c = map Complex.real c' ->
  FFT.ifft Math_cos Math_sin fuel c = FFT.ifft Math_cos Math_sin fuel c'.
Proof.
  intros Hre. unfold FFT.ifft.
  assert (Hlen : length c = length c').
  { rewrite <- (length_map Complex.real c), Hre. apply length_map. }
  rewrite !map_map. simpl. rewrite <- !(map_map Complex.real JS.fround).
  rewrite Hre, Hlen. reflexivity.
Qed.

(** C3.  Where [ifft] leaves the reference algorithm: for every pair
    of [Math.cos] and [Math.sin] that take the values of the platform
    at the twiddle arguments of a 4-point transform, [ifft] of the
    spectrum [0, i, 0, 0] is all zeros, while the reference (the
    forward transform of the conjugated complex sequence, scaled by
    1/4, real parts) is [0, -1/4, 0, 1/4].  [ifft] hands [fft] the real
    parts of the conjugated sequence only. *)
Theorem ifft_differs_from_reference (Math_cos Math_sin : JS.number -> JS.number) :
  Math_cos JS.nzero = JS.one ->
  Math_sin JS.nzero = JS.nzero ->
  Math_cos Inputs.quarter_turn = Inputs.cos_quarter_turn ->
  Math_sin Inputs.quarter_turn = JS.of_Z (-1) ->
  FFT.ifft Math_cos Math_sin 5 Inputs.spectrum_i
    = Ok [JS.pzero; JS.pzero; JS.pzero; JS.pzero] /\
  FFT.ifft_reference Math_cos Math_sin 5 Inputs.spectrum_i
    = Ok [JS.pzero; JS.neg Inputs.quarter; JS.pzero; Inputs.quarter].
Proof.
  intros Hc0 Hs0 Hcq Hsq.
  assert (Hagree : FFT.agree_on_twiddles Math_cos Math_sin
                     Inputs.cos_table Inputs.sin_table 2).
  { intros stage j Hstage Hj.
    assert (Hcase : stage = 1 \/ stage = 2) by lia.
    destruct Hcase as [-> | ->].
    - change (Int32.sar (Int32.shl 1 1) 1) with 1 in Hj.
      assert (j = 0) as -> by lia.
      change (JS.mul (JS.of_Z 0)
                (JS.div (JS.mul (JS.neg (JS.of_Z 2)) JS.Math_PI)
                   (JS.of_Z (Int32.shl 1 1)))) with JS.nzero.
      cbv zeta. rewrite Hc0, Hs0. split; reflexivity.
    - change (Int32.sar (Int32.shl 1 2) 1) with 2 in Hj.
      assert (Hj' : j = 0 \/ j = 1) by lia.
      destruct Hj' as [-> | ->].
      + change (JS.mul (JS.of_Z 0)
                  (JS.div (JS.mul (JS.neg (JS.of_Z 2)) JS.Math_PI)
                     (JS.of_Z (Int32.shl 1 2)))) with JS.nzero.
        cbv zeta. rewrite Hc0, Hs0. split; reflexivity.
      + change (JS.mul (JS.of_Z 1)
                  (JS.div (JS.mul (JS.neg (JS.of_Z 2)) JS.Math_PI)
                     (JS.of_Z (Int32.shl 1 2)))) with Inputs.quarter_turn.
        cbv zeta. rewrite Hcq, Hsq. split; vm_compute; reflexivity. }
  rewrite (ifft_ext Math_cos Math_sin Inputs.cos_table Inputs.sin_table)
    by exact Hagree.
  rewrite (ifft_reference_ext Math_cos Math_sin Inputs.cos_table Inputs.sin_table)
    by exact Hagree.
  split; vm_compute; reflexivity.
Qed.

(** ** A transform of 2^31 samples does not return *)

Lemma for_range_last {S : Type} (body : Z -> S -> outcome S) (n : nat) :
  forall (start : Z) (s : S),
  for_range (Datatypes.S n) start body s
  = let* s' := for_range n start body s in body (start + Z.of_nat n) s'.
Proof.
  induction n as [| n IH]; intros start s.
  - simpl. rewrite Z.add_0_r. destruct (body start s); reflexivity.
  - change (for_range (Datatypes.S (Datatypes.S n)) start body s)
      with (let* s1 := body start s in
            for_range (Datatypes.S n) (start + 1) body s1).
    change (for_range (Datatypes.S n) start body s)
      with (let* s1 := body start s in for_range n (start + 1) body s1).
    destruct (body start s) as [s1 | e |]; cbn [bind]; try reflexivity.
    rewrite IH. replace (start + 1 + Z.of_nat n)
                  with (start + Z.of_nat (Datatypes.S n)) by lia.
    reflexivity.
Qed.

Section NegativeStep.
Variables Math_cos Math_sin : JS.number -> JS.number.

(** With a negative step the loop over the blocks never leaves. *)
Lemma k_loop_negative_step (N m m2 : Z) (theta : JS.number) (fuel : nat) :
  0 < N -> m < 0 -> m2 <= 0 ->
  forall (k : Z) (complex : list Complex.t),
  k <= 0 ->
  FFT.k_loop Math_cos Math_sin fuel N m m2 theta k complex = NoFuel.
Proof.
  intros HN Hm Hm2. induction fuel as [| fuel IH]; intros k complex Hk;
    [reflexivity |].
  simpl. destruct (Z.ltb_spec k N); [| lia].
  replace (Z.to_nat m2) with 0%nat by lia. simpl.
  apply IH. lia.
Qed.

(** The last stage of a transform of 2^31 samples computes its block
    size as [1 << 31], which is [-2^31]. *)
Lemma fft_no_return_at_2_31 (fuel : nat) (signal : list JS.number) :
  Z.of_nat (length signal) = 2 ^ 31 ->
  forall out : list Complex.t,
  FFT.fft Math_cos Math_sin fuel signal <> Ok out.
Proof.
  intros Hlen out. unfold FFT.fft. rewrite Hlen.
  change (FFT.isPowerOfTwo (2 ^ 31)) with true. cbn [negb].
  change (2 ^ 32 - 1 <? 2 ^ 31) with false. cbv iota.
  unfold FFT.fft_inplace. rewrite length_map, Hlen.
  change (Z.log2 (2 ^ 31)) with 31.
  destruct (for_range _ _ (FFT.swap_step 31) _) as [c1 | e |]; cbn [bind];
    [| discriminate | discriminate].
  change (Z.to_nat 31) with 31%nat.
  rewrite (for_range_last _ 30).
  destruct (for_range 30 1 _ c1) as [c2 | e |]; cbn [bind];
    [| discriminate | discriminate].
  unfold FFT.stage_step.
  rewrite k_loop_negative_step; [discriminate | reflexivity | reflexivity | | lia].
  vm_compute. discriminate.
Qed.

End NegativeStep.

(* ================================================================== *)
(** * Facts: linear prediction *)
(* ================================================================== *)

(** ** NaN in the arithmetic *)

Lemma mul_nan_l (x : JS.number) : JS.mul JS.NaN x = JS.NaN.
Proof. reflexivity. Qed.

Lemma mul_nan_r (x : JS.number) : JS.mul x JS.NaN = JS.NaN.
Proof. destruct x; reflexivity. Qed.

Lemma sub_nan_r (x : JS.number) : JS.sub x JS.NaN = JS.NaN.
Proof. destruct x; reflexivity. Qed.

Lemma div_nan_r (x : JS.number) : JS.div x JS.NaN = JS.NaN.
Proof. destruct x; reflexivity. Qed.

Lemma le_nan_l (x : JS.number) : JS.le JS.NaN x = false.
Proof. reflexivity. Qed.

(** A number that is not [<= 0] and is not NaN is positive. *)
Lemma not_le_zero_pos (x : JS.number) :
  JS.le x JS.pzero = false -> JS.is_nan x = false -> JS.lt JS.pzero x = true.
Proof. destruct x as [s | s | | s m e]; try destruct s; cbv; congruence. Qed.

(** ** Typed arrays: loads after stores *)

Lemma rd_wr_same (l : list JS.number) (i : Z) (x : JS.number) :
  0 <= i < Z.of_nat (length l) -> JS.rd (JS.wr l i x) i = x.
Proof.
  intros Hi. unfold JS.rd, JS.wr.
  destruct (Z.ltb_spec i 0); [lia |].
  rewrite nth_lookup, list_lookup_insert_eq by lia. reflexivity.
Qed.

Lemma rd_wr_other (l : list JS.number) (i j : Z) (x : JS.number) :
  i <> j -> JS.rd (JS.wr l i x) j = JS.rd l j.
Proof.
  intros Hne. unfold JS.rd, JS.wr.
  destruct (Z.ltb_spec j 0); [reflexivity |].
  destruct (Z.ltb_spec i 0); [reflexivity |].
  rewrite !nth_lookup, list_lookup_insert_ne by lia. reflexivity.
Qed.

(** A loop that stores [g j] at index [j + 1] for [j < t]. *)
Lemma store_loop_spec (g : Z -> JS.number) (t : nat) (l0 : list JS.number) :
  let l := fold_left (fun l j => JS.wr l (j + 1) (g j)) (seqZ 0 (Z.of_nat t)) l0 in
  length l = length l0 /\
  (forall j, 0 <= j < Z.of_nat t -> j + 1 < Z.of_nat (length l0) ->
     JS.rd l (j + 1) = g j) /\
  (forall x, x <= 0 \/ Z.of_nat t < x -> JS.rd l x = JS.rd l0 x).
Proof.
  induction t as [| t IH]; cbv zeta.
  - simpl. split; [reflexivity |]. split; [intros; lia | reflexivity].
  - rewrite seqZ_S, fold_left_app. simpl fold_left.
    destruct IH as (Hlen & Hin & Hout). rewrite Z.add_0_l.
    split; [now rewrite wr_length |]. split.
    + intros j Hj Hlt. destruct (Z.eq_dec j (Z.of_nat t)) as [-> | Hne].
      * apply rd_wr_same. rewrite Hlen. lia.
      * rewrite rd_wr_other by lia. apply Hin; lia.
    + intros x Hx. rewrite rd_wr_other by lia. apply Hout. lia.
Qed.

Lemma replicate_from_reads (l : list JS.number) (n : nat) (x : JS.number) :
  length l = n -> (forall i, 0 <= i < Z.of_nat n -> JS.rd l i = x) ->
  l = replicate n x.
Proof.
  intros Hlen Hrd. apply list_eq. intros i.
  destruct (Nat.lt_ge_cases i n) as [Hlt | Hge].
  - rewrite lookup_replicate_2 by exact Hlt.
    specialize (Hrd (Z.of_nat i) ltac:(lia)). unfold JS.rd in Hrd.
    destruct (Z.ltb_spec (Z.of_nat i) 0); [lia |].
    rewrite Nat2Z.id, nth_lookup in Hrd.
    destruct (lookup_lt_is_Some_2 l i ltac:(lia)) as [y Hy].
    rewrite Hy in Hrd |- *. simpl in Hrd. congruence.
  - rewrite !lookup_ge_None_2; [reflexivity | rewrite length_replicate; lia | lia].
Qed.

(** ** The recursion on an all-zero autocorrelation *)

Lemma atemp_loop_nan (a1 atemp : list JS.number) (t : nat) :
  let r := LPC.atemp_loop a1 JS.NaN (Z.of_nat t) atemp in
  length r = length atemp /\
  (forall j, 0 <= j < Z.of_nat t -> j + 1 < Z.of_nat (length atemp) ->
     JS.rd r (j + 1) = JS.NaN).
Proof.
  cbv zeta. unfold LPC.atemp_loop.
  pose proof (store_loop_spec
                (fun j => JS.fround (JS.sub (JS.rd a1 (j + 1))
                                       (JS.mul JS.NaN (JS.rd a1 (Z.of_nat t - j)))))
                t atemp) as (Hlen & Hin & _).
  split; [exact Hlen |].
  intros j Hj Hlt. rewrite (Hin j Hj Hlt).
  rewrite mul_nan_l, sub_nan_r. reflexivity.
Qed.

Lemma copy_loop_spec (atemp1 a1 : list JS.number) (t : nat) :
  let r := LPC.copy_loop atemp1 (Z.of_nat t) a1 in
  length r = length a1 /\
  (forall j, 0 <= j < Z.of_nat t -> j + 1 < Z.of_nat (length a1) ->
     JS.rd r (j + 1) = JS.rd atemp1 (j + 1)) /\
  (forall x, x <= 0 \/ Z.of_nat t < x -> JS.rd r x = JS.rd a1 x).
Proof.
  exact (store_loop_spec (fun j => JS.rd atemp1 (j + 1)) t a1).
Qed.

(** A stage whose reflection coefficient comes out as NaN turns the
    prediction error and the coefficients it updates into NaN. *)
Lemma stage_poisons (autocorr : list JS.number) (order : nat) (i : Z)
    (st : LPC.state) :
  0 <= i < Z.of_nat order ->
  LPC.nan_prefix order i st ->
  JS.fround (JS.div (JS.sub (JS.rd autocorr (i + 1))
                       (LPC.sum_loop (LPC.a st) autocorr i)) (LPC.E st)) = JS.NaN ->
  LPC.poisoned order (i + 1) (LPC.stage autocorr i st).
Proof.
  intros Hi (Hla & Hlk & Hlt & Hk & Ha) Hkv.
  destruct (Z_of_nat_complete i ltac:(lia)) as [t ->].
  unfold LPC.stage. cbv zeta. rewrite Hkv.
  rewrite (rd_wr_same (LPC.k st) (Z.of_nat t) JS.NaN) by lia.
  set (a1 := JS.wr (LPC.a st) (Z.of_nat t + 1) JS.NaN).
  assert (Hla1 : length a1 = S order) by (unfold a1; now rewrite wr_length).
  pose proof (atemp_loop_nan a1 (LPC.atemp st) t) as (Hlt1 & Hin1).
  cbv zeta in Hlt1, Hin1.
  set (atemp1 := LPC.atemp_loop a1 JS.NaN (Z.of_nat t) (LPC.atemp st)) in *.
  pose proof (copy_loop_spec atemp1 a1 t) as (Hla2 & Hin2 & Hout2).
  cbv zeta in Hla2, Hin2, Hout2.
  set (a2 := LPC.copy_loop atemp1 (Z.of_nat t) a1) in *.
  split; [| cbn [LPC.E]; now rewrite mul_nan_l, sub_nan_r, mul_nan_r].
  unfold LPC.nan_prefix. cbn [LPC.a LPC.k LPC.atemp].
  rewrite wr_length.
  split; [congruence |]. split; [exact Hlk |]. split; [congruence |]. split.
  - intros j Hj. destruct (Z.eq_dec j (Z.of_nat t)) as [-> | Hne].
    + apply rd_wr_same. lia.
    + rewrite rd_wr_other by lia. apply Hk. lia.
  - intros j Hj. destruct (Z.eq_dec j (Z.of_nat t + 1)) as [-> | Hne].
    + rewrite Hout2 by lia. unfold a1. apply rd_wr_same. lia.
    + replace j with ((j - 1) + 1) by lia.
      rewrite Hin2 by lia. apply Hin1; lia.
Qed.

Lemma stages_poisoned (autocorr : list JS.number) (order : nat) (n : nat) :
  forall (i : Z) (st : LPC.state),
  0 <= i -> i + Z.of_nat n = Z.of_nat order ->
  LPC.poisoned order i st ->
  exists st', LPC.stages autocorr n i st = (st', false) /\
              LPC.poisoned order (Z.of_nat order) st'.
Proof.
  induction n as [| n IH]; intros i st Hi Hsum Hp.
  - exists st. split; [reflexivity |].
    replace (Z.of_nat order) with i by lia. exact Hp.
  - destruct Hp as [Hpre HE].
    assert (Hstage : LPC.poisoned order (i + 1) (LPC.stage autocorr i st)).
    { apply stage_poisons; [lia | exact Hpre |].
      rewrite HE, div_nan_r. reflexivity. }
    cbn [LPC.stages]. cbv zeta.
    destruct Hstage as [Hpre' HE']. rewrite HE', le_nan_l.
    apply IH; [lia | lia | split; assumption].
Qed.

(** C5.  What [levinsonDurbin] returns on an all-zero autocorrelation
    vector, for every order [p >= 1]: the first reflection coefficient
    is 0/0, that is NaN, the test [E <= 0] is false on NaN, and all [p]
    stages run.  The prediction error, the gain and every coefficient
    are NaN, where the specification and the repository's test expect
    0. *)
Theorem levinsonDurbin_zero_autocorr (p n : nat) :
  (1 <= p)%nat -> (1 <= n)%nat ->
  LPC.levinsonDurbin (replicate n JS.pzero) p
  = LPC.mkResult (replicate p JS.NaN) (replicate p JS.NaN) JS.NaN JS.NaN.
Proof.
  intros Hp Hn. unfold LPC.levinsonDurbin, LPC.levinsonDurbin_loop.
  destruct p as [| p']; [lia |].
  set (autocorr := replicate n JS.pzero).
  set (st0 := LPC.mkState _ _ _ _).
  assert (Hr0 : JS.rd autocorr 0 = JS.pzero).
  { unfold autocorr. destruct n; [lia | reflexivity]. }
  assert (Hpre0 : LPC.nan_prefix (S p') 0 st0).
  { unfold LPC.nan_prefix, st0. simpl. rewrite !length_replicate.
    repeat split; try reflexivity; intros; lia. }
  assert (Hfirst : LPC.poisoned (S p') (0 + 1) (LPC.stage autocorr 0 st0)).
  { apply stage_poisons; [lia | exact Hpre0 |].
    unfold st0 at 2. simpl LPC.E. rewrite Hr0.
    change (LPC.sum_loop (LPC.a st0) autocorr 0) with JS.pzero.
    unfold autocorr. destruct n as [| [| n'']]; [lia | reflexivity | reflexivity]. }
  cbn [LPC.stages]. cbv zeta.
  destruct Hfirst as [Hpre1 HE1]. rewrite HE1, le_nan_l.
  destruct (stages_poisoned autocorr (S p') p' (0 + 1)
              (LPC.stage autocorr 0 st0)) as (st' & -> & Hfinal);
    [lia | lia | split; assumption |].
  simpl fst.
  destruct Hfinal as [(Hla & Hlk & _ & Hk & Ha) HE].
  rewrite HE. f_equal.
  - apply replicate_from_reads.
    + rewrite length_map, length_seqZ. lia.
    + intros i Hi. unfold JS.rd at 1.
      destruct (Z.ltb_spec i 0); [lia |].
      rewrite nth_lookup.
      change (map ?f ?l) with (f <$> l).
      rewrite list_lookup_fmap, lookup_seqZ_lt by lia. simpl.
      apply Ha. lia.
  - apply replicate_from_reads; [exact Hlk | exact Hk].
Qed.

(** ** The prediction error and the early exit *)

Lemma stages_exit_iff (autocorr : list JS.number) (n : nat) :
  forall (i : Z) (st : LPC.state),
  snd (LPC.stages autocorr (S n) i st) = true <->
  JS.le (LPC.E (fst (LPC.stages autocorr (S n) i st))) JS.pzero = true.
Proof.
  induction n as [| n IH]; intros i st.
  - cbn [LPC.stages]. cbv zeta.
    destruct (JS.le (LPC.E (LPC.stage autocorr i st)) JS.pzero) eqn:Hle;
      cbn [fst snd]; rewrite Hle; split; congruence.
  - change (LPC.stages autocorr (S (S n)) i st)
      with (let st' := LPC.stage autocorr i st in
            if JS.le (LPC.E st') JS.pzero then (st', true)
            else LPC.stages autocorr (S n) (i + 1) st').
    cbv zeta.
    destruct (JS.le (LPC.E (LPC.stage autocorr i st)) JS.pzero) eqn:Hle.
    + cbn [fst snd]. rewrite Hle. split; reflexivity.
    + apply IH.
Qed.

(** C6.  For every autocorrelation input and every order, the gain is
    the square root of the prediction error.  The prediction error is
    not always non-negative: for an order of at least 1 it is [<= 0]
    exactly when the recursion left its loop through the early exit
    (it is then the value that triggered the exit, which can be
    negative), and when all stages ran and it is a number, it is
    positive. *)
Theorem levinsonDurbin_gain_and_error (autocorr : list JS.number) (order : nat) :
  let r := LPC.levinsonDurbin autocorr order in
  let exited := snd (LPC.levinsonDurbin_loop autocorr order) in
  LPC.gain r = JS.Math_sqrt (LPC.predictionError r) /\
  ((1 <= order)%nat ->
   (exited = true <-> JS.le (LPC.predictionError r) JS.pzero = true) /\
   (exited = false -> JS.is_nan (LPC.predictionError r) = false ->
    JS.gt (LPC.predictionError r) JS.pzero = true)).
Proof.
  cbv zeta. split; [reflexivity |].
  intros Horder. destruct order as [| n]; [lia |].
  unfold LPC.levinsonDurbin, LPC.levinsonDurbin_loop. cbn [LPC.predictionError].
  set (st0 := LPC.mkState _ _ _ _).
  pose proof (stages_exit_iff autocorr n 0 st0) as Hiff.
  split; [exact Hiff |].
  intros Hexit Hnan. apply not_le_zero_pos; [| exact Hnan].
  destruct (JS.le _ _) eqn:Hle; [| reflexivity].
  destruct Hiff as [_ Hback]. specialize (Hback eq_refl). congruence.
Qed.


(** ** Comparisons and clipping *)

Lemma compare_cont_Eq_antisym (p q : positive) :
  Pos.compare_cont Eq q p = CompOpp (Pos.compare_cont Eq p q).
Proof. exact (Pos.compare_antisym p q). Qed.

(** The comparison of two numbers, read in the other direction. *)
Lemma SFcompare_antisym (x y : JS.number) :
  SFcompare y x = option_map CompOpp (SFcompare x y).
Proof.
  destruct x as [sx | sx | | sx mx ex], y as [sy | sy | | sy my ey];
    try destruct sx; try destruct sy; try reflexivity;
    cbn [SFcompare option_map];
    rewrite (Z.compare_antisym ex ey), (compare_cont_Eq_antisym mx my);
    destruct (ex ?= ey); cbn [CompOpp]; try reflexivity;
    destruct (Pos.compare_cont Eq mx my); reflexivity.
Qed.

Lemma lt_asym (x y : JS.number) : JS.lt x y = true -> JS.lt y x = false.
Proof.
  unfold JS.lt, SFltb. rewrite (SFcompare_antisym x y).
  destruct (SFcompare x y) as [[| |] |]; cbn [option_map CompOpp]; congruence.
Qed.

Lemma not_lt_ge (x y : JS.number) :
  JS.is_nan x = false -> JS.is_nan y = false ->
  JS.lt x y = false -> JS.le y x = true.
Proof.
  unfold JS.lt, JS.le, SFltb, SFleb. intros Hx Hy.
  rewrite (SFcompare_antisym x y).
  destruct (SFcompare x y) as [[| |] |] eqn:Hc; cbn [option_map CompOpp];
    try congruence.
  destruct x as [sx | sx | | sx mx ex], y as [sy | sy | | sy my ey];
    try discriminate; try destruct sx; try destruct sy; discriminate.
Qed.

(** Two numbers neither of which is below the other are equal, unless
    they are zeros or one of them is NaN. *)
Lemma finite_not_lt_eq (s : bool) (m1 m2 : positive) (e1 e2 : Z) :
  JS.lt (S754_finite s m1 e1) (S754_finite s m2 e2) = false ->
  JS.lt (S754_finite s m2 e2) (S754_finite s m1 e1) = false ->
  S754_finite s m1 e1 = S754_finite s m2 e2.
Proof.
  unfold JS.lt, SFltb. rewrite (SFcompare_antisym (S754_finite s m1 e1)).
  cbn [SFcompare]. intros H1 H2.
  destruct (e1 ?= e2) eqn:He.
  - destruct (Pos.compare_cont Eq m1 m2) eqn:Hm.
    + apply Z.compare_eq in He. apply Pos.compare_eq in Hm. congruence.
    + destruct s; cbn in H1, H2; discriminate.
    + destruct s; cbn in H1, H2; discriminate.
  - destruct s; cbn in H1, H2; discriminate.
  - destruct s; cbn in H1, H2; discriminate.
Qed.

Lemma clip_is_clipped (x : JS.number) : LPC.clip x = LPC.clipped x.
Proof.
  destruct x as [s | s | | s m e];
    [destruct s; vm_compute; reflexivity
    | destruct s; vm_compute; reflexivity
    | reflexivity
    | ].
  set (lo := JS.neg JS.lit_0_99). set (hi := JS.lit_0_99).
  set (x := S754_finite s m e).
  assert (Hmin : JS.Math_min hi x
                 = if JS.lt hi x then hi else if JS.lt x hi then x else hi)
    by reflexivity.
  assert (Hmax : forall y : JS.number, JS.is_nan y = false ->
            (forall s0, y <> S754_zero s0) ->
            JS.Math_max lo y
            = if JS.lt lo y then y else if JS.lt y lo then lo else lo).
  { intros y Hy Hnz. unfold JS.Math_max. rewrite Hy. cbn [JS.is_nan lo orb].
    destruct (JS.lt _ y); [reflexivity |]. destruct (JS.lt y _); reflexivity. }
  unfold LPC.clip, LPC.clipped, JS.gt. fold lo hi.
  change (SFltb hi x) with (JS.lt hi x). rewrite Hmin.
  destruct s.
  - (* a negative number is below 0.99 *)
    change (JS.lt hi x) with false. change (JS.lt x hi) with true. cbv iota.
    rewrite Hmax by (try reflexivity; discriminate).
    destruct (JS.lt x lo) eqn:Hlow.
    + rewrite (lt_asym x lo Hlow). reflexivity.
    + destruct (JS.lt lo x) eqn:Hlow'; [reflexivity |].
      symmetry. exact (finite_not_lt_eq true _ _ _ _ Hlow Hlow').
  - (* a positive number is above -0.99 *)
    change (JS.lt x lo) with false. cbv iota.
    destruct (JS.lt hi x) eqn:Hhigh; [reflexivity |].
    destruct (JS.lt x hi) eqn:Hhigh'.
    + rewrite Hmax by (try reflexivity; discriminate).
      change (JS.lt lo x) with true. reflexivity.
    + assert (Hx : x = hi) by exact (finite_not_lt_eq false _ _ _ _ Hhigh' Hhigh).
      rewrite Hx. reflexivity.
Qed.

Lemma clipped_range (x : JS.number) :
  JS.is_nan x = false ->
  JS.le (JS.neg JS.lit_0_99) (LPC.clipped x) = true /\
  JS.le (LPC.clipped x) JS.lit_0_99 = true.
Proof.
  intros Hx. unfold LPC.clipped, JS.gt.
  change (SFltb JS.lit_0_99 x) with (JS.lt JS.lit_0_99 x).
  destruct (JS.lt x (JS.neg JS.lit_0_99)) eqn:Hlow;
    [split; reflexivity |].
  destruct (JS.lt JS.lit_0_99 x) eqn:Hhigh;
    [split; reflexivity |].
  split; apply not_lt_ge; try assumption; reflexivity.
Qed.

(** ** The area recurrence *)

Lemma area_step_unfold (rc areas : list JS.number) (i : Z) :
  LPC.area_step rc areas i
  = JS.wr areas (i + 1)
      (LPC.area_ratio (JS.rd areas i) (LPC.clip (JS.rd rc i))).
Proof. reflexivity. Qed.

Lemma area_loop_spec (rc : list JS.number) (t : nat) :
  (t <= length rc)%nat ->
  let areas0 := JS.wr (replicate (S (length rc)) JS.pzero) 0 (JS.fround JS.one) in
  let areas := fold_left (LPC.area_step rc) (seqZ 0 (Z.of_nat t)) areas0 in
  length areas = S (length rc) /\
  JS.rd areas 0 = JS.one /\
  (forall i, 0 <= i < Z.of_nat t ->
     JS.rd areas (i + 1) = LPC.area_ratio (JS.rd areas i) (LPC.clip (JS.rd rc i))).
Proof.
  intros Ht. cbv zeta. induction t as [| t IH].
  - change (seqZ 0 (Z.of_nat 0)) with (@nil Z). cbn [fold_left].
    split; [now rewrite wr_length, length_replicate |].
    split; [reflexivity | intros; lia].
  - specialize (IH ltac:(lia)). destruct IH as (Hlen & H0 & Hrec).
    rewrite seqZ_S, fold_left_app. cbn [fold_left]. rewrite Z.add_0_l.
    set (areas := fold_left _ _ _) in *.
    rewrite area_step_unfold.
    split; [now rewrite wr_length |]. split.
    + rewrite rd_wr_other by lia. exact H0.
    + intros i Hi. destruct (Z.eq_dec i (Z.of_nat t)) as [-> | Hne].
      * rewrite rd_wr_same by lia. rewrite rd_wr_other by lia. reflexivity.
      * rewrite !rd_wr_other by lia. apply Hrec. lia.
Qed.

(** C7.  For a vector [k] of [n] reflection coefficients,
    [reflectionToArea] returns [n + 1] areas, the first is 1, and each
    next one is the previous one times [(1 - k') / (1 + k')], where
    [k'] is [Math.max(-0.99, Math.min(0.99, k[i]))] (the product is
    stored in a [Float32Array]).  When [k[i]] is a number, [k'] is
    [k[i]] clipped into [-0.99, 0.99]; when [k[i]] is NaN, [k'] is NaN,
    which lies in no interval, and the next area is NaN.  On
    coefficients that are all zero, every area is 1. *)
Theorem reflectionToArea_recurrence (k : list JS.number) :
  let area := LPC.reflectionToArea k in
  length area = S (length k) /\
  JS.rd area 0 = JS.one /\
  (forall i, 0 <= i < Z.of_nat (length k) ->
     let k_hat := LPC.clipped (JS.rd k i) in
     k_hat = LPC.clip (JS.rd k i) /\
     JS.rd area (i + 1) = LPC.area_ratio (JS.rd area i) k_hat /\
     (JS.is_nan (JS.rd k i) = false ->
      JS.le (JS.neg JS.lit_0_99) k_hat = true /\ JS.le k_hat JS.lit_0_99 = true) /\
     (JS.is_nan (JS.rd k i) = true ->
      k_hat = JS.NaN /\ JS.rd area (i + 1) = JS.NaN)) /\
  (Forall (fun x => x = JS.pzero \/ x = JS.nzero) k ->
   area = replicate (S (length k)) JS.one).
Proof.
  cbv zeta. unfold LPC.reflectionToArea.
  pose proof (area_loop_spec k (length k) (Nat.le_refl _)) as (Hlen & H0 & Hrec).
  cbv zeta in Hlen, H0, Hrec.
  set (area := fold_left _ _ _) in *.
  split; [exact Hlen |]. split; [exact H0 |]. split.
  - intros i Hi. split; [symmetry; apply clip_is_clipped |].
    rewrite <- clip_is_clipped. split; [now apply Hrec |]. split.
    + intros Hnan. rewrite clip_is_clipped. now apply clipped_range.
    + intros Hnan. rewrite Hrec by exact Hi.
      assert (Hk : JS.rd k i = JS.NaN)
        by (destruct (JS.rd k i); now try discriminate).
      rewrite Hk. split; [reflexivity |].
      change (LPC.clip JS.NaN) with JS.NaN. unfold LPC.area_ratio.
      change (JS.div (JS.sub JS.one JS.NaN) (JS.add JS.one JS.NaN)) with JS.NaN.
      now rewrite mul_nan_r.
  - intros Hzero. apply replicate_from_reads; [exact Hlen |].
    intros i Hi.
    destruct (Z_of_nat_complete i ltac:(lia)) as [t ->].
    induction t as [| t IH]; [exact H0 |].
    replace (Z.of_nat (S t)) with (Z.of_nat t + 1) by lia.
    rewrite Hrec by lia. rewrite IH by lia.
    assert (Hk : JS.rd k (Z.of_nat t) = JS.pzero \/ JS.rd k (Z.of_nat t) = JS.nzero).
    { unfold JS.rd. destruct (Z.ltb_spec (Z.of_nat t) 0); [lia |].
      rewrite Nat2Z.id.
      destruct (lookup_lt_is_Some_2 k t ltac:(lia)) as [x Hx].
      rewrite (nth_lookup_Some k t JS.NaN x Hx).
      rewrite Forall_forall in Hzero. apply Hzero.
      eapply list_elem_of_lookup_2. exact Hx. }
    destruct Hk as [-> | ->]; vm_compute; reflexivity.
Qed.

(* ================================================================== *)
(** * Facts: the pitch estimator *)
(* ================================================================== *)

Lemma lt_above_nonneg (v x : JS.number) :
  v = JS.pzero \/ JS.lt JS.pzero v = true ->
  JS.lt v x = true -> JS.lt JS.pzero x = true.
Proof.
  intros [-> | Hv] Hx; [exact Hx |].
  destruct v as [sv | sv | | sv mv ev], x as [sx | sx | | sx mx ex];
    try destruct sv; try destruct sx; cbv in Hv, Hx |- *; congruence.
Qed.

Lemma nonneg_not_lt_zero (v : JS.number) :
  v = JS.pzero \/ JS.lt JS.pzero v = true -> JS.lt v JS.pzero = false.
Proof.
  intros [-> | Hv]; [reflexivity |].
  destruct v as [sv | sv | | sv mv ev]; try destruct sv; cbv in Hv |- *;
    congruence.
Qed.

(** The running maximum of the peak search is +0 or positive. *)
Lemma peak_loop_nonneg (autocorr : list JS.number) (lags : list Z)
    (acc : JS.number * Z) :
  fst acc = JS.pzero \/ JS.lt JS.pzero (fst acc) = true ->
  let acc' := fold_left (FeatureExtractor.peak_step autocorr) lags acc in
  fst acc' = JS.pzero \/ JS.lt JS.pzero (fst acc') = true.
Proof.
  cbv zeta. revert acc.
  induction lags as [| i lags IH]; intros acc Hacc; [exact Hacc |].
  cbn [fold_left]. apply IH. unfold FeatureExtractor.peak_step, JS.gt.
  destruct (SFltb (fst acc) (JS.rd autocorr i)) eqn:Hgt; [| exact Hacc].
  right. cbn [fst]. exact (lt_above_nonneg _ _ Hacc Hgt).
Qed.

(** The first loop stores at the lags of the range only. *)
Lemma autocorr_loop_untouched (frame : list JS.number) (lags : list Z)
    (autocorr : list JS.number) (x : Z) :
  Forall (fun lag => lag <> x) lags ->
  JS.rd (fold_left
           (fun autocorr lag =>
              JS.wr autocorr lag (JS.fround (FeatureExtractor.lag_sum frame lag)))
           lags autocorr) x
  = JS.rd autocorr x.
Proof.
  revert autocorr.
  induction lags as [| lag lags IH]; intros autocorr Hne; [reflexivity |].
  apply Forall_cons in Hne as [Hlag Hrest].
  cbn [fold_left]. rewrite IH by exact Hrest. now apply rd_wr_other.
Qed.

Lemma rd_zeros (n : nat) (x : Z) :
  JS.rd (replicate n JS.pzero) x = JS.pzero \/
  JS.rd (replicate n JS.pzero) x = JS.NaN.
Proof.
  unfold JS.rd. destruct (x <? 0); [now right |].
  rewrite nth_lookup.
  destruct (replicate n JS.pzero !! Z.to_nat x) as [y |] eqn:Hy; [| now right].
  apply lookup_replicate in Hy as [-> _]. now left.
Qed.

(** ** The sign of a quotient by a positive number *)

Lemma binary_round_aux_sign (prec emax : Z) (sx : bool) (mx ex : Z)
    (lx : location) :
  match binary_round_aux prec emax sx mx ex lx with
  | S754_zero s | S754_infinity s | S754_finite s _ _ => s = sx
  | S754_nan => True
  end.
Proof.
  unfold binary_round_aux.
  destruct (shr_fexp prec emax mx ex lx) as [mrs' e'].
  destruct (shr_fexp prec emax _ e' loc_Exact) as [mrs'' e''].
  destruct (shr_m mrs''); [reflexivity | | exact I].
  destruct (_ <=? _); reflexivity.
Qed.

Lemma div_by_positive_sign (x : JS.number) (my : positive) (ey : Z) :
  match JS.div x (S754_finite false my ey) with
  | S754_zero s | S754_infinity s | S754_finite s _ _ =>
      match x with
      | S754_zero sx | S754_infinity sx | S754_finite sx _ _ => s = sx
      | S754_nan => False
      end
  | S754_nan => True
  end.
Proof.
  destruct x as [sx | sx | | sx mx ex]; try (destruct sx; reflexivity);
    [exact I |].
  unfold JS.div, SFdiv.
  destruct (SFdiv_core_binary _ _ _ _ _ _) as [[mz ez] lz].
  pose proof (binary_round_aux_sign JS.prec64 JS.emax64
                (xorb sx false) mz ez lz) as Hsign.
  rewrite xorb_false_r in *.
  destruct (binary_round_aux _ _ _ _ _ _); exact Hsign.
Qed.

Lemma Math_floor_sign (x : JS.number) (z : Z) :
  JS.Math_floor x = Some z ->
  match x with
  | S754_finite true _ _ => z < 0
  | _ => 0 <= z
  end.
Proof.
  destruct x as [s | s | | s m e]; try discriminate.
  - intros [= <-]. lia.
  - cbn [JS.Math_floor]. intros [= <-]. destruct s.
    + destruct (Z.leb_spec 0 e) as [He | He].
      * pose proof (pow2_pos e He). nia.
      * pose proof (pow2_pos (- e) ltac:(lia)) as Hp.
        apply Z.div_lt_upper_bound; [exact Hp | lia].
    + destruct (Z.leb_spec 0 e) as [He | He].
      * pose proof (pow2_pos e He). nia.
      * pose proof (pow2_pos (- e) ltac:(lia)) as Hp.
        apply Z.div_pos; lia.
Qed.

(** A sample rate whose shortest period is at least 1 is positive, and
    so is its longest period. *)
Lemma maxPeriod_nonneg (sampleRate : JS.number) (minPeriod maxPeriod : Z) :
  JS.Math_floor (JS.div sampleRate (JS.of_Z 500)) = Some minPeriod ->
  JS.Math_floor (JS.div sampleRate (JS.of_Z 50)) = Some maxPeriod ->
  1 <= minPeriod -> 0 <= maxPeriod.
Proof.
  intros Hmin Hmax Hmin1.
  change (JS.of_Z 500) with (S754_finite false 8796093022208000 (-44)) in Hmin.
  change (JS.of_Z 50) with (S754_finite false 7036874417766400 (-47)) in Hmax.
  pose proof (div_by_positive_sign sampleRate 8796093022208000 (-44)) as H500.
  pose proof (div_by_positive_sign sampleRate 7036874417766400 (-47)) as H50.
  destruct (JS.div sampleRate (S754_finite false 8796093022208000 (-44)))
    as [s1 | s1 | | s1 m1 e1]; try discriminate.
  { injection Hmin as <-. lia. }
  apply Math_floor_sign in Hmin. destruct s1; [lia |].
  destruct (JS.div sampleRate (S754_finite false 7036874417766400 (-47)))
    as [s2 | s2 | | s2 m2 e2]; try discriminate.
  { injection Hmax as <-. lia. }
  apply Math_floor_sign in Hmax. destruct s2; [| exact Hmax].
  destruct sampleRate as [s | s | | s m e]; congruence.
Qed.

(** C4.  Where the estimator leaves its specification: whenever the
    shortest period [floor(sampleRate / 500)] is at least 1,
    [estimatePitch] never returns null.  When the array of
    [floor(sampleRate / 50)] autocorrelation values can be allocated,
    it returns [sampleRate] divided by the index the peak search ends
    with; when not, it throws the [RangeError] of the allocation.  The
    threshold is read from [autocorr[0]], which the first loop (it
    starts at the shortest period) leaves at 0, so the test
    [maxValue < threshold] compares a non-negative maximum with 0, not
    with 0.3 times the energy of the frame. *)
Theorem estimatePitch_never_null (alloc : Z -> bool) (sampleRate : JS.number)
    (frame : list JS.number) (minPeriod maxPeriod : Z) :
  JS.Math_floor (JS.div sampleRate (JS.of_Z 500)) = Some minPeriod ->
  JS.Math_floor (JS.div sampleRate (JS.of_Z 50)) = Some maxPeriod ->
  1 <= minPeriod ->
  let autocorr :=
    FeatureExtractor.autocorr_loop frame minPeriod maxPeriod
      (replicate (Z.to_nat maxPeriod) JS.pzero) in
  let maxIndex := snd (FeatureExtractor.peak_loop autocorr minPeriod maxPeriod) in
  FeatureExtractor.estimatePitch alloc sampleRate frame
  = if JS.allocates alloc maxPeriod
    then Ok (Some (JS.div sampleRate (JS.of_Z maxIndex)))
    else Throw RangeError.
Proof.
  intros Hmin Hmax Hmin1.
  cbv zeta.
  unfold FeatureExtractor.estimatePitch. cbv zeta. rewrite Hmin, Hmax.
  destruct (JS.allocates alloc maxPeriod); [| reflexivity].
  unfold FeatureExtractor.estimatePitch_periods. cbv zeta.
  set (autocorr := FeatureExtractor.autocorr_loop _ _ _ _).
  assert (Hthreshold :
    JS.mul (JS.rd autocorr 0) JS.lit_0_3 = JS.pzero \/
    JS.mul (JS.rd autocorr 0) JS.lit_0_3 = JS.NaN).
  { unfold autocorr, FeatureExtractor.autocorr_loop.
    rewrite autocorr_loop_untouched.
    - destruct (rd_zeros (Z.to_nat maxPeriod) 0) as [-> | ->];
        [left | right]; reflexivity.
    - apply Forall_seqZ. intros lag Hlag. lia. }
  pose proof (peak_loop_nonneg autocorr
                (seqZ minPeriod (maxPeriod - minPeriod)) (JS.pzero, 0)
                (or_introl eq_refl)) as Hpeak.
  cbv zeta in Hpeak. fold (FeatureExtractor.peak_loop autocorr minPeriod maxPeriod) in Hpeak.
  destruct (FeatureExtractor.peak_loop autocorr minPeriod maxPeriod)
    as [maxValue maxIndex].
  cbn [fst] in Hpeak.
  assert (Hnot : JS.lt maxValue (JS.mul (JS.rd autocorr 0) JS.lit_0_3) = false).
  { destruct Hthreshold as [-> | ->].
    - now apply nonneg_not_lt_zero.
    - unfold JS.lt, SFltb. destruct maxValue; reflexivity. }
  rewrite Hnot. reflexivity.
Qed.

(* ================================================================== *)
(** * Facts: the arithmetic of numbers *)
(* ================================================================== *)

(** ** Rounding keeps a number that is not negative so *)

Lemma iter_pos_inv {A : Type} (P : A -> Prop) (f : A -> A) :
  (forall a, P a -> P (f a)) ->
  forall (n : positive) (a : A), P a -> P (SpecFloat.iter_pos f n a).
Proof.
  intros Hf. induction n as [n IH | n IH |]; intros a Ha; cbn [SpecFloat.iter_pos].
  - apply IH, IH, Hf, Ha.
  - apply IH, IH, Ha.
  - apply Hf, Ha.
Qed.

Lemma shr_1_nonneg (mrs : shr_record) : 0 <= shr_m mrs -> 0 <= shr_m (shr_1 mrs).
Proof.
  destruct mrs as [m r s]. cbn [shr_m]. intros Hm.
  destruct m as [| p | p]; [cbn; lia | | lia].
  destruct p; cbn; lia.
Qed.

Lemma shr_fexp_nonneg (prec emax m e : Z) (l : location) :
  0 <= m -> 0 <= shr_m (fst (shr_fexp prec emax m e l)).
Proof.
  intros Hm. unfold shr_fexp, shr.
  assert (H0 : 0 <= shr_m (shr_record_of_loc m l))
    by (destruct l as [| []]; exact Hm).
  destruct (fexp prec emax (Zdigits2 m + e) - e) as [| p | p]; cbn [fst];
    try exact H0.
  now apply iter_pos_inv; [apply shr_1_nonneg |].
Qed.

Lemma round_nearest_even_nonneg (m : Z) (l : location) :
  0 <= m -> 0 <= round_nearest_even m l.
Proof.
  intros Hm. unfold round_nearest_even.
  destruct l as [| []]; try destruct (Z.even m); lia.
Qed.

Lemma binary_round_aux_nonneg (prec emax mx ex : Z) (lx : location) :
  0 <= mx -> JS.nonneg (binary_round_aux prec emax false mx ex lx) = true.
Proof.
  intros Hmx. unfold binary_round_aux.
  pose proof (shr_fexp_nonneg prec emax mx ex lx Hmx) as H1.
  destruct (shr_fexp prec emax mx ex lx) as [mrs' e']. cbn [fst] in H1.
  pose proof (shr_fexp_nonneg prec emax
                (round_nearest_even (shr_m mrs') (loc_of_shr_record mrs'))
                e' loc_Exact (round_nearest_even_nonneg _ _ H1)) as H2.
  destruct (shr_fexp prec emax _ e' loc_Exact) as [mrs'' e'']. cbn [fst] in H2.
  destruct (shr_m mrs'') as [| p | p]; [reflexivity | | lia].
  destruct (_ <=? _); reflexivity.
Qed.

Lemma binary_round_nonneg (prec emax : Z) (m : positive) (e : Z) :
  JS.nonneg (binary_round prec emax false m e) = true.
Proof.
  unfold binary_round. destruct (shl_align _ _ _) as [mz ez].
  apply binary_round_aux_nonneg. lia.
Qed.

Lemma nonneg_cases (x : JS.number) :
  JS.nonneg x = true ->
  x = JS.pzero \/ x = JS.pinf \/ exists m e, x = S754_finite false m e.
Proof.
  destruct x as [[] | [] | | [] m e]; try discriminate; intros _;
    [now left | right; now left | right; right; now exists m, e].
Qed.

Lemma add_nonneg (x y : JS.number) :
  JS.nonneg x = true -> JS.nonneg y = true -> JS.nonneg (JS.add x y) = true.
Proof.
  intros Hx Hy.
  destruct (nonneg_cases x Hx) as [-> | [-> | (mx & ex & ->)]];
    destruct (nonneg_cases y Hy) as [-> | [-> | (my & ey & ->)]];
    try reflexivity.
  unfold JS.add, SFadd. cbn [cond_Zopp].
  destruct (shl_align mx ex _) as [m1 e1], (shl_align my ey _) as [m2 e2].
  cbn [fst]. cbn [Z.add binary_normalize]. apply binary_round_nonneg.
Qed.

Lemma mul_self_nonneg (x : JS.number) :
  JS.is_nan x = false -> JS.nonneg (JS.mul x x) = true.
Proof.
  destruct x as [s | s | | s m e]; try discriminate; intros _.
  - cbn. now rewrite xorb_nilpotent.
  - cbn. now rewrite xorb_nilpotent.
  - unfold JS.mul, SFmul. rewrite xorb_nilpotent.
    apply binary_round_aux_nonneg. lia.
Qed.

Lemma sqrt_nonneg (x : JS.number) :
  JS.nonneg x = true -> JS.nonneg (JS.Math_sqrt x) = true.
Proof.
  intros Hx.
  destruct (nonneg_cases x Hx) as [-> | [-> | (m & e & ->)]]; try reflexivity.
  unfold JS.Math_sqrt, SFsqrt.
  destruct (SFsqrt_core_binary _ _ _ _) as [[mz ez] lz] eqn:Hcore.
  apply binary_round_aux_nonneg.
  unfold SFsqrt_core_binary in Hcore.
  match type of Hcore with
  | (let (q, r) := Z.sqrtrem ?a in _) = _ =>
      pose proof (Z.sqrtrem_sqrt a) as Hs; destruct (Z.sqrtrem a) as [q r]
  end.
  injection Hcore as <- _ _. cbn [fst] in Hs. rewrite Hs. apply Z.sqrt_nonneg.
Qed.

Lemma div_nonneg (x : JS.number) (m : positive) (e : Z) :
  JS.nonneg x = true -> JS.nonneg (JS.div x (S754_finite false m e)) = true.
Proof.
  intros Hx.
  destruct (nonneg_cases x Hx) as [-> | [-> | (mx & ex & ->)]]; try reflexivity.
  unfold JS.div, SFdiv.
  destruct (SFdiv_core_binary _ _ _ _ _ _) as [[mz ez] lz] eqn:Hcore.
  cbn [xorb]. apply binary_round_aux_nonneg.
  unfold SFdiv_core_binary in Hcore.
  match type of Hcore with
  | (let '(q, r) := Z.div_eucl ?a ?b in _) = _ =>
      pose proof (Z_div_mod a b ltac:(lia)) as Hdm;
      assert (Ha : 0 <= a);
      [| destruct (Z.div_eucl a b) as [q r]]
  end.
  { destruct (_ - _ - _) as [| p | p]; try lia. apply Z.shiftl_nonneg. lia. }
  injection Hcore as <- _ _. destruct Hdm as [Heq Hr]. nia.
Qed.

Lemma fround_nonneg (x : JS.number) :
  JS.nonneg x = true -> JS.nonneg (JS.fround x) = true.
Proof.
  intros Hx.
  destruct (nonneg_cases x Hx) as [-> | [-> | (m & e & ->)]]; try reflexivity.
  unfold JS.fround.
  pose proof (binary_round_nonneg JS.prec32 JS.emax32 m e) as H32.
  destruct (binary_round JS.prec32 JS.emax32 false m e) as [s | s | | s m' e'];
    try exact H32.
  destruct s; [discriminate |]. apply binary_round_nonneg.
Qed.


(** ** Integers as numbers *)

Lemma digits2_pos_bound (p : positive) :
  forall k : Z, Z.pos p < 2 ^ k -> Z.pos (digits2_pos p) <= k.
Proof.
  induction p as [p IH | p IH |]; intros k Hk;
    (destruct (Z_le_gt_dec k 0) as [Hk0 | Hk0];
     [assert (2 ^ k <= 1)
        by (destruct (Z.eq_dec k 0) as [-> | ?];
            [simpl; lia | rewrite Z.pow_neg_r by lia; lia]); lia |]).
  - cbn [digits2_pos]. specialize (IH (k - 1)).
    replace k with (k - 1 + 1) in Hk by lia.
    rewrite Z.pow_add_r, Z.pow_1_r in Hk by lia. lia.
  - cbn [digits2_pos]. specialize (IH (k - 1)).
    replace k with (k - 1 + 1) in Hk by lia.
    rewrite Z.pow_add_r, Z.pow_1_r in Hk by lia. lia.
  - cbn [digits2_pos]. lia.
Qed.

Lemma digits2_pos_shift (p k : positive) :
  Z.pos (digits2_pos (Pos.iter xO p k)) = Z.pos (digits2_pos p) + Z.pos k.
Proof.
  induction k as [| k IH] using Pos.peano_ind.
  - cbn [Pos.iter digits2_pos]. lia.
  - rewrite Pos.iter_succ. cbn [digits2_pos]. lia.
Qed.

Lemma binary_round_aux_exact (prec emax : Z) (s : bool) (m : positive) (e : Z) :
  fexp prec emax (Z.pos (digits2_pos m) + e) = e -> e <= emax - prec ->
  binary_round_aux prec emax s (Z.pos m) e loc_Exact = S754_finite s m e.
Proof.
  intros Hfexp He. unfold binary_round_aux, shr_fexp.
  cbn [Zdigits2 shr_record_of_loc]. rewrite Hfexp, Z.sub_diag.
  cbn [shr shr_m loc_of_shr_record round_nearest_even Zdigits2 shr_record_of_loc].
  rewrite Hfexp, Z.sub_diag. cbn [shr shr_m].
  destruct (Z.leb_spec e (emax - prec)); [reflexivity | lia].
Qed.

(** A positive integer below 2^53 is a positive finite number. *)
Lemma of_Z_finite (n : Z) :
  1 <= n < 2 ^ 53 -> exists m e, JS.of_Z n = S754_finite false m e.
Proof.
  intros Hn. destruct n as [| p | p]; try lia.
  unfold JS.of_Z. cbn [binary_normalize]. unfold binary_round.
  pose proof (digits2_pos_bound p 53 ltac:(lia)) as Hd.
  assert (Hfexp : fexp JS.prec64 JS.emax64 (Z.pos (digits2_pos p) + 0)
                  = Z.pos (digits2_pos p) - 53).
  { unfold fexp, emin, JS.prec64, JS.emax64. lia. }
  rewrite Hfexp. unfold shl_align.
  destruct (Z.pos (digits2_pos p) - 53 - 0) as [| k | k] eqn:Hk; try lia.
  - rewrite binary_round_aux_exact; [now eexists; eexists | |].
    + unfold fexp, emin, JS.prec64, JS.emax64. lia.
    + unfold JS.prec64, JS.emax64. lia.
  - rewrite binary_round_aux_exact; [now eexists; eexists | |].
    + rewrite digits2_pos_shift.
      unfold fexp, emin, JS.prec64, JS.emax64. lia.
    + unfold JS.prec64, JS.emax64. lia.
Qed.

(** ** Differences and quotients the code relies on *)

Lemma sub_self_not_positive (x : JS.number) :
  JS.gt (JS.sub x x) JS.pzero = false.
Proof.
  destruct x as [[] | [] | | s m e]; try reflexivity.
  unfold JS.sub, SFsub. rewrite Z.sub_diag. reflexivity.
Qed.

Lemma zero_div_finite (m : positive) (e : Z) :
  JS.div JS.pzero (S754_finite false m e) = JS.pzero.
Proof. reflexivity. Qed.

(* ================================================================== *)
(** * More facts: the transform and the spectra *)
(* ================================================================== *)

(** ** [bitReverse] reverses the low [bits] bits *)

Lemma bitReverse_step_value (r n : Z) :
  0 <= r < 2 ^ 30 -> 0 <= n < 2 ^ 31 ->
  FFT.bitReverse_step (r, n) = (2 * r + Z.b2z (Z.testbit n 0), n / 2).
Proof.
  intros Hr Hn. unfold FFT.bitReverse_step.
  rewrite shl_double, and_low_bit, sar_half by lia.
  pose proof (Z.mod_pos_bound n 2 ltac:(lia)) as Hbit.
  rewrite or_double_bit by lia.
  rewrite Z.bit0_mod. reflexivity.
Qed.

Lemma bitReverse_iter_bits (n : Z) (t : nat) :
  0 <= n < 2 ^ 31 -> (t <= 30)%nat ->
  let rn := Nat.iter t FFT.bitReverse_step (0, n) in
  snd rn = n / 2 ^ Z.of_nat t /\
  forall j : Z, 0 <= j < Z.of_nat t ->
    Z.testbit (fst rn) j = Z.testbit n (Z.of_nat t - 1 - j).
Proof.
  intros Hn. induction t as [| t IH]; intros Ht.
  - cbn [Nat.iter fst snd]. split; [now rewrite Z.div_1_r | lia].
  - specialize (IH ltac:(lia)).
    pose proof (bitReverse_iter_range n t Hn ltac:(lia)) as Hrange.
    cbv zeta in IH, Hrange. cbv zeta. rewrite Nat.iter_succ.
    destruct (Nat.iter t FFT.bitReverse_step (0, n)) as [r n'].
    cbn [fst snd] in IH, Hrange. destruct IH as [Hn' Hbits].
    destruct Hrange as [Hr Hn'r].
    pose proof (pow2_le_mono (Z.of_nat t) 29 ltac:(lia)) as Hpow.
    rewrite bitReverse_step_value by lia. cbn [fst snd]. split.
    + rewrite Hn'. replace (Z.of_nat (S t)) with (Z.of_nat t + 1) by lia.
      rewrite Z.pow_add_r, Z.pow_1_r by lia.
      rewrite Z.div_div by (try apply pow2_pos; lia). reflexivity.
    + intros j Hj. destruct (Z.eq_dec j 0) as [-> | Hj0].
      * rewrite Z.testbit_0_r.
        rewrite Hn', <- Z.shiftr_div_pow2, Z.shiftr_spec by lia.
        f_equal. lia.
      * replace j with (Z.succ (j - 1)) at 1 by lia.
        rewrite Z.testbit_succ_r by lia.
        rewrite Hbits by lia. f_equal. lia.
Qed.

Lemma bitReverse_bits (i bits j : Z) :
  0 <= bits <= 30 -> 0 <= i < 2 ^ 31 -> 0 <= j < bits ->
  Z.testbit (FFT.bitReverse i bits) j = Z.testbit i (bits - 1 - j).
Proof.
  intros Hbits Hi Hj. unfold FFT.bitReverse.
  pose proof (bitReverse_iter_bits i (Z.to_nat bits) Hi ltac:(lia)) as [_ Hb].
  rewrite Z2Nat.id in Hb by lia. now apply Hb.
Qed.

Lemma testbit_above (a bits j : Z) :
  0 <= a < 2 ^ bits -> bits <= j -> Z.testbit a j = false.
Proof.
  intros Ha Hj. destruct (Z.eq_dec a 0) as [-> | Hne]; [apply Z.bits_0 |].
  apply Z.bits_above_log2; [lia |].
  assert (Z.log2 a < bits) by (apply Z.log2_lt_pow2; lia). lia.
Qed.

(** X10.  [bitReverse(i, bits)] maps the indices below [2^bits] to
    themselves, and applying it twice gives the index back: the swap
    pass of [fft] is a permutation that exchanges pairs. *)
Theorem bitReverse_involutive (i bits : Z) :
  0 <= bits <= 30 -> 0 <= i < 2 ^ bits ->
  0 <= FFT.bitReverse i bits < 2 ^ bits /\
  FFT.bitReverse (FFT.bitReverse i bits) bits = i.
Proof.
  intros Hbits Hi.
  pose proof (pow2_le_mono bits 30 ltac:(lia)) as Hpow.
  assert (Hrange : 0 <= FFT.bitReverse i bits < 2 ^ bits)
    by (apply bitReverse_range; lia).
  split; [exact Hrange |].
  assert (Hrange2 : 0 <= FFT.bitReverse (FFT.bitReverse i bits) bits < 2 ^ bits)
    by (apply bitReverse_range; lia).
  apply Z.bits_inj'. intros j Hj.
  destruct (Z_lt_ge_dec j bits) as [Hlt | Hge].
  - rewrite !bitReverse_bits by lia. f_equal. lia.
  - rewrite (testbit_above _ bits), (testbit_above i bits) by lia.
    reflexivity.
Qed.

(** ** The spectra *)

Lemma nonneg_not_negative (x : JS.number) :
  JS.nonneg x = true -> JS.lt x JS.pzero = false.
Proof. destruct x as [[] | [] | | [] m e]; try discriminate; reflexivity. Qed.

Lemma nonneg_ge_zero (x : JS.number) :
  JS.nonneg x = true -> JS.ge x JS.pzero = true.
Proof. destruct x as [[] | [] | | [] m e]; try discriminate; reflexivity. Qed.

(** A square stored in a [Float32Array] is never negative. *)
Lemma square_not_negative (x : JS.number) :
  JS.lt (JS.fround (JS.mul x x)) JS.pzero = false.
Proof.
  destruct (JS.is_nan x) eqn:Hnan.
  - destruct x; try discriminate. reflexivity.
  - apply nonneg_not_negative, fround_nonneg, mul_self_nonneg, Hnan.
Qed.

Section SpectraFacts.
Variables Math_cos Math_sin : JS.number -> JS.number.

Lemma fft_rejects (fuel : nat) (signal : list JS.number) :
  Z.of_nat (length signal) < 2 ^ 31 ->
  ~ FFT.is_pow2 (Z.of_nat (length signal)) ->
  FFT.fft Math_cos Math_sin fuel signal = Throw InvalidSize.
Proof.
  intros Hlt Hnot. apply fft_size_error_iff.
  destruct (FFT.isPowerOfTwo (Z.of_nat (length signal))) eqn:Hcheck;
    [| reflexivity].
  exfalso. apply Hnot. now apply isPowerOfTwo_sound.
Qed.

Lemma fft_returns (fuel : nat) (signal : list JS.number) :
  Z.of_nat (length signal) < 2 ^ 31 ->
  FFT.is_pow2 (Z.of_nat (length signal)) ->
  Z.of_nat (length signal) < Z.of_nat fuel ->
  exists out : list Complex.t,
    FFT.fft Math_cos Math_sin fuel signal = Ok out /\
    length out = length signal.
Proof.
  intros Hlt Hpow Hfuel.
  destruct (is_pow2_bound _ Hpow Hlt) as (bits & Hbits & HN).
  unfold FFT.fft. rewrite HN, isPowerOfTwo_pow2 by exact Hbits.
  cbn [negb]. cbv iota.
  destruct (Z.ltb_spec (2 ^ 32 - 1) (2 ^ bits)) as [Hbig | _]; [lia |].
  destruct (fft_inplace_ok Math_cos Math_sin bits fuel
              (map (fun x => Complex.mk x JS.pzero) signal) ltac:(lia))
    as (out & Hrun & Hlen).
  - rewrite length_map. exact HN.
  - lia.
  - exists out. split; [exact Hrun |]. now rewrite Hlen, length_map.
Qed.

(** X11.  For a signal shorter than 2^31 samples, [powerSpectrum]
    throws the size error when the length [N] is not a power of two;
    when it is, it returns (given more than [N] units of fuel)
    [N / 2 + 1] bins, none of which is negative. *)
Theorem powerSpectrum_bins (signal : list JS.number) :
  Z.of_nat (length signal) < 2 ^ 31 ->
  (~ FFT.is_pow2 (Z.of_nat (length signal)) ->
   forall fuel : nat,
     FFT.powerSpectrum Math_cos Math_sin fuel signal = Throw InvalidSize) /\
  (FFT.is_pow2 (Z.of_nat (length signal)) ->
   forall fuel : nat,
     Z.of_nat (length signal) < Z.of_nat fuel ->
     exists spectrum : list JS.number,
       FFT.powerSpectrum Math_cos Math_sin fuel signal = Ok spectrum /\
       Z.of_nat (length spectrum) = Z.of_nat (length signal) / 2 + 1 /\
       Forall (fun x => JS.lt x JS.pzero = false) spectrum).
Proof.
  intros Hlt. split.
  - intros Hnot fuel. unfold FFT.powerSpectrum, FFT.rfft.
    now rewrite fft_rejects.
  - intros Hpow fuel Hfuel.
    destruct (fft_returns fuel signal Hlt Hpow Hfuel) as (out & Hrun & Hlen).
    unfold FFT.powerSpectrum, FFT.rfft. rewrite Hrun. cbn [bind].
    eexists. split; [reflexivity |]. split.
    + rewrite length_map, length_take, Hlen.
      destruct Hpow as (k & Hk & HN).
      pose proof (pow2_pos k Hk) as Hpos.
      pose proof (Z.mul_div_le (Z.of_nat (length signal)) 2 ltac:(lia)).
      pose proof (Z.div_pos (Z.of_nat (length signal)) 2 ltac:(lia) ltac:(lia)).
      lia.
    + apply Forall_map, Forall_forall. intros c _. apply square_not_negative.
Qed.

End SpectraFacts.

(** ** The window *)

Section WindowFacts.
Variable Math_cos : JS.number -> JS.number.

Lemma applyWindow_length (signal : list JS.number) (type : FFT.windowType) :
  length (FFT.applyWindow Math_cos signal type) = length signal.
Proof.
  unfold FFT.applyWindow. rewrite length_map, length_seqZ. lia.
Qed.

(** X12.  On a signal of one sample every window divides by
    [N - 1 = 0]: the argument of the cosine is [0 / 0], and (for a
    cosine that returns NaN on NaN, as ECMAScript requires) the one
    sample comes back as NaN, whatever its value and the window type. *)
Theorem applyWindow_single_sample (x : JS.number) (type : FFT.windowType) :
  Math_cos JS.NaN = JS.NaN ->
  FFT.applyWindow Math_cos [x] type = [JS.NaN].
Proof.
  intros Hcos. unfold FFT.applyWindow.
  change (seqZ 0 (Z.of_nat (length [x]))) with [0].
  cbn [map length]. unfold FFT.window_value.
  change (JS.div (JS.mul (JS.mul (JS.of_Z 2) JS.Math_PI) (JS.of_Z 0))
            (JS.of_Z (Z.of_nat 1 - 1))) with JS.NaN.
  destruct type; rewrite ?mul_nan_r, ?Hcos;
    rewrite ?mul_nan_r, ?sub_nan_r; cbn; rewrite ?mul_nan_r; reflexivity.
Qed.

End WindowFacts.

(** ** Complex arithmetic *)

Lemma mul_comm (x y : JS.number) : JS.mul x y = JS.mul y x.
Proof.
  destruct x as [sx | sx | | sx mx ex], y as [sy | sy | | sy my ey];
    cbn; try reflexivity; try (now rewrite xorb_comm).
  unfold JS.mul, SFmul.
  now rewrite xorb_comm, Pos.mul_comm, Z.add_comm.
Qed.

Lemma add_comm (x y : JS.number) : JS.add x y = JS.add y x.
Proof.
  destruct x as [sx | sx | | sx mx ex], y as [sy | sy | | sy my ey];
    try reflexivity; try (destruct sx, sy; reflexivity).
  unfold JS.add, SFadd. now rewrite Z.min_comm, Z.add_comm.
Qed.

(** X13.  The complex sum and the complex product do not depend on
    the order of their operands, although they are computed in
    floating point: every component is rounded the same way. *)
Theorem complex_add_multiply_commute (a b : Complex.t) :
  Complex.add a b = Complex.add b a /\
  Complex.multiply a b = Complex.multiply b a.
Proof.
  unfold Complex.add, Complex.multiply. split.
  - now rewrite (add_comm (Complex.real a)), (add_comm (Complex.imag a)).
  - rewrite (mul_comm (Complex.real a) (Complex.real b)),
      (mul_comm (Complex.imag a) (Complex.imag b)).
    rewrite (add_comm (JS.mul (Complex.real a) (Complex.imag b))).
    rewrite (mul_comm (Complex.imag a) (Complex.real b)),
      (mul_comm (Complex.real a) (Complex.imag b)).
    reflexivity.
Qed.

(* ================================================================== *)
(** * More facts: linear prediction *)
(* ================================================================== *)

(** ** Reading arrays built by [map] and [replicate] *)


Lemma rd_replicate (n : nat) (x : JS.number) (i : Z) :
  0 <= i < Z.of_nat n -> JS.rd (replicate n x) i = x.
Proof.
  intros Hi. unfold JS.rd. destruct (Z.ltb_spec i 0); [lia |].
  rewrite nth_lookup, lookup_replicate_2 by lia. reflexivity.
Qed.

Lemma rd_map (f : JS.number -> JS.number) (l : list JS.number) (i : Z) :
  0 <= i < Z.of_nat (length l) -> JS.rd (map f l) i = f (JS.rd l i).
Proof.
  intros Hi. unfold JS.rd. destruct (Z.ltb_spec i 0); [lia |].
  rewrite !nth_lookup. change (map f l) with (f <$> l).
  rewrite list_lookup_fmap.
  destruct (lookup_lt_is_Some_2 l (Z.to_nat i) ltac:(lia)) as [x ->].
  reflexivity.
Qed.

Lemma rd_elem (l : list JS.number) (i : Z) :
  0 <= i < Z.of_nat (length l) -> JS.rd l i ∈ l.
Proof.
  intros Hi. unfold JS.rd. destruct (Z.ltb_spec i 0); [lia |].
  destruct (lookup_lt_is_Some_2 l (Z.to_nat i) ltac:(lia)) as [x Hx].
  rewrite (nth_lookup_Some l _ JS.NaN x Hx).
  eapply list_elem_of_lookup_2. exact Hx.
Qed.

(** A loop that stores [g i] at the indices [start, start + t). *)
Lemma wr_loop_spec (g : Z -> JS.number) (start : Z) (t : nat)
    (l0 : list JS.number) :
  0 <= start ->
  let l := fold_left (fun l i => JS.wr l i (g i)) (seqZ start (Z.of_nat t)) l0 in
  length l = length l0 /\
  (forall i, start <= i < start + Z.of_nat t -> i < Z.of_nat (length l0) ->
     JS.rd l i = g i) /\
  (forall x, x < start \/ start + Z.of_nat t <= x -> JS.rd l x = JS.rd l0 x).
Proof.
  intros Hstart. induction t as [| t IH]; cbv zeta.
  - change (seqZ start (Z.of_nat 0)) with (@nil Z). cbn [fold_left].
    split; [reflexivity |]. split; [intros; lia | reflexivity].
  - rewrite seqZ_S, fold_left_app. cbn [fold_left].
    destruct IH as (Hlen & Hin & Hout).
    split; [now rewrite wr_length |]. split.
    + intros i Hi Hlt.
      destruct (Z.eq_dec i (start + Z.of_nat t)) as [-> | Hne].
      * apply rd_wr_same. rewrite Hlen. lia.
      * rewrite rd_wr_other by lia. apply Hin; lia.
    + intros x Hx. rewrite rd_wr_other by lia. apply Hout. lia.
Qed.

(** ** A sum of products of zeros *)

Lemma fold_zero_terms (term : Z -> JS.number) (indices : list Z) :
  Forall (fun i => term i = JS.pzero) indices ->
  fold_left (fun sum i => JS.add sum (term i)) indices JS.pzero = JS.pzero.
Proof.
  induction indices as [| i indices IH]; intros Hall; [reflexivity |].
  apply Forall_cons in Hall as [Hi Hrest].
  cbn [fold_left]. rewrite Hi. change (JS.add JS.pzero JS.pzero) with JS.pzero.
  now apply IH.
Qed.



(** ** The energy is not negative *)

Lemma add_nan_l (x : JS.number) : JS.add JS.NaN x = JS.NaN.
Proof. reflexivity. Qed.








(** ** Silence *)






(** ** NaN among the reflection coefficients *)

Lemma area_ratio_nan_l (k : JS.number) : LPC.area_ratio JS.NaN k = JS.NaN.
Proof. reflexivity. Qed.

Lemma area_ratio_clip_nan (a : JS.number) :
  LPC.area_ratio a (LPC.clip JS.NaN) = JS.NaN.
Proof.
  change (LPC.clip JS.NaN) with JS.NaN. unfold LPC.area_ratio.
  change (JS.div (JS.sub JS.one JS.NaN) (JS.add JS.one JS.NaN)) with JS.NaN.
  now rewrite mul_nan_r.
Qed.

Lemma reflectionToArea_nan_above (k : list JS.number) (i j : Z) :
  0 <= i < j -> j <= Z.of_nat (length k) ->
  JS.is_nan (JS.rd k i) = true ->
  JS.rd (LPC.reflectionToArea k) j = JS.NaN.
Proof.
  intros Hij Hj Hnan. unfold LPC.reflectionToArea.
  pose proof (area_loop_spec k (length k) (Nat.le_refl _)) as (_ & _ & Hrec).
  cbv zeta in Hrec. set (area := fold_left _ _ _) in *.
  assert (Hk : JS.rd k i = JS.NaN) by (destruct (JS.rd k i); now try discriminate).
  destruct (Z_of_nat_complete (j - i - 1) ltac:(lia)) as [t Ht].
  replace j with (i + 1 + Z.of_nat t) by lia.
  assert (Hbound : i + 1 + Z.of_nat t <= Z.of_nat (length k)) by lia.
  clear Ht Hj Hnan.
  induction t as [| t IH].
  - rewrite Z.add_0_r, Hrec, Hk by lia. apply area_ratio_clip_nan.
  - replace (i + 1 + Z.of_nat (S t)) with (i + 1 + Z.of_nat t + 1) by lia.
    rewrite Hrec by lia. rewrite IH by lia. apply area_ratio_nan_l.
Qed.

(** X16.  [reflectionToArea] does not recover from a NaN: when the
    reflection coefficient at index [i] is NaN, the areas at all
    indices above [i] are NaN. *)
Theorem reflectionToArea_nan_propagates (k : list JS.number) (i j : Z) :
  0 <= i < j -> j <= Z.of_nat (length k) ->
  JS.is_nan (JS.rd k i) = true ->
  JS.rd (LPC.reflectionToArea k) j = JS.NaN.
Proof. exact (reflectionToArea_nan_above k i j). Qed.

(** ** The logarithmic areas *)


Lemma max_with_floor (x : JS.number) :
  JS.le x JS.lit_1e_6 = true -> JS.Math_max x JS.lit_1e_6 = JS.lit_1e_6.
Proof.
  intros Hle.
  destruct x as [[] | [] | | [] m e]; try discriminate; try reflexivity.
  unfold JS.Math_max. cbn [JS.is_nan orb].
  destruct (JS.lt (S754_finite false m e) JS.lit_1e_6) eqn:Hlt; [reflexivity |].
  assert (Hge : JS.lt JS.lit_1e_6 (S754_finite false m e) = false).
  { revert Hle Hlt. unfold JS.le, JS.lt, SFleb, SFltb.
    rewrite (SFcompare_antisym (S754_finite false m e) JS.lit_1e_6).
    destruct (SFcompare (S754_finite false m e) JS.lit_1e_6) as [[| |] |];
      cbn [option_map CompOpp]; congruence. }
  rewrite Hge. unfold JS.lit_1e_6 in *.
  now apply finite_not_lt_eq.
Qed.

Section LogAreaFacts.
Variable Math_log : JS.number -> JS.number.

(** X17.  [areaToLogArea] keeps the number of areas, and no area at or
    below 1e-6 reaches the logarithm: zero, negative and tiny areas
    all give the log-area of 1e-6. *)
Theorem areaToLogArea_floor (areas : list JS.number) :
  length (LPC.areaToLogArea Math_log areas) = length areas /\
  forall i : Z,
    0 <= i < Z.of_nat (length areas) ->
    JS.le (JS.rd areas i) JS.lit_1e_6 = true ->
    JS.rd (LPC.areaToLogArea Math_log areas) i
    = JS.fround (Math_log JS.lit_1e_6).
Proof.
  unfold LPC.areaToLogArea. split; [apply length_map |].
  intros i Hi Hle.
  rewrite (rd_map (fun a => JS.fround (Math_log (JS.Math_max a JS.lit_1e_6))))
    by exact Hi.
  now rewrite max_with_floor.
Qed.

End LogAreaFacts.

(** ** The formants *)

Section FormantFacts.
Variables Math_cos Math_sin Math_log10 : JS.number -> JS.number.

Lemma formants_loop_bounds (response : list JS.number) (sampleRate : JS.number)
    (numFormants : Z) (indices : list Z) :
  let in_band := fun f =>
    JS.gt f (JS.of_Z 90) = true /\
    JS.lt f (JS.div sampleRate (JS.of_Z 2)) = true in
  forall formants : list JS.number,
  Forall in_band formants ->
  formants = [] \/ Z.of_nat (length formants) < numFormants ->
  let result :=
    LPC.formants_loop response sampleRate numFormants indices formants in
  Forall in_band result /\ Z.of_nat (length result) <= Z.max numFormants 1.
Proof.
  intros in_band.
  induction indices as [| i indices IH]; intros formants Hband Hlen;
    cbn [LPC.formants_loop]; cbv zeta.
  - split; [exact Hband |]. destruct Hlen as [-> | Hlen]; cbn [length]; lia.
  - destruct (_ && _); [| now apply IH].
    destruct (JS.gt _ (JS.of_Z 90)) eqn:Hlow; cbn [andb]; [| now apply IH].
    destruct (JS.lt _ (JS.div sampleRate (JS.of_Z 2))) eqn:Hhigh;
      [| now apply IH].
    assert (Hband' : Forall in_band
              (formants ++
               [JS.div (JS.mul (JS.of_Z i) sampleRate)
                  (JS.mul (JS.of_Z 2)
                     (JS.of_Z (Z.of_nat (length response) - 1)))])).
    { apply Forall_app. split; [exact Hband |].
      apply Forall_cons. split; [now split | apply Forall_nil; exact I]. }
    rewrite length_app. cbn [length].
    destruct (Z.leb_spec numFormants (Z.of_nat (length formants + 1))).
    + split; [exact Hband' |].
      rewrite length_app. cbn [length].
      destruct Hlen as [-> | Hlen]; cbn [length]; lia.
    + apply IH; [exact Hband' |]. right. rewrite length_app. cbn [length]. lia.
Qed.

(** X18.  Every frequency [estimateFormants] returns lies strictly
    between 90 Hz and half the sample rate, and it returns at most
    [numFormants] of them; at most one when [numFormants] is below 1,
    since the count is only tested after a frequency was added. *)
Theorem estimateFormants_bounds (coefficients : list JS.number)
    (sampleRate : JS.number) (numFormants : Z) :
  let formants :=
    LPC.estimateFormants Math_cos Math_sin Math_log10 coefficients
      sampleRate numFormants in
  Forall (fun f => JS.gt f (JS.of_Z 90) = true /\
                   JS.lt f (JS.div sampleRate (JS.of_Z 2)) = true) formants /\
  Z.of_nat (length formants) <= Z.max numFormants 1.
Proof.
  cbv zeta. unfold LPC.estimateFormants.
  apply formants_loop_bounds; [apply Forall_nil; exact I | now left].
Qed.

End FormantFacts.

(** ** A silent frame in the analyzer *)



Section SilentFrame.
Variables Math_cos Math_sin Math_log Math_log10 : JS.number -> JS.number.







End SilentFrame.

(** ** The synthesis filter is causal *)

Lemma rd_take (l : list JS.number) (m : nat) (i : Z) :
  i < Z.of_nat m -> JS.rd (take m l) i = JS.rd l i.
Proof.
  intros Hi. unfold JS.rd. destruct (Z.ltb_spec i 0); [reflexivity |].
  rewrite !nth_lookup, lookup_take_lt by lia. reflexivity.
Qed.

Lemma take_wr_inside (l : list JS.number) (m : nat) (i : Z) (x : JS.number) :
  i < Z.of_nat m -> take m (JS.wr l i x) = JS.wr (take m l) i x.
Proof.
  intros Hi. unfold JS.wr. destruct (Z.ltb_spec i 0); [reflexivity |].
  rewrite take_insert_lt by lia. reflexivity.
Qed.

Lemma take_wr_outside (l : list JS.number) (m : nat) (i : Z) (x : JS.number) :
  Z.of_nat m <= i -> take m (JS.wr l i x) = take m l.
Proof.
  intros Hi. unfold JS.wr. destruct (Z.ltb_spec i 0); [reflexivity |].
  apply take_insert_ge. lia.
Qed.

Section Causality.
Variables (excitation coefficients : list JS.number) (gain : JS.number).
Variable m : nat.

(** A sample below [m] is computed from the samples below [m]. *)
Lemma synthesize_taps_inside (n : Z) (indices : list Z) :
  n < Z.of_nat m -> Forall (fun i => 0 <= i) indices ->
  forall output : list JS.number,
  take m (fold_left (LPC.synthesize_tap coefficients n) indices output)
  = fold_left (LPC.synthesize_tap coefficients n) indices (take m output).
Proof.
  intros Hn. induction indices as [| i indices IH]; intros Hpos output;
    [reflexivity |].
  apply Forall_cons in Hpos as [Hi Hrest].
  cbn [fold_left]. rewrite IH by exact Hrest. f_equal.
  unfold LPC.synthesize_tap.
  destruct (Z.leb_spec 0 (n - i - 1)); [| reflexivity].
  rewrite take_wr_inside, !rd_take by lia. reflexivity.
Qed.

Lemma synthesize_sample_inside (n : Z) (output : list JS.number) :
  n < Z.of_nat m ->
  take m (LPC.synthesize_sample excitation coefficients gain output n)
  = LPC.synthesize_sample (take m excitation) coefficients gain
      (take m output) n.
Proof.
  intros Hn. unfold LPC.synthesize_sample.
  rewrite synthesize_taps_inside
    by (try apply Forall_seqZ; intros; lia).
  rewrite take_wr_inside, rd_take by lia.
  reflexivity.
Qed.

(** A sample from [m] on leaves the samples below [m] alone. *)
Lemma synthesize_taps_outside (n : Z) (indices : list Z) :
  Z.of_nat m <= n ->
  forall output : list JS.number,
  take m (fold_left (LPC.synthesize_tap coefficients n) indices output)
  = take m output.
Proof.
  intros Hn. induction indices as [| i indices IH]; intros output;
    [reflexivity |].
  cbn [fold_left]. rewrite IH. unfold LPC.synthesize_tap.
  destruct (Z.leb_spec 0 (n - i - 1)); [| reflexivity].
  now apply take_wr_outside.
Qed.

Lemma synthesize_sample_outside (n : Z) (output : list JS.number) :
  Z.of_nat m <= n ->
  take m (LPC.synthesize_sample excitation coefficients gain output n)
  = take m output.
Proof.
  intros Hn. unfold LPC.synthesize_sample.
  rewrite synthesize_taps_outside by exact Hn. now apply take_wr_outside.
Qed.

Lemma synthesize_samples_inside (indices : list Z) :
  Forall (fun n => n < Z.of_nat m) indices ->
  forall output : list JS.number,
  take m (fold_left (LPC.synthesize_sample excitation coefficients gain)
            indices output)
  = fold_left (LPC.synthesize_sample (take m excitation) coefficients gain)
      indices (take m output).
Proof.
  induction indices as [| n indices IH]; intros Hall output; [reflexivity |].
  apply Forall_cons in Hall as [Hn Hrest]. cbn [fold_left].
  rewrite IH by exact Hrest. now rewrite synthesize_sample_inside.
Qed.

Lemma synthesize_samples_outside (indices : list Z) :
  Forall (fun n => Z.of_nat m <= n) indices ->
  forall output : list JS.number,
  take m (fold_left (LPC.synthesize_sample excitation coefficients gain)
            indices output)
  = take m output.
Proof.
  induction indices as [| n indices IH]; intros Hall output; [reflexivity |].
  apply Forall_cons in Hall as [Hn Hrest]. cbn [fold_left].
  rewrite IH by exact Hrest. now apply synthesize_sample_outside.
Qed.

End Causality.

(** X20.  The synthesis filter is causal: the first [m] samples it
    returns depend on the first [m] samples of the excitation alone,
    and are what it returns on the excitation cut after [m] samples. *)
Theorem synthesize_is_causal (excitation coefficients : list JS.number)
    (gain : JS.number) (m : nat) :
  (m <= length excitation)%nat ->
  take m (LPC.synthesize excitation coefficients gain)
  = LPC.synthesize (take m excitation) coefficients gain.
Proof.
  intros Hm. unfold LPC.synthesize.
  rewrite length_take, Nat.min_l by exact Hm.
  replace (Z.of_nat (length excitation))
    with (Z.of_nat m + Z.of_nat (length excitation - m)) by lia.
  rewrite seqZ_app by lia. rewrite fold_left_app.
  rewrite synthesize_samples_outside
    by (apply Forall_seqZ; intros n Hn; lia).
  rewrite synthesize_samples_inside
    by (apply Forall_seqZ; intros n Hn; lia).
  f_equal. rewrite take_replicate. f_equal. lia.
Qed.

(* ================================================================== *)
(** * Facts: the feature extractor *)
(* ================================================================== *)

(** ** Intensity *)

Lemma sum_of_squares_nonneg (frame : list JS.number) :
  Forall (fun x => JS.is_nan x = false) frame ->
  forall sum0, JS.nonneg sum0 = true ->
  JS.nonneg (fold_left (fun sum x => JS.add sum (JS.mul x x)) frame sum0) = true.
Proof.
  induction frame as [| x frame IH]; intros Hall sum0 H0; [exact H0 |].
  apply Forall_cons in Hall as [Hx Hrest]. cbn [fold_left].
  apply IH; [exact Hrest |]. apply add_nonneg; [exact H0 |].
  now apply mul_self_nonneg.
Qed.

Lemma sum_of_squares_zeros (n : nat) :
  fold_left (fun sum x => JS.add sum (JS.mul x x)) (replicate n JS.pzero) JS.pzero
  = JS.pzero.
Proof. induction n as [| n IH]; [reflexivity | exact IH]. Qed.

Lemma calculateIntensity_zeros (n : nat) :
  1 <= Z.of_nat n < 2 ^ 53 ->
  FeatureExtractor.calculateIntensity (replicate n JS.pzero) = JS.pzero.
Proof.
  intros Hn. unfold FeatureExtractor.calculateIntensity.
  rewrite sum_of_squares_zeros, length_replicate.
  destruct (of_Z_finite (Z.of_nat n) Hn) as (m & e & ->). reflexivity.
Qed.

(** X21.  The intensity of an empty frame is NaN ([0 / 0]); the
    intensity of a non-empty frame without NaN samples is a number
    that is not negative. *)
Theorem calculateIntensity_range :
  FeatureExtractor.calculateIntensity [] = JS.NaN /\
  forall frame : list JS.number,
    1 <= Z.of_nat (length frame) < 2 ^ 53 ->
    Forall (fun x => JS.is_nan x = false) frame ->
    JS.ge (FeatureExtractor.calculateIntensity frame) JS.pzero = true.
Proof.
  split; [reflexivity |]. intros frame Hlen Hall.
  unfold FeatureExtractor.calculateIntensity.
  destruct (of_Z_finite (Z.of_nat (length frame)) Hlen) as (m & e & ->).
  apply nonneg_ge_zero, sqrt_nonneg, div_nonneg.
  now apply sum_of_squares_nonneg.
Qed.

(** X22.  A frame of zeros is classified as silent, whatever the
    pitch estimate and the zero-crossing rate are: its intensity is
    exactly 0, below the threshold 0.02. *)
Theorem silence_is_silent (n : nat) (zcr : JS.number) (f0 : option JS.number) :
  1 <= Z.of_nat n < 2 ^ 53 ->
  FeatureExtractor.detectVoiceQuality
    (FeatureExtractor.calculateIntensity (replicate n JS.pzero)) zcr f0
  = FeatureExtractor.silent.
Proof.
  intros Hn. now rewrite calculateIntensity_zeros.
Qed.

(** ** Zero crossings *)

Lemma crossings_same_side (frame : list JS.number) (b : bool) :
  Forall (fun x => JS.ge x JS.pzero = b) frame ->
  FeatureExtractor.crossings frame = 0.
Proof.
  intros Hside. unfold FeatureExtractor.crossings.
  assert (Hstep : Forall (fun i => 1 <= i < Z.of_nat (length frame))
                    (seqZ 1 (Z.of_nat (length frame) - 1)))
    by (apply Forall_seqZ; intros i Hi; lia).
  revert Hstep. generalize (seqZ 1 (Z.of_nat (length frame) - 1)).
  intros indices. induction indices as [| i indices IH]; intros Hstep;
    [reflexivity |].
  apply Forall_cons in Hstep as [Hi Hrest]. cbn [fold_left].
  rewrite Forall_forall in Hside.
  rewrite (Hside (JS.rd frame i)) by (apply rd_elem; lia).
  rewrite (Hside (JS.rd frame (i - 1))) by (apply rd_elem; lia).
  rewrite eqb_reflx. cbn [negb]. now apply IH.
Qed.

(** X23.  The zero-crossing rate of a one-sample frame is NaN
    ([0 / 0]); the rate of a longer frame whose samples are all on the
    same side (all [>= 0], or none) is exactly 0. *)
Theorem calculateZeroCrossingRate_edges :
  (forall x : JS.number,
     FeatureExtractor.calculateZeroCrossingRate [x] = JS.NaN) /\
  (forall (frame : list JS.number) (b : bool),
     2 <= Z.of_nat (length frame) <= 2 ^ 53 ->
     Forall (fun x => JS.ge x JS.pzero = b) frame ->
     FeatureExtractor.calculateZeroCrossingRate frame = JS.pzero).
Proof.
  split; [reflexivity |]. intros frame b Hlen Hside.
  unfold FeatureExtractor.calculateZeroCrossingRate.
  rewrite (crossings_same_side frame b Hside).
  destruct (of_Z_finite (Z.of_nat (length frame) - 1) ltac:(lia))
    as (m & e & ->).
  reflexivity.
Qed.

(** ** Spectral flux *)

Lemma positive_nonneg (d : JS.number) :
  JS.gt d JS.pzero = true -> JS.nonneg d = true.
Proof. destruct d as [[] | [] | | [] m e]; try discriminate; reflexivity. Qed.

Lemma flux_fold_nonneg (spectrum previous : list JS.number) (indices : list Z) :
  forall flux0 : JS.number,
  JS.nonneg flux0 = true ->
  JS.nonneg
    (fold_left
       (fun flux i =>
          let diff := JS.sub (JS.rd spectrum i) (JS.rd previous i) in
          if JS.gt diff JS.pzero then JS.add flux diff else flux)
       indices flux0) = true.
Proof.
  induction indices as [| i indices IH]; intros flux Hflux; [exact Hflux |].
  cbn [fold_left]. apply IH. cbv zeta.
  destruct (JS.gt _ JS.pzero) eqn:Hgt; [| exact Hflux].
  apply add_nonneg; [exact Hflux | now apply positive_nonneg].
Qed.

Lemma flux_sum_nonneg (spectrum previous : list JS.number) :
  JS.nonneg (FeatureExtractor.flux_sum spectrum previous) = true.
Proof. now apply flux_fold_nonneg. Qed.

Lemma flux_sum_same (spectrum previous : list JS.number) :
  (forall i, 0 <= i < Z.of_nat (length spectrum) ->
     JS.rd previous i = JS.rd spectrum i) ->
  FeatureExtractor.flux_sum spectrum previous = JS.pzero.
Proof.
  intros Hsame. unfold FeatureExtractor.flux_sum.
  assert (Hstep : Forall (fun i => 0 <= i < Z.of_nat (length spectrum))
                    (seqZ 0 (Z.of_nat (length spectrum))))
    by (apply Forall_seqZ; intros i Hi; lia).
  revert Hstep. generalize (seqZ 0 (Z.of_nat (length spectrum))).
  intros indices. induction indices as [| i indices IH]; intros Hstep;
    [reflexivity |].
  apply Forall_cons in Hstep as [Hi Hrest]. cbn [fold_left].
  rewrite Hsame, sub_self_not_positive by exact Hi. now apply IH.
Qed.

Lemma rd_app_l (l k : list JS.number) (i : Z) :
  0 <= i < Z.of_nat (length l) -> JS.rd (l ++ k) i = JS.rd l i.
Proof.
  intros Hi. unfold JS.rd. destruct (Z.ltb_spec i 0); [lia |].
  rewrite !nth_lookup, lookup_app_l by lia. reflexivity.
Qed.

(** X24.  The spectral flux is a number that is not negative; and
    when the same spectrum is passed twice in a row, the second call
    returns exactly 0 and leaves the stored spectrum as it is. *)
Theorem calculateSpectralFlux_repeat (previousSpectrum : option (list JS.number))
    (spectrum : list JS.number) (flux : JS.number)
    (stored : option (list JS.number)) :
  FeatureExtractor.calculateSpectralFlux previousSpectrum spectrum
  = (Ok flux, stored) ->
  JS.ge flux JS.pzero = true /\
  FeatureExtractor.calculateSpectralFlux stored spectrum = (Ok JS.pzero, stored).
Proof.
  unfold FeatureExtractor.calculateSpectralFlux at 1.
  destruct previousSpectrum as [previous |].
  - destruct (Nat.ltb_spec (length previous) (length spectrum)) as [Hlt | Hge];
      [discriminate |].
    intros [= <- <-]. split; [apply nonneg_ge_zero, flux_sum_nonneg |].
    unfold FeatureExtractor.calculateSpectralFlux.
    rewrite length_app, length_drop.
    destruct (Nat.ltb_spec (length spectrum + (length previous - length spectrum))
                (length spectrum)) as [Hlt | _]; [lia |].
    rewrite flux_sum_same by (intros i Hi; now apply rd_app_l).
    now rewrite drop_app_length.
  - intros [= <- <-]. split; [reflexivity |].
    unfold FeatureExtractor.calculateSpectralFlux.
    rewrite Nat.ltb_irrefl, flux_sum_same by reflexivity.
    now rewrite drop_all, app_nil_r.
Qed.

(** ** The lag the pitch estimator picks *)

Lemma estimatePitch_some (alloc : Z -> bool) (sampleRate : JS.number)
    (frame : list JS.number) (minPeriod maxPeriod : Z) :
  JS.Math_floor (JS.div sampleRate (JS.of_Z 500)) = Some minPeriod ->
  JS.Math_floor (JS.div sampleRate (JS.of_Z 50)) = Some maxPeriod ->
  1 <= minPeriod ->
  JS.allocates alloc maxPeriod = true ->
  FeatureExtractor.estimatePitch alloc sampleRate frame
  = Ok (Some (JS.div sampleRate
                (JS.of_Z (snd (FeatureExtractor.peak_loop
                                 (FeatureExtractor.autocorr_loop frame minPeriod
                                    maxPeriod (replicate (Z.to_nat maxPeriod) JS.pzero))
                                 minPeriod maxPeriod))))).
Proof.
  intros Hmin Hmax Hmin1 Halloc.
  unfold FeatureExtractor.estimatePitch. cbv zeta. rewrite Hmin, Hmax, Halloc.
  unfold FeatureExtractor.estimatePitch_periods. cbv zeta.
  set (autocorr := FeatureExtractor.autocorr_loop _ _ _ _).
  assert (Hthreshold :
    JS.mul (JS.rd autocorr 0) JS.lit_0_3 = JS.pzero \/
    JS.mul (JS.rd autocorr 0) JS.lit_0_3 = JS.NaN).
  { unfold autocorr, FeatureExtractor.autocorr_loop.
    rewrite autocorr_loop_untouched.
    - destruct (rd_zeros (Z.to_nat maxPeriod) 0) as [-> | ->];
        [left | right]; reflexivity.
    - apply Forall_seqZ. intros lag Hlag. lia. }
  pose proof (peak_loop_nonneg autocorr
                (seqZ minPeriod (maxPeriod - minPeriod)) (JS.pzero, 0)
                (or_introl eq_refl)) as Hpeak.
  cbv zeta in Hpeak.
  fold (FeatureExtractor.peak_loop autocorr minPeriod maxPeriod) in Hpeak.
  destruct (FeatureExtractor.peak_loop autocorr minPeriod maxPeriod)
    as [maxValue maxIndex].
  cbn [fst snd] in *.
  assert (Hnot : JS.lt maxValue (JS.mul (JS.rd autocorr 0) JS.lit_0_3) = false).
  { destruct Hthreshold as [-> | ->].
    - now apply nonneg_not_lt_zero.
    - unfold JS.lt, SFltb. destruct maxValue; reflexivity. }
  rewrite Hnot. reflexivity.
Qed.

Lemma peak_fold_index (autocorr : list JS.number) (lo hi : Z) (lags : list Z) :
  Forall (fun i => lo <= i < hi) lags ->
  forall acc : JS.number * Z,
  snd acc = 0 \/ lo <= snd acc < hi ->
  let acc' := fold_left (FeatureExtractor.peak_step autocorr) lags acc in
  snd acc' = 0 \/ lo <= snd acc' < hi.
Proof.
  cbv zeta. induction lags as [| i lags IH]; intros Hlags acc Hacc;
    [exact Hacc |].
  apply Forall_cons in Hlags as [Hi Hrest]. cbn [fold_left].
  apply IH; [exact Hrest |]. unfold FeatureExtractor.peak_step.
  destruct (JS.gt _ _); [right; exact Hi | exact Hacc].
Qed.

(** X25.  Whenever the shortest period is at least 1 and the array of
    [maxPeriod] autocorrelation values can be allocated, the frequency
    [estimatePitch] returns is the sample rate divided by a lag that
    is either inside the search range [minPeriod, maxPeriod) or 0 (no
    positive peak was found, and the quotient is not finite). *)
Theorem estimatePitch_lag_in_range (alloc : Z -> bool) (sampleRate : JS.number)
    (frame : list JS.number) (minPeriod maxPeriod : Z) :
  JS.Math_floor (JS.div sampleRate (JS.of_Z 500)) = Some minPeriod ->
  JS.Math_floor (JS.div sampleRate (JS.of_Z 50)) = Some maxPeriod ->
  1 <= minPeriod ->
  JS.allocates alloc maxPeriod = true ->
  exists lag : Z,
    FeatureExtractor.estimatePitch alloc sampleRate frame
    = Ok (Some (JS.div sampleRate (JS.of_Z lag))) /\
    (lag = 0 \/ minPeriod <= lag < maxPeriod).
Proof.
  intros Hmin Hmax Hmin1 Halloc.
  eexists. split; [now apply (estimatePitch_some _ _ _ minPeriod maxPeriod) |].
  unfold FeatureExtractor.peak_loop.
  apply peak_fold_index; [| now left].
  apply Forall_seqZ. intros i Hi. lia.
Qed.

(** ** The pitch of silence *)

Lemma feature_lag_sum_zeros (n : nat) (lag : Z) :
  0 <= lag -> FeatureExtractor.lag_sum (replicate n JS.pzero) lag = JS.pzero.
Proof.
  intros Hlag. unfold FeatureExtractor.lag_sum. apply fold_zero_terms.
  rewrite length_replicate. apply Forall_seqZ. intros i Hi.
  rewrite !rd_replicate by lia. reflexivity.
Qed.

Lemma autocorr_loop_zeros (n : nat) (minPeriod maxPeriod : Z) :
  1 <= minPeriod -> 0 <= maxPeriod ->
  forall i, 0 <= i < maxPeriod ->
  JS.rd (FeatureExtractor.autocorr_loop (replicate n JS.pzero) minPeriod
           maxPeriod (replicate (Z.to_nat maxPeriod) JS.pzero)) i
  = JS.pzero.
Proof.
  intros Hmin Hmax i Hi. unfold FeatureExtractor.autocorr_loop.
  set (g := fun lag => JS.fround (FeatureExtractor.lag_sum (replicate n JS.pzero) lag)).
  assert (Hseq : seqZ minPeriod (maxPeriod - minPeriod)
                 = seqZ minPeriod (Z.of_nat (Z.to_nat (maxPeriod - minPeriod)))).
  { unfold seqZ. now rewrite Nat2Z.id. }
  rewrite Hseq.
  change (fold_left _ (seqZ minPeriod _) _)
    with (fold_left (fun l lag => JS.wr l lag (g lag))
            (seqZ minPeriod (Z.of_nat (Z.to_nat (maxPeriod - minPeriod))))
            (replicate (Z.to_nat maxPeriod) JS.pzero)).
  pose proof (wr_loop_spec g minPeriod (Z.to_nat (maxPeriod - minPeriod))
                (replicate (Z.to_nat maxPeriod) JS.pzero) ltac:(lia))
    as (_ & Hin & Hout).
  cbv zeta in Hin, Hout.
  destruct (Z_lt_ge_dec i minPeriod) as [Hlow | Hhigh].
  - rewrite Hout by lia. apply rd_replicate. lia.
  - rewrite Hin by (rewrite ?length_replicate; lia).
    unfold g. now rewrite feature_lag_sum_zeros by lia.
Qed.

Lemma peak_fold_flat (autocorr : list JS.number) (lags : list Z) :
  Forall (fun i => JS.rd autocorr i = JS.pzero) lags ->
  fold_left (FeatureExtractor.peak_step autocorr) lags (JS.pzero, 0)
  = (JS.pzero, 0).
Proof.
  induction lags as [| i lags IH]; intros Hflat; [reflexivity |].
  apply Forall_cons in Hflat as [Hi Hrest]. cbn [fold_left].
  unfold FeatureExtractor.peak_step at 2. rewrite Hi. cbn [fst].
  change (JS.gt JS.pzero JS.pzero) with false. cbv iota. now apply IH.
Qed.

Lemma positive_rate (sampleRate : JS.number) (minPeriod : Z) :
  JS.Math_floor (JS.div sampleRate (JS.of_Z 500)) = Some minPeriod ->
  1 <= minPeriod ->
  exists m e, sampleRate = S754_finite false m e.
Proof.
  intros Hmin Hmin1.
  change (JS.of_Z 500) with (S754_finite false 8796093022208000 (-44)) in Hmin.
  pose proof (div_by_positive_sign sampleRate 8796093022208000 (-44)) as Hsign.
  destruct (JS.div sampleRate (S754_finite false 8796093022208000 (-44)))
    as [s1 | s1 | | s1 m1 e1] eqn:Hdiv; try discriminate.
  { injection Hmin as <-. lia. }
  apply Math_floor_sign in Hmin. destruct s1; [lia |].
  destruct sampleRate as [s | s | | s m e]; try contradiction.
  - destruct s; discriminate.
  - destruct s; discriminate.
  - subst s. now exists m, e.
Qed.

(** X26.  Silence has an infinite pitch: on a frame of zeros (a
    sample rate whose shortest period is at least 1, and an array of
    [maxPeriod] values that can be allocated) [estimatePitch] returns
    [+Infinity], the sample rate divided by the lag 0, and not null. *)
Theorem estimatePitch_silence (alloc : Z -> bool) (sampleRate : JS.number)
    (n : nat) (minPeriod maxPeriod : Z) :
  JS.Math_floor (JS.div sampleRate (JS.of_Z 500)) = Some minPeriod ->
  JS.Math_floor (JS.div sampleRate (JS.of_Z 50)) = Some maxPeriod ->
  1 <= minPeriod ->
  JS.allocates alloc maxPeriod = true ->
  FeatureExtractor.estimatePitch alloc sampleRate (replicate n JS.pzero)
  = Ok (Some JS.pinf).
Proof.
  intros Hmin Hmax Hmin1 Halloc.
  pose proof (maxPeriod_nonneg sampleRate minPeriod maxPeriod Hmin Hmax Hmin1)
    as Hmax0.
  rewrite (estimatePitch_some _ _ _ minPeriod maxPeriod) by assumption.
  unfold FeatureExtractor.peak_loop. rewrite peak_fold_flat.
  - destruct (positive_rate sampleRate minPeriod Hmin Hmin1) as (m & e & ->).
    reflexivity.
  - apply Forall_seqZ. intros i Hi. apply autocorr_loop_zeros; lia.
Qed.

(** ** [extractFeatures] and the length of the frame *)

Section ExtractFacts.
Variables Math_cos Math_sin Math_log Math_log10 : JS.number -> JS.number.
Variable alloc : Z -> bool.

Lemma powerSpectrum_rejects (fuel : nat) (signal : list JS.number) :
  Z.of_nat (length signal) < 2 ^ 31 ->
  ~ FFT.is_pow2 (Z.of_nat (length signal)) ->
  FFT.powerSpectrum Math_cos Math_sin fuel signal = Throw InvalidSize.
Proof.
  intros Hlt Hnot. unfold FFT.powerSpectrum, FFT.rfft.
  now rewrite fft_rejects.
Qed.

Lemma powerSpectrum_returns (fuel : nat) (signal : list JS.number) :
  Z.of_nat (length signal) < 2 ^ 31 ->
  FFT.is_pow2 (Z.of_nat (length signal)) ->
  Z.of_nat (length signal) < Z.of_nat fuel ->
  exists spectrum : list JS.number,
    FFT.powerSpectrum Math_cos Math_sin fuel signal = Ok spectrum /\
    Z.of_nat (length spectrum) = Z.of_nat (length signal) / 2 + 1.
Proof.
  intros Hlt Hpow Hfuel.
  destruct (fft_returns Math_cos Math_sin fuel signal Hlt Hpow Hfuel)
    as (out & Hrun & Hlen).
  unfold FFT.powerSpectrum, FFT.rfft. rewrite Hrun. cbn [bind].
  eexists. split; [reflexivity |].
  rewrite length_map, length_take, Hlen.
  destruct Hpow as (k & Hk & HN).
  pose proof (pow2_pos k Hk) as Hpos.
  pose proof (Z.mul_div_le (Z.of_nat (length signal)) 2 ltac:(lia)).
  pose proof (Z.div_pos (Z.of_nat (length signal)) 2 ltac:(lia) ltac:(lia)).
  lia.
Qed.

(** A spectrum is returned for powers of two only, and has the length
    the size of the signal gives it. *)
Lemma powerSpectrum_returned_pow2 (fuel : nat) (signal spectrum : list JS.number) :
  Z.of_nat (length signal) < 2 ^ 31 ->
  FFT.powerSpectrum Math_cos Math_sin fuel signal = Ok spectrum ->
  FFT.is_pow2 (Z.of_nat (length signal)).
Proof.
  intros Hlt Hrun. apply isPowerOfTwo_sound; [exact Hlt |].
  destruct (FFT.isPowerOfTwo (Z.of_nat (length signal))) eqn:Hcheck;
    [reflexivity |].
  unfold FFT.powerSpectrum, FFT.rfft, FFT.fft in Hrun.
  rewrite Hcheck in Hrun. discriminate.
Qed.

Lemma powerSpectrum_length (fuel : nat) (signal spectrum : list JS.number) :
  Z.of_nat (length signal) < 2 ^ 31 ->
  Z.of_nat (length signal) < Z.of_nat fuel ->
  FFT.powerSpectrum Math_cos Math_sin fuel signal = Ok spectrum ->
  Z.of_nat (length spectrum) = Z.of_nat (length signal) / 2 + 1.
Proof.
  intros Hlt Hfuel Hrun.
  pose proof (powerSpectrum_returned_pow2 fuel signal spectrum Hlt Hrun) as Hpow.
  destruct (powerSpectrum_returns fuel signal Hlt Hpow Hfuel)
    as (spectrum' & Hrun' & Hlen).
  congruence.
Qed.

(** X27.  [extractFeatures] needs a frame whose length is a power of
    two: on any other frame (shorter than 2^31 samples) it throws the
    size error of the transform, and the extractor is left as it was. *)
Theorem extractFeatures_rejects_length (fuel : nat) (this : FeatureExtractor.t)
    (frame : list JS.number) :
  Z.of_nat (length frame) < 2 ^ 31 ->
  ~ FFT.is_pow2 (Z.of_nat (length frame)) ->
  FeatureExtractor.extractFeatures Math_cos Math_sin Math_log Math_log10
    alloc fuel this frame
  = (Throw InvalidSize, this).
Proof.
  intros Hlt Hnot. unfold FeatureExtractor.extractFeatures. cbv zeta.
  rewrite powerSpectrum_rejects; [reflexivity | |];
    now rewrite applyWindow_length.
Qed.

Lemma flux_stored_length (spectrum : list JS.number) (flux : JS.number)
    (stored : option (list JS.number)) :
  FeatureExtractor.calculateSpectralFlux None spectrum = (Ok flux, stored) ->
  stored = Some spectrum.
Proof. intros [= _ <-]. reflexivity. Qed.

(** What a call that returned has done. *)
Lemma extractFeatures_returned (fuel : nat) (this this' : FeatureExtractor.t)
    (frame : list JS.number) (features : FeatureExtractor.AudioFeatures) :
  FeatureExtractor.extractFeatures Math_cos Math_sin Math_log Math_log10
    alloc fuel this frame = (Ok features, this') ->
  exists (spectrum frequencies : list JS.number) (flux : JS.number),
    FFT.powerSpectrum Math_cos Math_sin fuel
      (FFT.applyWindow Math_cos frame FFT.hamming) = Ok spectrum /\
    FFT.getFrequencyBins alloc (FeatureExtractor.frameSize this)
      (FeatureExtractor.sampleRate this) = Ok frequencies /\
    FeatureExtractor.calculateSpectralFlux
      (FeatureExtractor.previousSpectrum this) spectrum
    = (Ok flux, FeatureExtractor.previousSpectrum this') /\
    FeatureExtractor.sampleRate this' = FeatureExtractor.sampleRate this /\
    FeatureExtractor.frameSize this' = FeatureExtractor.frameSize this /\
    FeatureExtractor.lpcAnalyzer this' = FeatureExtractor.lpcAnalyzer this.
Proof.
  unfold FeatureExtractor.extractFeatures. cbv zeta.
  destruct (FFT.powerSpectrum _ _ _ _) as [spectrum | e |]; try discriminate.
  destruct (FFT.getFrequencyBins _ _ _) as [frequencies | e |];
    try discriminate.
  destruct (FeatureExtractor.calculateSpectralFlux _ _) as [flux stored] eqn:Hflux.
  destruct flux as [flux | e |]; try discriminate.
  destruct (FeatureExtractor.estimatePitch _ _ _) as [f0 | e |];
    try discriminate.
  destruct (FeatureExtractor.downsample _ _ _ _) as [downsampled | e |];
    try discriminate.
  intros [= _ <-]. exists spectrum, frequencies, flux.
  cbn [FeatureExtractor.previousSpectrum FeatureExtractor.sampleRate
       FeatureExtractor.frameSize FeatureExtractor.lpcAnalyzer].
  repeat split; first [reflexivity | exact Hflux].
Qed.

(** X28.  An extractor that has seen a frame cannot take a longer one:
    after a call on a fresh (or reset) extractor returned, every call
    with a longer frame (its length a power of two below 2^31) throws
    a [RangeError], from the copy into the stored spectrum, and leaves
    the extractor as it was, so that the next such call throws again. *)
Theorem extractFeatures_longer_frame_throws (fuel : nat)
    (this this' : FeatureExtractor.t) (frame frame' : list JS.number)
    (features : FeatureExtractor.AudioFeatures) :
  FeatureExtractor.previousSpectrum this = None ->
  FeatureExtractor.extractFeatures Math_cos Math_sin Math_log Math_log10
    alloc fuel this frame = (Ok features, this') ->
  (length frame < length frame')%nat ->
  FFT.is_pow2 (Z.of_nat (length frame')) ->
  Z.of_nat (length frame') < 2 ^ 31 ->
  Z.of_nat (length frame') < Z.of_nat fuel ->
  FeatureExtractor.extractFeatures Math_cos Math_sin Math_log Math_log10
    alloc fuel this' frame'
  = (Throw RangeError, this').
Proof.
  intros Hfresh Hfirst Hlonger Hpow Hlt Hfuel.
  destruct (extractFeatures_returned _ _ _ _ _ Hfirst)
    as (spectrum & frequencies & flux & Hspec & Hbins & Hflux & Hsr & Hfs & _).
  rewrite Hfresh in Hflux. apply flux_stored_length in Hflux.
  assert (Hlt1 : Z.of_nat (length frame) < 2 ^ 31) by lia.
  assert (Hfuel1 : Z.of_nat (length frame) < Z.of_nat fuel) by lia.
  pose proof (powerSpectrum_length fuel
                (FFT.applyWindow Math_cos frame FFT.hamming) spectrum) as Hlen.
  rewrite applyWindow_length in Hlen. specialize (Hlen Hlt1 Hfuel1 Hspec).
  pose proof (powerSpectrum_returned_pow2 fuel
                (FFT.applyWindow Math_cos frame FFT.hamming) spectrum) as Hpow1.
  rewrite applyWindow_length in Hpow1. specialize (Hpow1 Hlt1 Hspec).
  destruct Hpow1 as (k1 & Hk1_0 & HN1).
  pose proof (pow2_pos k1 Hk1_0) as Hpos1.
  destruct (powerSpectrum_returns fuel
              (FFT.applyWindow Math_cos frame' FFT.hamming))
    as (spectrum' & Hspec' & Hlen');
    try (rewrite applyWindow_length; assumption).
  rewrite applyWindow_length in Hlen'.
  assert (Hshort : (length spectrum < length spectrum')%nat).
  { destruct Hpow as (k & Hk & HN).
    assert (Hk1 : 1 <= k).
    { destruct (Z.eq_dec k 0) as [-> | ?]; [| lia]. simpl in HN. lia. }
    assert (Hhalf : Z.of_nat (length frame') / 2 = 2 ^ (k - 1)).
    { rewrite HN. replace k with (k - 1 + 1) at 1 by lia.
      rewrite Z.pow_add_r, Z.pow_1_r by lia. apply Z.div_mul. lia. }
    assert (Hdouble : Z.of_nat (length frame') = 2 * 2 ^ (k - 1)).
    { rewrite HN. replace k with (k - 1 + 1) at 1 by lia.
      rewrite Z.pow_add_r, Z.pow_1_r by lia. lia. }
    pose proof (pow2_pos (k - 1) ltac:(lia)).
    assert (Z.of_nat (length frame) / 2 < 2 ^ (k - 1))
      by (apply Z.div_lt_upper_bound; lia).
    lia. }
  unfold FeatureExtractor.extractFeatures. cbv zeta.
  rewrite Hspec', Hsr, Hfs, Hbins, Hflux.
  unfold FeatureExtractor.calculateSpectralFlux.
  destruct (Nat.ltb_spec (length spectrum) (length spectrum')); [| lia].
  rewrite <- Hflux, <- Hsr, <- Hfs. now destruct this'.
Qed.

End ExtractFacts.

(* ================================================================== *)
(** * The buffer facts on concrete inputs *)
(* ================================================================== *)

(** Capacity 4, samples 1 2 3 4: [read(4)] returns 2 3 4 0. *)
Lemma read_after_full_write_witness :
  2 <= 4 /\
  Z.of_nat (length (Inputs.samples [1; 2; 3; 4])) = 4 /\
  snd (CircularBuffer.read
         (CircularBuffer.write (CircularBuffer.fresh 4) (Inputs.samples [1; 2; 3; 4]))
         (Z.to_nat 4))
  = tail (Inputs.samples [1; 2; 3; 4]) ++ [JS.pzero].
Proof.
  split; [lia |]. split; [reflexivity |].
  exact (read_after_full_write 4 (Inputs.samples [1; 2; 3; 4])
           ltac:(lia) eq_refl).
Defined.

(** Where every allocation succeeds, the constructor builds
    [Inputs.processor_new] for the sizes (2048, 256, 128). *)
Lemma processor_new_built :
  AudioBufferProcessor.new Inputs.alloc_ok Inputs.flat_window 2048 256 128
  = Ok Inputs.processor_new.
Proof. reflexivity. Qed.

(** The processor (2048, 256, 128) holding 256 samples: 256 are
    available, and 1000 units of fuel do not reach the return. *)
Lemma getWindowedFrames_never_returns_witness :
  AudioBufferProcessor.frameSize Inputs.processor_256
    <= CircularBuffer.getAvailableData
         (AudioBufferProcessor.inputBuffer Inputs.processor_256) /\
  AudioBufferProcessor.getWindowedFrames 1000 Inputs.processor_256 = NoFuel.
Proof.
  assert (Hge : AudioBufferProcessor.frameSize Inputs.processor_256
                <= CircularBuffer.getAvailableData
                     (AudioBufferProcessor.inputBuffer Inputs.processor_256))
    by (apply Z.leb_le; vm_compute; reflexivity).
  split; [exact Hge |].
  exact (getWindowedFrames_never_returns Inputs.processor_256 Hge 1000).
Defined.

(** Six samples written in total to a buffer of capacity 4, with a
    [read] in between: the buffer is not full. *)
Lemma full_after_total_writes_fails :
  4 < CircularBuffer.total_written Inputs.write_read_write /\
  CircularBuffer.isFull
    (CircularBuffer.run (CircularBuffer.fresh 4) Inputs.write_read_write) = false.
Proof. split; [reflexivity | vm_compute; reflexivity]. Qed.

Lemma available_data_bounded_full_after_capacity_witness :
  0 < 4 /\
  CircularBuffer.getAvailableData
    (CircularBuffer.run (CircularBuffer.fresh 4) Inputs.write_read_write) <= 4 /\
  forall data : list JS.number,
    4 <= Z.of_nat (length data) ->
    CircularBuffer.isFull
      (CircularBuffer.write
         (CircularBuffer.run (CircularBuffer.fresh 4) Inputs.write_read_write) data)
    = true /\
    CircularBuffer.getAvailableData
      (CircularBuffer.write
         (CircularBuffer.run (CircularBuffer.fresh 4) Inputs.write_read_write) data)
    = 4 /\
    CircularBuffer.peek
      (CircularBuffer.write
         (CircularBuffer.run (CircularBuffer.fresh 4) Inputs.write_read_write) data)
      (Z.to_nat 4) 0
    = drop (length data - Z.to_nat 4) data.
Proof.
  split; [lia |].
  apply (available_data_bounded_full_after_capacity 4 Inputs.write_read_write).
  lia.
Defined.

Lemma peek_indices_in_bounds_witness :
  0 <= 4 /\ 0 <= 1 /\ Z.of_nat 3 + 1 <= 4 /\
  Forall (fun i => 0 <= i < 4)
    (CircularBuffer.peek_indices
       (CircularBuffer.run (CircularBuffer.fresh 4) Inputs.write_read_write) 3 1) /\
  (2 <= 4 ->
   head (CircularBuffer.peek_indices
           (CircularBuffer.run (CircularBuffer.fresh 4) Inputs.write_read_write)
           (Z.to_nat
              (CircularBuffer.writeIndex
                 (CircularBuffer.run (CircularBuffer.fresh 4) Inputs.write_read_write)
               + 4 + 1)) 0)
   = Some (-1)).
Proof.
  split; [lia |]. split; [lia |]. split; [simpl; lia |].
  apply (peek_indices_in_bounds 4 Inputs.write_read_write 3 1); simpl; lia.
Defined.

(* ================================================================== *)
(** * The transform facts on concrete inputs *)
(* ================================================================== *)

(** A signal of three samples is rejected, and one of four samples is
    transformed into four bins. *)
Lemma fft_size_contract_witness :
  (Z.of_nat (length (Inputs.samples [1; 2; 3])) < 2 ^ 32 /\
   ~ FFT.is_pow2 (Z.of_nat (length (Inputs.samples [1; 2; 3]))) /\
   FFT.fft Inputs.cos_table Inputs.sin_table 5 (Inputs.samples [1; 2; 3])
   = Throw InvalidSize) /\
  (Z.of_nat (length (Inputs.samples [0; 1; 0; 0])) < 2 ^ 31 /\
   FFT.is_pow2 (Z.of_nat (length (Inputs.samples [0; 1; 0; 0]))) /\
   Z.of_nat (length (Inputs.samples [0; 1; 0; 0])) < Z.of_nat 5 /\
   exists out : list Complex.t,
     FFT.fft Inputs.cos_table Inputs.sin_table 5 (Inputs.samples [0; 1; 0; 0])
     = Ok out /\
     length out = length (Inputs.samples [0; 1; 0; 0])).
Proof.
  assert (Hnot : ~ FFT.is_pow2 (Z.of_nat (length (Inputs.samples [1; 2; 3])))).
  { intros (k & Hk & Hpow). change (3 = 2 ^ k) in Hpow.
    destruct (Z.eq_dec k 0) as [-> | Hk0]; [discriminate |].
    destruct (Z.eq_dec k 1) as [-> | Hk1]; [discriminate |].
    pose proof (Z.pow_le_mono_r 2 2 k ltac:(lia) ltac:(lia)) as Hle.
    change (2 ^ 2) with 4 in Hle. lia. }
  assert (Hpow : FFT.is_pow2 (Z.of_nat (length (Inputs.samples [0; 1; 0; 0]))))
    by (exists 2; split; [lia | reflexivity]).
  split.
  - split; [reflexivity |]. split; [exact Hnot |].
    exact (proj1 (fft_size_contract Inputs.cos_table Inputs.sin_table
                    (Inputs.samples [1; 2; 3])) eq_refl Hnot 5%nat).
  - split; [reflexivity |]. split; [exact Hpow |]. split; [reflexivity |].
    exact (proj1 (proj2 (fft_size_contract Inputs.cos_table Inputs.sin_table
                           (Inputs.samples [0; 1; 0; 0])))
             eq_refl Hpow 5%nat eq_refl).
Defined.

(** From 2^31 on the contract fails on both sides.  A length of 2^31
    samples is a power of two, and [fft] does not return on it.  A
    length of [2^32 + 1] samples is not a power of two, yet it passes
    the size check, which reads it as 1: what [fft] throws on it is
    not the size error but the [RangeError] of [new Array(N)]. *)
Lemma fft_size_check_wraps :
  (FFT.is_pow2 (2 ^ 31) /\
   forall (Math_cos Math_sin : JS.number -> JS.number) (fuel : nat)
          (signal : list JS.number) (out : list Complex.t),
     Z.of_nat (length signal) = 2 ^ 31 ->
     FFT.fft Math_cos Math_sin fuel signal <> Ok out) /\
  (~ FFT.is_pow2 4294967297 /\
   FFT.isPowerOfTwo 4294967297 = true /\
   forall (Math_cos Math_sin : JS.number -> JS.number) (fuel : nat)
          (signal : list JS.number),
     Z.of_nat (length signal) = 4294967297 ->
     FFT.fft Math_cos Math_sin fuel signal = Throw RangeError).
Proof.
  split.
  - split; [exists 31; split; [lia | reflexivity] |].
    intros Math_cos Math_sin fuel signal out Hlen.
    now apply fft_no_return_at_2_31.
  - split; [exact not_pow2_above_2_32 |]. split; [vm_compute; reflexivity |].
    intros Math_cos Math_sin fuel signal Hlen.
    unfold FFT.fft. rewrite Hlen. reflexivity.
Qed.

(** The table functions take the values the theorem asks for. *)
Lemma ifft_differs_from_reference_witness :
  Inputs.cos_table JS.nzero = JS.one /\
  Inputs.sin_table JS.nzero = JS.nzero /\
  Inputs.cos_table Inputs.quarter_turn = Inputs.cos_quarter_turn /\
  Inputs.sin_table Inputs.quarter_turn = JS.of_Z (-1) /\
  FFT.ifft Inputs.cos_table Inputs.sin_table 5 Inputs.spectrum_i
    = Ok [JS.pzero; JS.pzero; JS.pzero; JS.pzero] /\
  FFT.ifft_reference Inputs.cos_table Inputs.sin_table 5 Inputs.spectrum_i
    = Ok [JS.pzero; JS.neg Inputs.quarter; JS.pzero; Inputs.quarter].
Proof.
  assert (H1 : Inputs.cos_table JS.nzero = JS.one) by (vm_compute; reflexivity).
  assert (H2 : Inputs.sin_table JS.nzero = JS.nzero) by (vm_compute; reflexivity).
  assert (H3 : Inputs.cos_table Inputs.quarter_turn = Inputs.cos_quarter_turn)
    by (vm_compute; reflexivity).
  assert (H4 : Inputs.sin_table Inputs.quarter_turn = JS.of_Z (-1))
    by (vm_compute; reflexivity).
  repeat (split; [assumption |]).
  exact (ifft_differs_from_reference Inputs.cos_table Inputs.sin_table H1 H2 H3 H4).
Defined.

(* ================================================================== *)
(** * The prediction and pitch facts on concrete inputs *)
(* ================================================================== *)

(** Order 4 on five zeros, the input of the repository's own test
    "should handle zero signal gracefully". *)
Lemma levinsonDurbin_zero_autocorr_witness :
  (1 <= 4)%nat /\ (1 <= 5)%nat /\
  LPC.levinsonDurbin (replicate 5 JS.pzero) 4
  = LPC.mkResult (replicate 4 JS.NaN) (replicate 4 JS.NaN) JS.NaN JS.NaN.
Proof.
  split; [lia |]. split; [lia |].
  exact (levinsonDurbin_zero_autocorr 4 5 ltac:(lia) ltac:(lia)).
Defined.

(** Order 1 on the input [1, 2]: the reflection coefficient is 2, the
    prediction error 1 * (1 - 4) = -3 leaves through the early exit,
    and -3 >= 0 is false. *)
Lemma levinsonDurbin_negative_error :
  LPC.predictionError (LPC.levinsonDurbin (Inputs.samples [1; 2]) 1) = JS.of_Z (-3) /\
  JS.ge (LPC.predictionError (LPC.levinsonDurbin (Inputs.samples [1; 2]) 1))
        JS.pzero = false /\
  snd (LPC.levinsonDurbin_loop (Inputs.samples [1; 2]) 1) = true.
Proof. repeat split; vm_compute; reflexivity. Qed.

(** At 8000 Hz the lags searched are 16 to 159, and an array of 160
    values is allocated. *)
Lemma estimatePitch_never_null_witness :
  JS.Math_floor (JS.div (JS.of_Z 8000) (JS.of_Z 500)) = Some 16 /\
  JS.Math_floor (JS.div (JS.of_Z 8000) (JS.of_Z 50)) = Some 160 /\
  1 <= 16 /\
  JS.allocates Inputs.alloc_ok 160 = true /\
  FeatureExtractor.estimatePitch Inputs.alloc_ok (JS.of_Z 8000) Inputs.click_frame
  = Ok (Some (JS.div (JS.of_Z 8000)
                (JS.of_Z (snd (FeatureExtractor.peak_loop
                                 (FeatureExtractor.autocorr_loop Inputs.click_frame
                                    16 160 (replicate (Z.to_nat 160) JS.pzero))
                                 16 160))))) /\
  JS.allocates Inputs.alloc_none 160 = false /\
  FeatureExtractor.estimatePitch Inputs.alloc_none (JS.of_Z 8000) Inputs.click_frame
  = Throw RangeError.
Proof.
  assert (Hmin : JS.Math_floor (JS.div (JS.of_Z 8000) (JS.of_Z 500)) = Some 16)
    by (vm_compute; reflexivity).
  assert (Hmax : JS.Math_floor (JS.div (JS.of_Z 8000) (JS.of_Z 50)) = Some 160)
    by (vm_compute; reflexivity).
  split; [exact Hmin |]. split; [exact Hmax |]. split; [lia |].
  split; [reflexivity |]. split.
  - exact (estimatePitch_never_null Inputs.alloc_ok (JS.of_Z 8000)
             Inputs.click_frame 16 160 Hmin Hmax ltac:(lia)).
  - split; [reflexivity |].
    exact (estimatePitch_never_null Inputs.alloc_none (JS.of_Z 8000)
             Inputs.click_frame 16 160 Hmin Hmax ltac:(lia)).
Defined.

(** The frame with one click and one faint echo 20 samples later: the
    peak of the autocorrelation over the lags 16 to 159 is 0.25 at lag
    20, the energy of the frame is 1.0625, and 0.25 is below 0.3 times
    the energy; the estimator returns 8000 / 20 = 400 all the same. *)
Lemma estimatePitch_click_frame :
  FeatureExtractor.estimatePitch Inputs.alloc_ok (JS.of_Z 8000) Inputs.click_frame
    = Ok (Some (JS.of_Z 400)) /\
  FeatureExtractor.peak_loop
    (FeatureExtractor.autocorr_loop Inputs.click_frame 16 160
       (replicate 160 JS.pzero)) 16 160 = (Inputs.quarter, 20) /\
  JS.lt Inputs.quarter
        (JS.mul (FeatureExtractor.energy Inputs.click_frame) JS.lit_0_3) = true.
Proof. repeat split; vm_compute; reflexivity. Qed.

(** At a sample rate of 1e18 the array of autocorrelation values would
    have 2e16 elements, more than a typed array can have: the call
    throws on every platform. *)
Lemma estimatePitch_huge_rate (alloc : Z -> bool) (frame : list JS.number) :
  JS.Math_floor (JS.div (JS.of_Z (10 ^ 18)) (JS.of_Z 50))
  = Some 20000000000000000 /\
  FeatureExtractor.estimatePitch alloc (JS.of_Z (10 ^ 18)) frame
  = Throw RangeError.
Proof.
  split; [vm_compute; reflexivity |].
  unfold FeatureExtractor.estimatePitch. cbv zeta.
  change (JS.Math_floor (JS.div (JS.of_Z (10 ^ 18)) (JS.of_Z 500)))
    with (Some 2000000000000000).
  change (JS.Math_floor (JS.div (JS.of_Z (10 ^ 18)) (JS.of_Z 50)))
    with (Some 20000000000000000).
  cbv iota beta.
  change (JS.allocates alloc 20000000000000000)
    with (false && alloc 20000000000000000).
  reflexivity.
Qed.

(** A reflection coefficient that is NaN is not clipped: [Math.min] and
    [Math.max] hand NaN on, NaN is neither at least -0.99 nor at most
    0.99, and the area computed from it is NaN.  The coefficients
    [levinsonDurbin] returns for a silent frame are such a vector. *)
Lemma reflectionToArea_nan_not_clipped :
  LPC.reflectionCoefficients (LPC.levinsonDurbin (replicate 2 JS.pzero) 1)
  = [JS.NaN] /\
  LPC.clip JS.NaN = JS.NaN /\
  JS.le (JS.neg JS.lit_0_99) (LPC.clip JS.NaN) = false /\
  JS.le (LPC.clip JS.NaN) JS.lit_0_99 = false /\
  LPC.reflectionToArea [JS.NaN] = [JS.one; JS.NaN].
Proof. repeat split; vm_compute; reflexivity. Qed.

(* ================================================================== *)
(** * More buffer facts on concrete inputs *)
(* ================================================================== *)

(** Capacity 4 with three samples stored: two more make four. *)
Lemma write_adds_available_up_to_capacity_witness :
  0 < 4 /\
  CircularBuffer.getAvailableData
    (CircularBuffer.write
       (CircularBuffer.run (CircularBuffer.fresh 4) Inputs.write_read_write)
       (Inputs.samples [7; 8]))
  = Z.min
      (CircularBuffer.getAvailableData
         (CircularBuffer.run (CircularBuffer.fresh 4) Inputs.write_read_write)
       + Z.of_nat (length (Inputs.samples [7; 8]))) 4.
Proof.
  split; [lia |].
  exact (write_adds_available_up_to_capacity 4 Inputs.write_read_write
           (Inputs.samples [7; 8]) ltac:(lia)).
Defined.


(** Capacity 4 with the sample 3 stored: after writing 7 8, [read(3)]
    returns 3 7 8. *)
Lemma write_then_read_is_fifo_witness :
  0 < 4 /\
  CircularBuffer.getAvailableData
    (CircularBuffer.run (CircularBuffer.fresh 4) Inputs.write_read_some)
  + Z.of_nat (length (Inputs.samples [7; 8])) < 4 /\
  snd (CircularBuffer.read
         (CircularBuffer.write
            (CircularBuffer.run (CircularBuffer.fresh 4) Inputs.write_read_some)
            (Inputs.samples [7; 8])) 3)
  = Inputs.samples [3; 7; 8].
Proof.
  split; [lia |]. split; [vm_compute; reflexivity |].
  exact (proj1 (write_then_read_is_fifo 4 Inputs.write_read_some
                  (Inputs.samples [7; 8]) ltac:(lia) eq_refl)).
Defined.

(** Capacity 4, five samples written: [read(2)] returns 3 4, and four
    samples are still said to be available. *)
Lemma full_buffer_keeps_reporting_capacity_witness :
  0 < 4 /\ 4 <= Z.of_nat (length (Inputs.samples [1; 2; 3; 4; 5])) /\
  Z.of_nat 2 + 2 <= 4 /\
  snd (CircularBuffer.read
         (CircularBuffer.write
            (CircularBuffer.run (CircularBuffer.fresh 4) Inputs.write_read_write)
            (Inputs.samples [1; 2; 3; 4; 5])) 2)
  = Inputs.samples [3; 4] /\
  CircularBuffer.getAvailableData
    (fst (CircularBuffer.read
            (CircularBuffer.write
               (CircularBuffer.run (CircularBuffer.fresh 4) Inputs.write_read_write)
               (Inputs.samples [1; 2; 3; 4; 5])) 2))
  = 4.
Proof.
  split; [lia |]. split; [simpl; lia |]. split; [lia |].
  pose proof (full_buffer_keeps_reporting_capacity 4 Inputs.write_read_write
                (Inputs.samples [1; 2; 3; 4; 5]) 2
                ltac:(lia) ltac:(simpl; lia) ltac:(lia)) as (Hread & Havail & _).
  split; [exact Hread | exact Havail].
Defined.

(** Capacity 4, five samples written: [peek(2, 1)] returns 3 4. *)
Lemma peek_returns_latest_samples_witness :
  0 < 4 /\ 0 <= 1 /\ Z.of_nat 2 + 1 <= 4 /\
  Z.of_nat 2 + 1 <= Z.of_nat (length (Inputs.samples [1; 2; 3; 4; 5])) /\
  CircularBuffer.peek
    (CircularBuffer.write
       (CircularBuffer.run (CircularBuffer.fresh 4) Inputs.write_read_write)
       (Inputs.samples [1; 2; 3; 4; 5])) 2 1
  = Inputs.samples [3; 4].
Proof.
  split; [lia |]. split; [lia |]. split; [lia |]. split; [simpl; lia |].
  exact (peek_returns_latest_samples 4 Inputs.write_read_write
           (Inputs.samples [1; 2; 3; 4; 5]) 2 1
           ltac:(lia) ltac:(lia) ltac:(lia) ltac:(simpl; lia)).
Defined.

(** Asked for (2048, 256, 128) on a platform that cannot allocate more
    than 1000 samples at once, the constructor returns a processor
    with a buffer of 512 samples; where nothing can be allocated, it
    throws. *)
Lemma processor_sizes_are_clamped_witness :
  (exists p : AudioBufferProcessor.t JS.number,
     AudioBufferProcessor.new Inputs.alloc_small Inputs.flat_window 2048 256 128
     = Ok p /\
     AudioBufferProcessor.inputBuffer p = CircularBuffer.fresh 512 /\
     256 <= AudioBufferProcessor.frameSize p <= 4096 /\
     128 <= AudioBufferProcessor.hopSize p <= AudioBufferProcessor.frameSize p /\
     exists capacity : Z,
       AudioBufferProcessor.inputBuffer p = CircularBuffer.fresh capacity /\
       256 <= capacity <= Z.max 2048 (Z.min 2048 65536) /\
       capacity <= 65536) /\
  AudioBufferProcessor.new Inputs.alloc_none Inputs.flat_window 2048 256 128
  = Throw RangeError /\
  (JS.allocates Inputs.alloc_none 256 = false \/
   JS.allocates Inputs.alloc_none (Z.max 256 (Z.min 256 4096)) = false).
Proof.
  pose proof (processor_sizes_are_clamped Inputs.alloc_small Inputs.flat_window
                2048 256 128) as Hsmall.
  pose proof (processor_sizes_are_clamped Inputs.alloc_none Inputs.flat_window
                2048 256 128) as Hnone.
  assert (Hnew :
    AudioBufferProcessor.new Inputs.alloc_small Inputs.flat_window 2048 256 128
    = Ok (AudioBufferProcessor.mk (CircularBuffer.fresh 512) 256 128
            (Inputs.flat_window 256) (replicate 256 JS.pzero)))
    by reflexivity.
  assert (Hthrow :
    AudioBufferProcessor.new Inputs.alloc_none Inputs.flat_window 2048 256 128
    = Throw RangeError) by reflexivity.
  rewrite Hnew in Hsmall. rewrite Hthrow in Hnone.
  split.
  - eexists. split; [exact Hnew |]. split; [reflexivity | exact Hsmall].
  - split; [exact Hthrow | exact (proj2 Hnone)].
Defined.

(** The processor (2048, 256, 128): after 300 samples are added,
    [getFrames()] returns the last 256 of them. *)
Lemma getFrames_returns_latest_frame_witness :
  AudioBufferProcessor.new Inputs.alloc_ok Inputs.flat_window 2048 256 128
  = Ok Inputs.processor_new /\
  AudioBufferProcessor.frameSize
    (AudioBufferProcessor.run Inputs.processor_new
       [AudioBufferProcessor.AddAudioData (Inputs.samples [1; 2; 3])])
  <= CircularBuffer.size
       (AudioBufferProcessor.inputBuffer
          (AudioBufferProcessor.run Inputs.processor_new
             [AudioBufferProcessor.AddAudioData (Inputs.samples [1; 2; 3])])) /\
  AudioBufferProcessor.frameSize
    (AudioBufferProcessor.run Inputs.processor_new
       [AudioBufferProcessor.AddAudioData (Inputs.samples [1; 2; 3])])
  <= Z.of_nat (length (replicate 300 JS.one)) /\
  AudioBufferProcessor.getFrames
    (AudioBufferProcessor.addAudioData
       (AudioBufferProcessor.run Inputs.processor_new
          [AudioBufferProcessor.AddAudioData (Inputs.samples [1; 2; 3])])
       (replicate 300 JS.one))
  = [replicate 256 JS.one].
Proof.
  split; [reflexivity |].
  split; [vm_compute; discriminate |]. split; [vm_compute; discriminate |].
  exact (getFrames_returns_latest_frame Inputs.alloc_ok Inputs.flat_window
           2048 256 128 Inputs.processor_new
           [AudioBufferProcessor.AddAudioData (Inputs.samples [1; 2; 3])]
           (replicate 300 JS.one)
           eq_refl
           ltac:(vm_compute; discriminate) ltac:(vm_compute; discriminate)).
Defined.

(** A processor asked for a buffer of 2048 samples and frames of 4096:
    however much is added, there is no frame. *)
Lemma getFrames_empty_when_frame_exceeds_capacity_witness :
  exists p0 : AudioBufferProcessor.t JS.number,
    AudioBufferProcessor.new Inputs.alloc_ok Inputs.flat_window 2048 4096 512
    = Ok p0 /\
    CircularBuffer.size (AudioBufferProcessor.inputBuffer p0) = 2048 /\
    AudioBufferProcessor.frameSize p0 = 4096 /\
    CircularBuffer.size (AudioBufferProcessor.inputBuffer p0)
    < AudioBufferProcessor.frameSize p0 /\
    AudioBufferProcessor.getFrames
      (AudioBufferProcessor.run p0
         [AudioBufferProcessor.AddAudioData (replicate 5000 JS.one)])
    = [].
Proof.
  exists (AudioBufferProcessor.mk (CircularBuffer.fresh 2048) 4096 512
            (Inputs.flat_window 4096) (replicate 4096 JS.pzero)).
  split; [reflexivity |]. split; [reflexivity |]. split; [reflexivity |].
  split; [reflexivity |].
  exact (getFrames_empty_when_frame_exceeds_capacity Inputs.alloc_ok
           Inputs.flat_window 2048 4096 512 _
           [AudioBufferProcessor.AddAudioData (replicate 5000 JS.one)]
           eq_refl eq_refl).
Defined.

(** Capacity 4: what happened before a [clear()] does not show in a
    write of three samples after it. *)
Lemma clear_forgets_history_witness :
  0 < 4 /\
  CircularBuffer.run (CircularBuffer.fresh 4)
    (Inputs.write_read_write
     ++ CircularBuffer.Clear :: [CircularBuffer.Write (Inputs.samples [7; 8; 9])])
  = CircularBuffer.run (CircularBuffer.fresh 4)
      [CircularBuffer.Write (Inputs.samples [7; 8; 9])].
Proof.
  split; [lia |].
  exact (clear_forgets_history 4 Inputs.write_read_write
           [CircularBuffer.Write (Inputs.samples [7; 8; 9])] ltac:(lia)).
Defined.

(* ================================================================== *)
(** * More facts on concrete inputs *)
(* ================================================================== *)

(** With three bits, the index 3 = 011 is exchanged with 6 = 110. *)
Lemma bitReverse_involutive_witness :
  0 <= 3 <= 30 /\ 0 <= 3 < 2 ^ 3 /\
  FFT.bitReverse 3 3 = 6 /\ FFT.bitReverse 6 3 = 3.
Proof.
  split; [lia |]. split; [lia |]. split; [reflexivity |].
  exact (proj2 (bitReverse_involutive 3 3 ltac:(lia) ltac:(lia))).
Defined.

(** A signal of four samples has three bins, none negative. *)
Lemma powerSpectrum_bins_witness :
  Z.of_nat (length (Inputs.samples [0; 1; 0; 0])) < 2 ^ 31 /\
  exists spectrum : list JS.number,
    FFT.powerSpectrum Inputs.cos_table Inputs.sin_table 5
      (Inputs.samples [0; 1; 0; 0]) = Ok spectrum /\
    Z.of_nat (length spectrum)
    = Z.of_nat (length (Inputs.samples [0; 1; 0; 0])) / 2 + 1 /\
    Forall (fun x => JS.lt x JS.pzero = false) spectrum.
Proof.
  split; [reflexivity |].
  apply (proj2 (powerSpectrum_bins Inputs.cos_table Inputs.sin_table
                  (Inputs.samples [0; 1; 0; 0]) eq_refl)).
  - exists 2. split; [lia | reflexivity].
  - simpl. lia.
Defined.

(** The sample 1 under a Hann window. *)
Lemma applyWindow_single_sample_witness :
  Inputs.cos_or_nan JS.NaN = JS.NaN /\
  FFT.applyWindow Inputs.cos_or_nan [JS.one] FFT.hann = [JS.NaN].
Proof.
  split; [reflexivity |].
  exact (applyWindow_single_sample Inputs.cos_or_nan JS.one FFT.hann eq_refl).
Defined.


(** The coefficients 0, NaN, 0: the areas are 1, 1, NaN, NaN. *)
Lemma reflectionToArea_nan_propagates_witness :
  0 <= 1 < 3 /\ 3 <= Z.of_nat (length [JS.pzero; JS.NaN; JS.pzero]) /\
  JS.is_nan (JS.rd [JS.pzero; JS.NaN; JS.pzero] 1) = true /\
  JS.rd (LPC.reflectionToArea [JS.pzero; JS.NaN; JS.pzero]) 3 = JS.NaN.
Proof.
  split; [lia |]. split; [simpl; lia |]. split; [reflexivity |].
  exact (reflectionToArea_nan_propagates [JS.pzero; JS.NaN; JS.pzero] 1 3
           ltac:(lia) ltac:(simpl; lia) eq_refl).
Defined.


(** The spectrum 1, 2 after the spectrum 0, 0: the flux is 3, and 0 on
    the next call with the same spectrum. *)
Lemma calculateSpectralFlux_repeat_witness :
  FeatureExtractor.calculateSpectralFlux
    (Some (Inputs.samples [0; 0])) (Inputs.samples [1; 2])
  = (Ok (JS.of_Z 3), Some (Inputs.samples [1; 2])) /\
  JS.ge (JS.of_Z 3) JS.pzero = true /\
  FeatureExtractor.calculateSpectralFlux
    (Some (Inputs.samples [1; 2])) (Inputs.samples [1; 2])
  = (Ok JS.pzero, Some (Inputs.samples [1; 2])).
Proof.
  split; [vm_compute; reflexivity |].
  exact (calculateSpectralFlux_repeat (Some (Inputs.samples [0; 0]))
           (Inputs.samples [1; 2]) (JS.of_Z 3) (Some (Inputs.samples [1; 2]))
           ltac:(vm_compute; reflexivity)).
Defined.

(** At 8 kHz the search range is [16, 160). *)
Lemma estimatePitch_lag_in_range_witness :
  JS.Math_floor (JS.div (JS.of_Z 8000) (JS.of_Z 500)) = Some 16 /\
  JS.Math_floor (JS.div (JS.of_Z 8000) (JS.of_Z 50)) = Some 160 /\
  1 <= 16 /\
  JS.allocates Inputs.alloc_small 160 = true /\
  exists lag : Z,
    FeatureExtractor.estimatePitch Inputs.alloc_small (JS.of_Z 8000)
      Inputs.click_frame
    = Ok (Some (JS.div (JS.of_Z 8000) (JS.of_Z lag))) /\
    (lag = 0 \/ 16 <= lag < 160).
Proof.
  split; [reflexivity |]. split; [reflexivity |]. split; [lia |].
  split; [reflexivity |].
  exact (estimatePitch_lag_in_range Inputs.alloc_small (JS.of_Z 8000)
           Inputs.click_frame 16 160 eq_refl eq_refl ltac:(lia) eq_refl).
Defined.

(** 32 samples of silence at 8 kHz. *)
Lemma estimatePitch_silence_witness :
  JS.Math_floor (JS.div (JS.of_Z 8000) (JS.of_Z 500)) = Some 16 /\
  JS.Math_floor (JS.div (JS.of_Z 8000) (JS.of_Z 50)) = Some 160 /\
  1 <= 16 /\
  JS.allocates Inputs.alloc_small 160 = true /\
  FeatureExtractor.estimatePitch Inputs.alloc_small (JS.of_Z 8000)
    (replicate 32 JS.pzero)
  = Ok (Some JS.pinf).
Proof.
  split; [reflexivity |]. split; [reflexivity |]. split; [lia |].
  split; [reflexivity |].
  exact (estimatePitch_silence Inputs.alloc_small (JS.of_Z 8000) 32 16 160
           eq_refl eq_refl ltac:(lia) eq_refl).
Defined.

(** 32 samples of silence, with a pitch of 100 Hz and a rate of 0. *)
Lemma silence_is_silent_witness :
  1 <= Z.of_nat 32 < 2 ^ 53 /\
  FeatureExtractor.detectVoiceQuality
    (FeatureExtractor.calculateIntensity (replicate 32 JS.pzero))
    JS.pzero (Some (JS.of_Z 100))
  = FeatureExtractor.silent.
Proof.
  split; [simpl; lia |].
  exact (silence_is_silent 32 JS.pzero (Some (JS.of_Z 100)) ltac:(simpl; lia)).
Defined.

Lemma not_pow2_3 : ~ FFT.is_pow2 3.
Proof.
  intros (k & Hk & Heq).
  destruct (Z_lt_ge_dec k 2) as [Hsmall | Hbig].
  - assert (Hcases : k = 0 \/ k = 1) by lia.
    destruct Hcases as [-> | ->]; simpl in Heq; lia.
  - pose proof (pow2_le_mono 2 k ltac:(lia)) as Hle. simpl in Hle. lia.
Qed.

(** A frame of three samples. *)
Lemma extractFeatures_rejects_length_witness :
  Z.of_nat (length (Inputs.samples [1; 2; 3])) < 2 ^ 31 /\
  ~ FFT.is_pow2 (Z.of_nat (length (Inputs.samples [1; 2; 3]))) /\
  FeatureExtractor.extractFeatures Inputs.cos_or_nan Inputs.sin_or_nan
    Inputs.log_or_nan Inputs.log_or_nan Inputs.alloc_ok 10 Inputs.extractor_8k
    (Inputs.samples [1; 2; 3])
  = (Throw InvalidSize, Inputs.extractor_8k).
Proof.
  split; [reflexivity |]. split; [exact not_pow2_3 |].
  exact (extractFeatures_rejects_length Inputs.cos_or_nan Inputs.sin_or_nan
           Inputs.log_or_nan Inputs.log_or_nan Inputs.alloc_ok 10 Inputs.extractor_8k
           (Inputs.samples [1; 2; 3]) eq_refl not_pow2_3).
Defined.

(** A fresh extractor takes a frame of one sample; a frame of two
    samples then makes it throw. *)
Lemma extractFeatures_longer_frame_throws_witness :
  exists (features : FeatureExtractor.AudioFeatures) (this' : FeatureExtractor.t),
    FeatureExtractor.previousSpectrum Inputs.extractor_8k = None /\
    FeatureExtractor.extractFeatures Inputs.cos_or_nan Inputs.sin_or_nan
      Inputs.log_or_nan Inputs.log_or_nan Inputs.alloc_ok 3 Inputs.extractor_8k [JS.one]
    = (Ok features, this') /\
    FeatureExtractor.extractFeatures Inputs.cos_or_nan Inputs.sin_or_nan
      Inputs.log_or_nan Inputs.log_or_nan Inputs.alloc_ok 3 this' [JS.one; JS.one]
    = (Throw RangeError, this').
Proof.
  assert (Hfirst :
    { r : FeatureExtractor.AudioFeatures * FeatureExtractor.t |
      FeatureExtractor.extractFeatures Inputs.cos_or_nan Inputs.sin_or_nan
        Inputs.log_or_nan Inputs.log_or_nan Inputs.alloc_ok 3 Inputs.extractor_8k [JS.one]
      = (Ok (fst r), snd r) }).
  { eexists (_, _). vm_compute. reflexivity. }
  destruct Hfirst as [[features this'] Hfirst]. cbn [fst snd] in Hfirst.
  exists features, this'. split; [reflexivity |]. split; [exact Hfirst |].
  apply (extractFeatures_longer_frame_throws Inputs.cos_or_nan Inputs.sin_or_nan
           Inputs.log_or_nan Inputs.log_or_nan Inputs.alloc_ok 3 Inputs.extractor_8k this'
           [JS.one] [JS.one; JS.one] features eq_refl Hfirst).
  - simpl. lia.
  - exists 1. split; [lia | reflexivity].
  - simpl. lia.
  - simpl. lia.
Defined.

(** The first two output samples for the excitation 1, 2, 3 are those
    for the excitation 1, 2. *)
Lemma synthesize_is_causal_witness :
  (2 <= length (Inputs.samples [1; 2; 3]%Z))%nat /\
  take 2 (LPC.synthesize (Inputs.samples [1; 2; 3]) [JS.lit_0_5] JS.one)
  = LPC.synthesize (Inputs.samples [1; 2]) [JS.lit_0_5] JS.one.
Proof.
  split; [simpl; lia |].
  exact (synthesize_is_causal (Inputs.samples [1; 2; 3]) [JS.lit_0_5] JS.one 2
           ltac:(simpl; lia)).
Defined.
